(** * ahb-diff: alignment of two versions of an AHB table

    A shallow embedding of [src/ahb_diff/main.py] and the properties of
    its version discovery, of its alignment loop and of its row builder.

    Conventions of the embedding.
    - A Python [str] is a [string]; its characters are the code points
      below 256.
    - A cell of a [DataFrame] read with [dtype=str] is a [str] or the
      missing value [NaN]: [cell := option string], [None] being [NaN].
    - A function that can raise returns an [outcome]; the [while] loop of
      [align_columns] takes fuel, one unit per evaluation of its test. *)

From Stdlib Require Import List String Ascii Bool Arith ZArith Lia.
From Stdlib Require Import Permutation Sorted.
Import ListNotations.

Local Open Scope string_scope.
Local Open Scope list_scope.

(* ================================================================== *)
(** ** Outcomes of a call *)

(** The exceptions the modelled functions let escape.  Messages are not
    modelled. *)
Inductive exn : Type :=
| ValueError
| KeyError (key : string)
| IndexError
| OSError.

Inductive outcome (A : Type) : Type :=
| Return (a : A)
| Raise (e : exn)
| OutOfFuel.

Arguments Return {A} a.
Arguments Raise {A} e.
Arguments OutOfFuel {A}.

Definition bind {A B : Type} (m : outcome A) (k : A -> outcome B) : outcome B :=
  match m with
  | Return a => k a
  | Raise e => Raise e
  | OutOfFuel => OutOfFuel
  end.

Notation "x <- m ;; k" := (bind m (fun x => k))
  (at level 61, m at next level, right associativity).

(** Monadic traversals: a list comprehension or [for] loop whose body can
    raise. *)
Fixpoint mapM {A B : Type} (f : A -> outcome B) (l : list A) : outcome (list B) :=
  match l with
  | [] => Return []
  | a :: l' => b <- f a ;; bs <- mapM f l' ;; Return (b :: bs)
  end.

Fixpoint foldM {A S : Type} (f : S -> A -> outcome S) (l : list A) (s : S) : outcome S :=
  match l with
  | [] => Return s
  | a :: l' => s' <- f s a ;; foldM f l' s'
  end.

(* ================================================================== *)
(** ** Strings *)

(** A string holds characters with code points below 256, one character
    for each [ascii]: these are the texts the definitions below speak
    of.  A Python text with a character above 255 is none of them. *)

Definition startswith (s prefix : string) : bool := String.prefix prefix s.

(** [s[a:b]] for [0 <= a <= b]. *)
Definition slice (s : string) (a b : nat) : string := substring a (b - a) s.

Definition code (c : ascii) : nat := nat_of_ascii c.

(** The decimal value of a character: below 256 only ['0'..'9'] are
    decimal digits. *)
Definition digit_val (c : ascii) : option Z :=
  if (48 <=? code c)%nat && (code c <=? 57)%nat
  then Some (Z.of_nat (code c - 48)) else None.

(** The characters [int()] skips around a literal: tab, line feed,
    vertical tab, form feed, carriage return, space, and the two
    non-ASCII spaces below 256 (next line and no-break space). *)
Definition int_space (c : ascii) : bool :=
  ((9 <=? code c)%nat && (code c <=? 13)%nat)
  || (code c =? 32)%nat || (code c =? 133)%nat || (code c =? 160)%nat.

Fixpoint lstrip (s : string) : string :=
  match s with
  | String c s' => if int_space c then lstrip s' else s
  | EmptyString => s
  end.

Fixpoint all_space (s : string) : bool :=
  match s with
  | String c s' => int_space c && all_space s'
  | EmptyString => true
  end.

(** The digits of a literal after its first one: digits, each optionally
    preceded by one underscore.  Returns the value and what is left. *)
Fixpoint int_digits (acc : Z) (s : string) : Z * string :=
  match s with
  | String c s' =>
      match digit_val c with
      | Some d => int_digits (10 * acc + d) s'
      | None =>
          if Ascii.eqb c "_" then
            match s' with
            | String c2 s'' =>
                match digit_val c2 with
                | Some d => int_digits (10 * acc + d) s''
                | None => (acc, s)
                end
            | EmptyString => (acc, s)
            end
          else (acc, s)
      end
  | EmptyString => (acc, s)
  end.

(** Python's [int(s)] in base 10 on such a string: optional surrounding
    whitespace, an optional sign, then digits.  [None] stands for its
    [ValueError].  Of the characters below 256, ['0'..'9'] are the
    decimal digits and [int_space] the whitespace; the decimal digits
    and spaces [int] knows above 255 occur in no string here. *)
Definition int_literal (s : string) : option Z :=
  let s1 := lstrip s in
  let '(sign, s2) :=
    match s1 with
    | String c r =>
        if Ascii.eqb c "+" then (1%Z, r)
        else if Ascii.eqb c "-" then ((-1)%Z, r)
        else (1%Z, s1)
    | EmptyString => (1%Z, s1)
    end in
  match s2 with
  | String c r =>
      match digit_val c with
      | Some d =>
          let '(v, rest) := int_digits d r in
          if all_space rest then Some (sign * v)%Z else None
      | None => None
      end
  | EmptyString => None
  end.

Definition int (s : string) : outcome Z :=
  match int_literal s with
  | Some v => Return v
  | None => Raise ValueError
  end.

(* ================================================================== *)
(** ** [parse_formatversions] *)

Definition parse_formatversions (formatversion : string) : outcome (Z * Z) :=
  if negb (startswith formatversion "FV") || negb (String.length formatversion =? 6)%nat
  then Raise ValueError
  else
    year <- int (slice formatversion 2 4) ;;
    month <- int (slice formatversion 4 6) ;;
    let year := (2000 + year)%Z in
    if negb ((1 <=? month)%Z && (month <=? 12)%Z)
    then Raise ValueError
    else Return (year, month).

(** What [int] accepts of a string of two characters, in closed form: two
    digits, or one digit next to a skipped character, or a signed digit. *)
Definition int_literal2 (c1 c2 : ascii) : option Z :=
  match digit_val c1, digit_val c2 with
  | Some a, Some b => Some (10 * a + b)%Z
  | Some a, None => if int_space c2 then Some a else None
  | None, Some b =>
      if int_space c1 then Some b
      else if Ascii.eqb c1 "+" then Some b
      else if Ascii.eqb c1 "-" then Some (- b)%Z
      else None
  | None, None => None
  end.

Definition is_digit (c : ascii) : bool :=
  match digit_val c with Some _ => true | None => false end.

(** The grammar in the words of the specification: [FV] followed by
    exactly four digits. *)
Definition spec_four_digit_tag (s : string) : bool :=
  match s with
  | String f (String v (String c1 (String c2 (String c3 (String c4 EmptyString))))) =>
      Ascii.eqb f "F" && Ascii.eqb v "V"
      && is_digit c1 && is_digit c2 && is_digit c3 && is_digit c4
  | _ => false
  end.

(* ================================================================== *)
(** ** The directory tree under [SUBMODULE] *)

(** A directory maps the names [iterdir] yields, in its order, to nodes;
    a path is resolved by name, as [Path.exists] and [Path.is_dir] do.
    [None] is a path that does not exist. *)
#[warnings="-register-all"]
Inductive node : Type :=
| File
| Dir (entries : list (string * node)).

Definition lookup (entries : list (string * node)) (name : string) : option node :=
  match find (fun e => String.eqb (fst e) name) entries with
  | Some e => Some (snd e)
  | None => None
  end.

Definition path_exists (p : option node) : bool :=
  match p with Some _ => true | None => false end.

Definition is_dir (p : option node) : bool :=
  match p with Some (Dir _) => true | _ => false end.

(** [p / name] *)
Definition child (p : option node) (name : string) : option node :=
  match p with
  | Some (Dir entries) => lookup entries name
  | _ => None
  end.

(** The names of [p.iterdir()]. *)
Definition iterdir (p : option node) : outcome (list string) :=
  match p with
  | Some (Dir entries) => Return (map fst entries)
  | _ => Raise OSError
  end.

(** The order of the tuples [(year, month)]. *)
Definition key_lt (a b : Z * Z) : bool :=
  (fst a <? fst b)%Z || ((fst a =? fst b)%Z && (snd a <? snd b)%Z).

(** [list.sort(key=..., reverse=True)]: the keys are computed first, the
    sort is stable, elements with equal keys keep their order. *)
Fixpoint insert_desc {A : Type} (x : (Z * Z) * A) (l : list ((Z * Z) * A)) : list ((Z * Z) * A) :=
  match l with
  | [] => [x]
  | y :: l' => if key_lt (fst x) (fst y) then y :: insert_desc x l' else x :: l
  end.

Definition sort_desc {A : Type} (l : list ((Z * Z) * A)) : list ((Z * Z) * A) :=
  fold_right insert_desc [] l.

Definition sort_by_key_reverse {A : Type} (key : A -> outcome (Z * Z)) (l : list A) : outcome (list A) :=
  keys <- mapM key l ;;
  Return (map snd (sort_desc (combine keys l))).

Definition get_nachrichtenformat_dirs (formatversion_dir : option node) : outcome (list string) :=
  if negb (path_exists formatversion_dir) then Return []
  else
    ds <- iterdir formatversion_dir ;;
    Return (filter (fun d =>
                      is_dir (child formatversion_dir d)
                      && path_exists (child (child formatversion_dir d) "csv")
                      && is_dir (child (child formatversion_dir d) "csv")) ds).

Definition get_available_formatversions (SUBMODULE : option node) : outcome (list string) :=
  if negb (path_exists SUBMODULE) then Return []
  else
    ds <- iterdir SUBMODULE ;;
    let formatversion_dirs :=
      filter (fun d => is_dir (child SUBMODULE d) && startswith d "FV"
                       && (String.length d =? 6)%nat) ds in
    sort_by_key_reverse parse_formatversions formatversion_dirs.

Definition is_formatversion_empty (SUBMODULE : option node) (formatversion : string) : outcome bool :=
  let formatversion_dir := child SUBMODULE formatversion in
  if negb (path_exists formatversion_dir) then Return true
  else
    ds <- get_nachrichtenformat_dirs formatversion_dir ;;
    Return (List.length ds =? 0)%nat.

(** One turn of the loop over [range(len(formatversion_list) - 1)]. *)
Definition consecutive_step (SUBMODULE : option node) (formatversion_list : list string)
  (consecutive_formatversions : list (string * string)) (i : nat) : outcome (list (string * string)) :=
  match nth_error formatversion_list i, nth_error formatversion_list (i + 1) with
  | Some subsequent_formatversion, Some previous_formatversion =>
      e1 <- is_formatversion_empty SUBMODULE subsequent_formatversion ;;
      e <- (if e1 then Return true
            else is_formatversion_empty SUBMODULE previous_formatversion) ;;
      if e then Return consecutive_formatversions
      else Return (consecutive_formatversions
                     ++ [(subsequent_formatversion, previous_formatversion)])
  | _, _ => Raise IndexError
  end.

Definition determine_consecutive_formatversions (SUBMODULE : option node) : outcome (list (string * string)) :=
  formatversion_list <- get_available_formatversions SUBMODULE ;;
  foldM (consecutive_step SUBMODULE formatversion_list)
        (seq 0 (List.length formatversion_list - 1)) [].

(** The neighbours of a list, in order. *)
Fixpoint adjacent_pairs {A : Type} (l : list A) : list (A * A) :=
  match l with
  | a :: l' =>
      match l' with
      | b :: _ => (a, b) :: adjacent_pairs l'
      | [] => []
      end
  | [] => []
  end.

(** A version directory is non-empty when it holds at least one
    message-format directory with a [csv] subdirectory. *)
Definition version_nonempty (SUBMODULE : option node) (formatversion : string) : bool :=
  match child SUBMODULE formatversion with
  | Some (Dir entries) =>
      existsb (fun e => is_dir (lookup entries (fst e))
                        && is_dir (child (lookup entries (fst e)) "csv")) entries
  | _ => false
  end.

(** The key a listed name is sorted by; [(0, 0)] where it has none. *)
Definition version_key (formatversion : string) : Z * Z :=
  match parse_formatversions formatversion with
  | Return k => k
  | _ => (0, 0)%Z
  end.

Definition key_ge (a b : string) : Prop := key_lt (version_key a) (version_key b) = false.

(** The pairing in the words of the specification: the neighbours among
    the non-empty directories of the listing. *)
Definition spec_pairs_of_nonempty (SUBMODULE : option node) (formatversion_list : list string) : list (string * string) :=
  adjacent_pairs (filter (version_nonempty SUBMODULE) formatversion_list).

(* ================================================================== *)
(** ** Tables *)

(** A cell read with [dtype=str]: a string, or [None] for the missing
    value [NaN]. *)
Definition cell : Type := option string.

(** A [DataFrame] with its column labels and its rows.  A row shorter
    than the labels holds [NaN] in the columns it does not reach.  The
    model reads a column by the first label of that name: it covers the
    frames whose labels are distinct, as those of [read_csv] are. *)
Record DataFrame : Type := mkDataFrame {
  columns : list string;
  values : list (list cell)
}.

(** [len(df)] *)
Definition len (df : DataFrame) : nat := List.length (values df).

(** [df.empty]: no row or no column. *)
Definition empty (df : DataFrame) : bool :=
  (List.length (columns df) =? 0)%nat || (List.length (values df) =? 0)%nat.

(** [df.rename(columns={old: new})] *)
Definition rename (df : DataFrame) (old new : string) : DataFrame :=
  mkDataFrame (map (fun c => if String.eqb c old then new else c) (columns df))
              (values df).

Fixpoint index_of (x : string) (l : list string) : option nat :=
  match l with
  | [] => None
  | y :: l' => if String.eqb y x then Some 0
               else match index_of x l' with
                    | Some k => Some (S k)
                    | None => None
                    end
  end.

(** The cell of a row at a position. *)
Definition cell_at (row : list cell) (k : nat) : cell := nth k row None.

(** [df.iloc[idx][col]] *)
Definition iloc (df : DataFrame) (idx : nat) (col : string) : outcome cell :=
  match nth_error (values df) idx with
  | None => Raise IndexError
  | Some row =>
      match index_of col (columns df) with
      | None => Raise (KeyError col)
      | Some k => Return (cell_at row k)
      end
  end.

(** [df[col].tolist()] *)
Definition column_tolist (df : DataFrame) (col : string) : outcome (list cell) :=
  match index_of col (columns df) with
  | None => Raise (KeyError col)
  | Some k => Return (map (fun row => cell_at row k) (values df))
  end.

(** [pd.isna(value)] *)
Definition isna (value : cell) : bool :=
  match value with None => true | Some _ => false end.

(** A row under construction: a [dict] from column name to value, in
    insertion order. *)
Definition dict : Type := list (string * cell).

Fixpoint dict_set (k : string) (v : cell) (d : dict) : dict :=
  match d with
  | [] => [(k, v)]
  | (k', v') :: d' =>
      if String.eqb k' k then (k', v) :: d' else (k', v') :: dict_set k v d'
  end.

Fixpoint dict_get (k : string) (d : dict) : option cell :=
  match d with
  | [] => None
  | (k', v') :: d' => if String.eqb k' k then Some v' else dict_get k d'
  end.

(** The keys of a dict comprehension over a list of names: each name
    once, at its first place. *)
Fixpoint dedup (l : list string) : list string :=
  match l with
  | [] => []
  | x :: l' => x :: filter (fun y => negb (String.eqb y x)) (dedup l')
  end.

(** [pd.DataFrame(result_rows)]: the columns are the keys of the rows in
    order of first appearance, a key a row lacks reads [NaN]. *)
Definition DataFrame_of_records (rows : list dict) : DataFrame :=
  let cols := dedup (List.concat (map (map fst) rows)) in
  mkDataFrame cols
    (map (fun row => map (fun c => match dict_get c row with
                                   | Some v => v
                                   | None => None
                                   end) cols) rows).

(** [df[cols]] *)
Definition select (df : DataFrame) (cols : list string) : outcome DataFrame :=
  ks <- mapM (fun c => match index_of c (columns df) with
                       | Some k => Return k
                       | None => Raise (KeyError c)
                       end) cols ;;
  Return (mkDataFrame cols (map (fun row => map (cell_at row) ks) (values df))).

(** [.astype(str)] on one cell: [NaN] becomes the text [nan]. *)
Definition astype_str (v : cell) : cell :=
  match v with
  | None => Some "nan"
  | Some s => Some s
  end.

(** [.replace(old, new)] on one cell: a whole cell equal to [old]. *)
Definition replace (old new : string) (v : cell) : cell :=
  match v with
  | Some s => if String.eqb s old then Some new else v
  | None => v
  end.

Definition map_cells (f : cell -> cell) (df : DataFrame) : DataFrame :=
  mkDataFrame (columns df) (map (map f) (values df)).

(* ================================================================== *)
(** ** The row builder *)

(** [f"Segmentname_{formatversion}"] and [f"{col}_{formatversion}"] *)
Definition key_column (formatversion : string) : string :=
  ("Segmentname_" ++ formatversion)%string.

Definition suffixed (col formatversion : string) : string :=
  (col ++ "_" ++ formatversion)%string.

Definition _populate_row_values (df : option DataFrame) (row : dict) (idx : option nat)
  (formatversion : string) (is_segmentname : bool) : outcome dict :=
  match df, idx with
  | Some df, Some idx =>
      let segmentname_col := key_column formatversion in
      if is_segmentname then
        v <- iloc df idx segmentname_col ;;
        Return (dict_set segmentname_col v row)
      else
        foldM (fun row col =>
                 if negb (String.eqb col segmentname_col) then
                   value <- iloc df idx col ;;
                   Return (dict_set (suffixed col formatversion)
                                    (if isna value then Some "" else value) row)
                 else Return row)
              (columns df) row
  | _, _ => Return row
  end.

(** The columns of one side set to the empty string. *)
Definition blank_columns (df : option DataFrame) (formatversion : string) (row : dict) : dict :=
  match df with
  | Some df =>
      fold_left (fun row col =>
                   if negb (String.eqb col (key_column formatversion))
                   then dict_set (suffixed col formatversion) (Some "") row
                   else row)
                (columns df) row
  | None => row
  end.

Definition create_row (previous_df new_df : option DataFrame) (i j : option nat)
  (previous_formatversion subsequent_formatversion : string) : outcome dict :=
  let row := dict_set (key_column subsequent_formatversion) (Some "")
               (dict_set "diff" (Some "")
                  (dict_set (key_column previous_formatversion) (Some "") [])) in
  let row := blank_columns previous_df previous_formatversion row in
  let row := blank_columns new_df subsequent_formatversion row in
  row <- _populate_row_values previous_df row i previous_formatversion true ;;
  row <- _populate_row_values new_df row j subsequent_formatversion true ;;
  row <- _populate_row_values previous_df row i previous_formatversion false ;;
  row <- _populate_row_values new_df row j subsequent_formatversion false ;;
  Return row.

(* ================================================================== *)
(** ** The alignment loop *)

(** [a == b] on two cells: [NaN] equals nothing, itself included. *)
Definition py_eq (a b : cell) : bool :=
  match a, b with
  | Some x, Some y => String.eqb x y
  | _, _ => false
  end.

(** The test of [list.index]: [a is b or a == b].  pandas stores every
    missing cell as the one object [numpy.nan], so two missing cells are
    identical although they are not equal. *)
Definition is_or_eq (a b : cell) : bool :=
  match a, b with
  | None, None => true
  | _, _ => py_eq a b
  end.

(** [l.index(value)]; [None] stands for its [ValueError]. *)
Fixpoint list_index (l : list cell) (value : cell) : option nat :=
  match l with
  | [] => None
  | x :: l' =>
      if is_or_eq x value then Some 0
      else match list_index l' value with
           | Some k => Some (S k)
           | None => None
           end
  end.

(** The variables the loop updates. *)
Record loop_state (R : Type) : Type := mkState {
  cur_i : nat;
  cur_j : nat;
  result_rows : list R
}.

Arguments mkState {R} cur_i cur_j result_rows.
Arguments cur_i {R} l.
Arguments cur_j {R} l.
Arguments result_rows {R} l.

Section AlignLoop.

(** The loop builds a row from the two optional indexes and the tag it
    then stores under [diff]; [emit] is that construction. *)
Context {R : Type}.
Variable emit : option nat -> option nat -> string -> outcome R.
Variables segments_old segments_new : list cell.

(** [for _ in range(k)]: a [NEW] row for [j], then [j += 1]. *)
Fixpoint emit_new (k : nat) (st : loop_state R) : outcome (loop_state R) :=
  match k with
  | 0 => Return st
  | S k' =>
      row <- emit None (Some (cur_j st)) "NEW" ;;
      emit_new k' (mkState (cur_i st) (cur_j st + 1) (result_rows st ++ [row]))
  end.

(** The test of the [while]. *)
Definition loop_test (st : loop_state R) : bool :=
  (cur_i st <? List.length segments_old)%nat || (cur_j st <? List.length segments_new)%nat.

(** The body of the [while]. *)
Definition loop_body (st : loop_state R) : outcome (loop_state R) :=
  let i := cur_i st in
  let j := cur_j st in
  if (List.length segments_old <=? i)%nat then
    row <- emit None (Some j) "NEW" ;;
    Return (mkState i (j + 1) (result_rows st ++ [row]))
  else if (List.length segments_new <=? j)%nat then
    row <- emit (Some i) None "REMOVED" ;;
    Return (mkState (i + 1) j (result_rows st ++ [row]))
  else
    match nth_error segments_old i, nth_error segments_new j with
    | Some old_i, Some new_j =>
        if py_eq old_i new_j then
          row <- emit (Some i) (Some j) "" ;;
          Return (mkState (i + 1) (j + 1) (result_rows st ++ [row]))
        else
          match list_index (skipn j segments_new) old_i with
          | Some next_match_new => emit_new next_match_new st
          | None =>
              row <- emit (Some i) None "REMOVED" ;;
              Return (mkState (i + 1) j (result_rows st ++ [row]))
          end
    | _, _ => Raise IndexError
    end.

Fixpoint align_loop (fuel : nat) (st : loop_state R) : outcome (list R) :=
  match fuel with
  | 0 => OutOfFuel
  | S fuel' =>
      if loop_test st then
        st' <- loop_body st ;;
        align_loop fuel' st'
      else Return (result_rows st)
  end.

End AlignLoop.

(** One alignment decision: the previous row, the subsequent row and the
    tag, as the loop hands them to the row builder. *)
Definition decision : Type := (option nat * option nat * string)%type.

Definition decide (i j : option nat) (tag : string) : outcome decision :=
  Return (i, j, tag).

(** The decisions of the loop on two key sequences. *)
Definition align_decisions (fuel : nat) (segments_old segments_new : list cell) : outcome (list decision) :=
  align_loop decide segments_old segments_new fuel (mkState 0 0 []).

(* ================================================================== *)
(** ** [align_columns] *)

Definition data_columns (df : DataFrame) : list string :=
  filter (fun col => negb (String.eqb col "Segmentname")) (columns df).

Definition column_order (previous_pruefid subsequent_pruefid : DataFrame)
  (previous_formatversion subsequent_formatversion : string) : list string :=
  let old_columns := data_columns previous_pruefid in
  let new_columns := data_columns subsequent_pruefid in
  [key_column previous_formatversion]
  ++ map (fun col => suffixed col previous_formatversion) old_columns
  ++ ["diff"]
  ++ [key_column subsequent_formatversion]
  ++ map (fun col => suffixed col subsequent_formatversion) new_columns.

(** [create_row(...)] followed by [row["diff"] = tag]. *)
Definition tagged_row (df_old df_new : DataFrame)
  (previous_formatversion subsequent_formatversion : string)
  (i j : option nat) (tag : string) : outcome dict :=
  row <- create_row (Some df_old) (Some df_new) i j
           previous_formatversion subsequent_formatversion ;;
  Return (dict_set "diff" (Some tag) row).

Definition align_columns (fuel : nat) (previous_pruefid subsequent_pruefid : DataFrame)
  (previous_formatversion subsequent_formatversion : string) : outcome DataFrame :=
  let df_old := rename previous_pruefid "Segmentname"
                  (key_column previous_formatversion) in
  let df_new := rename subsequent_pruefid "Segmentname"
                  (key_column subsequent_formatversion) in
  let column_order := column_order previous_pruefid subsequent_pruefid
                        previous_formatversion subsequent_formatversion in
  if empty df_old && empty df_new then
    Return (mkDataFrame (dedup column_order) [])
  else if empty df_new then
    result_rows <- mapM (fun i => create_row (Some df_old) (Some df_new) (Some i) None
                                    previous_formatversion subsequent_formatversion)
                        (seq 0 (len df_old)) ;;
    let result_rows := map (dict_set "diff" (Some "REMOVED")) result_rows in
    select (DataFrame_of_records result_rows) column_order
  else if empty df_old then
    result_rows <- mapM (fun j => create_row (Some df_old) (Some df_new) None (Some j)
                                    previous_formatversion subsequent_formatversion)
                        (seq 0 (len df_new)) ;;
    let result_rows := map (dict_set "diff" (Some "NEW")) result_rows in
    select (DataFrame_of_records result_rows) column_order
  else
    segments_old <- column_tolist df_old (key_column previous_formatversion) ;;
    segments_new <- column_tolist df_new (key_column subsequent_formatversion) ;;
    result_rows <- align_loop (tagged_row df_old df_new
                                 previous_formatversion subsequent_formatversion)
                     segments_old segments_new fuel (mkState 0 0 []) ;;
    select (map_cells (fun v => replace "nan" "" (astype_str v))
              (DataFrame_of_records result_rows)) column_order.

(* ================================================================== *)
(** ** Notions of the statements *)

Ltac inv H := inversion H; subst; clear H.

(** Every character, and equality of two optional integers, to check
    [int] on all strings of two characters. *)
Definition all_ascii : list ascii := map ascii_of_nat (seq 0 256).

Definition option_Z_eqb (a b : option Z) : bool :=
  match a, b with
  | Some x, Some y => (x =? y)%Z
  | None, None => true
  | _, _ => false
  end.

(** A version directory with one message format, and a tree in which the
    middle one of three versions is empty. *)
Definition example_version : node := Dir [("UTILMD", Dir [("csv", Dir [])])].

Definition example_tree : option node :=
  Some (Dir [("FV2404", example_version); ("FV2504", example_version);
             ("README.md", File); ("FV2410", Dir [])]).

(** The listed names of a tree: what [get_available_formatversions]
    keeps of [iterdir] before it sorts. *)
Definition listed_names (SUBMODULE : option node) : list string :=
  match SUBMODULE with
  | Some (Dir entries) =>
      filter (fun d => is_dir (child SUBMODULE d) && startswith d "FV"
                       && (String.length d =? 6)%nat) (map fst entries)
  | _ => []
  end.

Definition both_nonempty (SUBMODULE : option node) (p : string * string) : bool :=
  version_nonempty SUBMODULE (fst p) && version_nonempty SUBMODULE (snd p).

(** The order of the decorated list [sort_desc] sorts. *)
Definition pair_ge {A : Type} (x y : (Z * Z) * A) : Prop :=
  key_lt (fst x) (fst y) = false.

(** The result of a call, changed when there is one. *)
Definition outcome_map {A B : Type} (f : A -> B) (o : outcome A) : outcome B :=
  match o with
  | Return a => Return (f a)
  | Raise e => Raise e
  | OutOfFuel => OutOfFuel
  end.

Definition state_map {A B : Type} (f : A -> B) (st : loop_state A) : loop_state B :=
  mkState (cur_i st) (cur_j st) (map f (result_rows st)).

(** The three decisions: a row of the subsequent table alone, a row of
    the previous table alone, a row of each. *)
Definition new_decision (j : nat) : decision := (None, Some j, "NEW").

Definition removed_decision (i : nat) : decision := (Some i, None, "REMOVED").

Definition unchanged_decision (i j : nat) : decision := (Some i, Some j, "").

(** The rows of the previous table, and of the subsequent table, that a
    sequence of decisions covers, in order and with repetitions. *)
Definition previous_rows (ds : list decision) : list nat :=
  flat_map (fun d : decision => match fst (fst d) with Some i => [i] | None => [] end) ds.

Definition subsequent_rows (ds : list decision) : list nat :=
  flat_map (fun d : decision => match snd (fst d) with Some j => [j] | None => [] end) ds.

(** The three decisions, each with what it says of the keys. *)
Inductive well_tagged (segments_old segments_new : list cell) : decision -> Prop :=
| wt_unchanged (i j : nat) (key : string) :
    nth_error segments_old i = Some (Some key) ->
    nth_error segments_new j = Some (Some key) ->
    well_tagged segments_old segments_new (unchanged_decision i j)
| wt_new (j : nat) :
    j < List.length segments_new ->
    well_tagged segments_old segments_new (new_decision j)
| wt_removed (i : nat) :
    i < List.length segments_old ->
    well_tagged segments_old segments_new (removed_decision i).

(** [value] occurs in [l] at offset [k] and at no smaller one. *)
Definition first_occurrence (value : cell) (l : list cell) (k : nat) : Prop :=
  nth_error l k = Some value /\ forall k', k' < k -> nth_error l k' <> Some value.

(** No key of the sequence is missing. *)
Definition keys_present (segments : list cell) : Prop :=
  Forall (fun c : cell => c <> None) segments.

(** A sequence of assignments [row[k] = v]. *)
Definition write_all (ws : list (string * cell)) (d : dict) : dict :=
  fold_left (fun d kv => dict_set (fst kv) (snd kv) d) ws d.

(** What a row reads in a column of the frame built from it. *)
Definition get_or_nan (row : dict) (c : string) : cell :=
  match dict_get c row with
  | Some v => v
  | None => None
  end.

(** The cell of a table at a row and a column name; [NaN] where there is
    none. *)
Definition source_cell (t : DataFrame) (idx : nat) (col : string) : cell :=
  match nth_error (values t) idx, index_of col (columns t) with
  | Some row, Some k => cell_at row k
  | _, _ => None
  end.

(** The key cells of a table, in row order. *)
Definition key_cells (t : DataFrame) : list cell :=
  map (fun idx => source_cell t idx "Segmentname") (seq 0 (len t)).

(** ["" if pd.isna(value) else value] *)
Definition blank_na (v : cell) : cell := if isna v then Some "" else v.

(** One side of a merged row: the key and the data cells of the
    contributing row, or empty strings where no row contributes. *)
Definition side_values (t : DataFrame) (idx : nat) : list cell :=
  source_cell t idx "Segmentname"
  :: map (fun col => blank_na (source_cell t idx col)) (data_columns t).

Definition side_blank (t : DataFrame) : list cell :=
  Some "" :: map (fun _ => Some "") (data_columns t).

Definition side (t : DataFrame) (idx : option nat) : list cell :=
  match idx with
  | Some k => side_values t k
  | None => side_blank t
  end.

(** The merged row of a decision, in the column order: previous side,
    tag, subsequent side. *)
Definition merged_values (previous subsequent : DataFrame) (d : decision) : list cell :=
  side previous (fst (fst d)) ++ [Some (snd d)] ++ side subsequent (snd (fst d)).

(** [.astype(str).replace("nan", "")] on one cell. *)
Definition finalize (v : cell) : cell := replace "nan" "" (astype_str v).

(** The tables the theorems are about: distinct column names, a key
    column, and no column that already bears the name the key column is
    renamed to. *)
Definition well_formed (t : DataFrame) (formatversion : string) : Prop :=
  NoDup (columns t)
  /\ In "Segmentname" (columns t)
  /\ ~ In (key_column formatversion) (columns t).

(** The names of the columns of one side in the merged table. *)
Definition side_names (t : DataFrame) (formatversion : string) : list string :=
  key_column formatversion :: map (fun col => suffixed col formatversion) (data_columns t).

(** One side of a merged row with its labels: the key column and then
    the data columns in the order of the table, each with the cell that
    belongs under it, or the empty string where no row contributes. *)
Definition labelled_side (t : DataFrame) (formatversion : string) (idx : option nat)
  : list (string * cell) :=
  (key_column formatversion,
   match idx with
   | Some k => source_cell t k "Segmentname"
   | None => Some ""
   end)
  :: map (fun col => (suffixed col formatversion,
                      match idx with
                      | Some k => blank_na (source_cell t k col)
                      | None => Some ""
                      end))
         (data_columns t).

(** The merged row of a decision with its labels: previous side, tag,
    subsequent side. *)
Definition labelled_row (previous subsequent : DataFrame)
  (previous_formatversion subsequent_formatversion : string) (d : decision)
  : list (string * cell) :=
  labelled_side previous previous_formatversion (fst (fst d))
  ++ [("diff", Some (snd d))]
  ++ labelled_side subsequent subsequent_formatversion (snd (fst d)).

(** The assignments of [create_row] for one side, and the row they
    build. *)
Definition blank_writes (t : DataFrame) (formatversion : string) : list (string * cell) :=
  map (fun col => (suffixed col formatversion, Some "")) (data_columns t).

Definition key_writes (t : DataFrame) (formatversion : string) (idx : option nat) : list (string * cell) :=
  match idx with
  | Some k => [(key_column formatversion, source_cell t k "Segmentname")]
  | None => []
  end.

Definition data_writes (t : DataFrame) (formatversion : string) (idx : option nat) : list (string * cell) :=
  match idx with
  | Some k => map (fun col => (suffixed col formatversion, blank_na (source_cell t k col)))
                  (data_columns t)
  | None => []
  end.

Definition created_dict (previous subsequent : DataFrame)
  (previous_formatversion subsequent_formatversion : string) (i j : option nat) : dict :=
  write_all (data_writes subsequent subsequent_formatversion j)
    (write_all (data_writes previous previous_formatversion i)
       (write_all (key_writes subsequent subsequent_formatversion j)
          (write_all (key_writes previous previous_formatversion i)
             (write_all (blank_writes subsequent subsequent_formatversion)
                (write_all (blank_writes previous previous_formatversion)
                   (write_all [(key_column previous_formatversion, Some "");
                               ("diff", Some "");
                               (key_column subsequent_formatversion, Some "")] [])))))).

Definition row_dict (previous subsequent : DataFrame)
  (previous_formatversion subsequent_formatversion : string) (d : decision) : dict :=
  dict_set "diff" (Some (snd d))
    (created_dict previous subsequent previous_formatversion subsequent_formatversion
       (fst (fst d)) (snd (fst d))).

(** The cell of a row under a column name, read against the labels. *)
Definition row_get (cols : list string) (row : list cell) (c : string) : cell :=
  match index_of c cols with
  | Some k => cell_at row k
  | None => None
  end.

(** The change [align_columns] applies to every cell of the frame of
    the loop, and to none of the frames of the special cases. *)
Definition post (final : bool) (v : cell) : cell :=
  if final then finalize v else v.

(** Failing inputs: a table whose second row has no key, and two tables
    of one row whose data cell is the text [nan] on the previous side. *)
Definition missing_key_table : DataFrame :=
  mkDataFrame ["Segmentname"; "Bedingung"]
              [[Some "UNH"; Some "Muss"]; [None; Some "Kann"]].

Definition nan_text_previous : DataFrame :=
  mkDataFrame ["Segmentname"; "Beschreibung"] [[Some "UNH"; Some "nan"]].

Definition nan_text_subsequent : DataFrame :=
  mkDataFrame ["Segmentname"; "Beschreibung"] [[Some "UNH"; Some "Kopfsegment"]].

Definition no_rows : DataFrame :=
  mkDataFrame ["Segmentname"; "Beschreibung"] [].

(** Two tables of one row with the same key and any data cells. *)
Definition one_row (key : string) (data : cell) : DataFrame :=
  mkDataFrame ["Segmentname"; "Bedingung"] [[Some key; data]].

(** Small tables for the witnesses. *)
Definition example_previous : DataFrame :=
  mkDataFrame ["Segmentname"; "Bedingung"]
              [[Some "UNH"; Some "Muss"]; [Some "BGM"; None]; [Some "UNT"; Some "Muss"]].

Definition example_subsequent : DataFrame :=
  mkDataFrame ["Code"; "Segmentname"]
              [[Some "1"; Some "UNH"]; [Some "2"; Some "DTM"]; [Some "3"; Some "UNT"]].

(** Distinct literal names, and well-formedness of a literal table. *)
Ltac nodup_strings :=
  repeat (constructor; [simpl; intuition discriminate|]); constructor.

Ltac well_formed_table :=
  unfold well_formed; simpl; repeat split;
  [nodup_strings | intuition auto | intuition discriminate].


(* ================================================================== *)
(** ** Further notions: version discovery *)

(** A directory that is a message format with a [csv] directory, in the
    entries of a version directory. *)
Definition has_csv_dir (entries : list (string * node)) (d : string) : Prop :=
  exists sub csv, lookup entries d = Some (Dir sub) /\ lookup sub "csv" = Some (Dir csv).

(** A tree with a version directory whose name has no number. *)
Definition unparsable_tree : option node :=
  Some (Dir [("FV2404", example_version); ("FVabcd", example_version)]).

(* ================================================================== *)
(** ** Further notions: the merged table *)

Definition cell_eqb (a b : cell) : bool :=
  match a, b with
  | Some x, Some y => String.eqb x y
  | None, None => true
  | _, _ => false
  end.

(** The number of rows of a table with a given tag in the [diff]
    column. *)
Definition count_diff (df : DataFrame) (tag : string) : nat :=
  List.length
    (filter (fun row => cell_eqb (row_get (columns df) row "diff") (Some tag)) (values df)).

(** The number of decisions with a given tag. *)
Definition count_tag (ds : list decision) (tag : string) : nat :=
  List.length (filter (fun d : decision => String.eqb (snd d) tag) ds).

(** The decisions that pair row [i] with row [i], for the rows from [k]
    on. *)
Definition unchanged_run (k len : nat) : list decision :=
  map (fun i => unchanged_decision i i) (seq k len).

(** A table without key column. *)
Definition no_key_table : DataFrame :=
  mkDataFrame ["Segment"; "Bedingung"] [[Some "UNH"; Some "Muss"]].

(* ================================================================== *)
(** ** Further notions: the files to compare *)

(** [str.endswith] *)
Definition endswith (s suffix : string) : bool :=
  (String.length suffix <=? String.length s)%nat
  && String.eqb (substring (String.length s - String.length suffix)
                           (String.length suffix) s) suffix.

(** [str.rfind] of one character; [None] is [-1]. *)
Fixpoint rfind (c : ascii) (s : string) : option nat :=
  match s with
  | EmptyString => None
  | String a s' =>
      match rfind c s' with
      | Some k => Some (S k)
      | None => if Ascii.eqb a c then Some 0 else None
      end
  end.

(** [PurePath.stem]: the name without its last suffix. *)
Definition stem (name : string) : string :=
  match rfind "." name with
  | Some i =>
      if (0 <? i)%nat && (i <? String.length name - 1)%nat
      then substring 0 i name else name
  | None => name
  end.

(** [sorted] on names: ascending by code point, stable. *)
Fixpoint insert_asc (x : string) (l : list string) : list string :=
  match l with
  | [] => [x]
  | y :: l' => if String.ltb y x then y :: insert_asc x l' else x :: l
  end.

Definition sorted (l : list string) : list string := fold_right insert_asc [] l.

(** [csv_dir.glob("*.csv")]: the entries whose name ends in [.csv],
    hidden ones and directories among them; none where the path is no
    directory. *)
Definition glob_csv (p : option node) : list string :=
  match p with
  | Some (Dir entries) => filter (fun name => endswith name ".csv") (map fst entries)
  | _ => []
  end.

(** The files are given by their names in [csv_dir]; paths of one
    directory compare as their names do. *)
Definition get_ahb_files (csv_dir : option node) : list string :=
  if negb (path_exists csv_dir) then [] else sorted (glob_csv csv_dir).

(** A dict from names to paths, in insertion order. *)
Definition names : Type := list (string * string).

Fixpoint names_set (k v : string) (d : names) : names :=
  match d with
  | [] => [(k, v)]
  | (k', v') :: d' =>
      if String.eqb k' k then (k', v) :: d' else (k', v') :: names_set k v d'
  end.

(** [{key(x): x for x in l}] *)
Definition by_key (key : string -> string) (l : list string) : names :=
  fold_left (fun d x => names_set (key x) x d) l [].

Definition keys (d : names) : list string := map fst d.

(** [d[k]] *)
Definition getitem (d : names) (k : string) : outcome string :=
  match find (fun e => String.eqb (fst e) k) d with
  | Some e => Return (snd e)
  | None => Raise (KeyError k)
  end.

(** [sorted(set(a) & set(b))] *)
Definition sorted_common (a b : list string) : list string :=
  sorted (dedup (filter (fun k => existsb (String.eqb k) b) a)).

(** A path below [SUBMODULE], by its parts. *)
Definition path : Type := list string.

(** One turn of the loop over the common message formats: the matches
    of one message format. *)
Definition matching_step (previous_formatversion subsequent_formatversion : string)
  (previous_formatversion_dir subsequent_formatversion_dir : option node)
  (previous_nachrichtenformat_names subsequent_nachrichtenformat_names : names)
  (nachrichtentyp : string) : outcome (list (path * path * string * string)) :=
  previous_dir <- getitem previous_nachrichtenformat_names nachrichtentyp ;;
  subsequent_dir <- getitem subsequent_nachrichtenformat_names nachrichtentyp ;;
  let previous_csv_dir := child (child previous_formatversion_dir previous_dir) "csv" in
  let subsequent_csv_dir := child (child subsequent_formatversion_dir subsequent_dir) "csv" in
  let previous_files := by_key stem (get_ahb_files previous_csv_dir) in
  let subsequent_files := by_key stem (get_ahb_files subsequent_csv_dir) in
  let common_ahbs := sorted_common (keys previous_files) (keys subsequent_files) in
  mapM (fun pruefid =>
          previous_file <- getitem previous_files pruefid ;;
          subsequent_file <- getitem subsequent_files pruefid ;;
          Return ([previous_formatversion; previous_dir; "csv"; previous_file],
                  [subsequent_formatversion; subsequent_dir; "csv"; subsequent_file],
                  nachrichtentyp, pruefid))
       common_ahbs.

(** The directories of the message formats are given by their names in
    the version directory, the files by their names in the [csv]
    directory; the paths returned are spelled out from [SUBMODULE]
    down. *)
Definition get_matching_files (SUBMODULE : option node)
  (previous_formatversion subsequent_formatversion : string)
  : outcome (list (path * path * string * string)) :=
  let previous_formatversion_dir := child SUBMODULE previous_formatversion in
  let subsequent_formatversion_dir := child SUBMODULE subsequent_formatversion in
  if negb (forallb path_exists [previous_formatversion_dir; subsequent_formatversion_dir])
  then Return []
  else
    previous_nachrichtenformat_dirs <- get_nachrichtenformat_dirs previous_formatversion_dir ;;
    subsequent_nachrichtenformat_dirs <- get_nachrichtenformat_dirs subsequent_formatversion_dir ;;
    let previous_nachrichtenformat_names := by_key (fun d => d) previous_nachrichtenformat_dirs in
    let subsequent_nachrichtenformat_names := by_key (fun d => d) subsequent_nachrichtenformat_dirs in
    let common_nachrichtentyp :=
      sorted_common (keys previous_nachrichtenformat_names)
                    (keys subsequent_nachrichtenformat_names) in
    matching_files <-
      mapM (matching_step previous_formatversion subsequent_formatversion
              previous_formatversion_dir subsequent_formatversion_dir
              previous_nachrichtenformat_names subsequent_nachrichtenformat_names)
           common_nachrichtentyp ;;
    Return (List.concat matching_files).

(** The greatest of the names of a list that have a given stem. *)
Definition latest_with_stem (files : list string) (pruefid file : string) : Prop :=
  In file files /\ stem file = pruefid
  /\ forall other, In other files -> stem other = pruefid -> String.leb other file = true.

(** The files [*.csv] of a message format of a version directory. *)
Definition csv_files (entries : list (string * node)) (nachrichtentyp : string) : list string :=
  glob_csv (child (lookup entries nachrichtentyp) "csv").

(** The order of the matches: by message format, then by check id. *)
Definition match_lt (a b : path * path * string * string) : Prop :=
  String.ltb (snd (fst a)) (snd (fst b)) = true
  \/ (snd (fst a) = snd (fst b) /\ String.ltb (snd a) (snd b) = true).

(** A tree with two versions to compare. *)
Definition files (l : list string) : node := Dir (map (fun f => (f, File)) l).

Definition matching_tree : option node :=
  Some (Dir [("FV2404",
              Dir [("UTILMD", Dir [("csv", files ["55002.csv"; "notes.txt"; "55001.csv"])]);
                   ("MSCONS", Dir [("csv", files ["13002.csv"])]);
                   ("ORDERS", Dir [])]);
             ("FV2410",
              Dir [("ORDERS", Dir [("csv", files ["17001.csv"])]);
                   ("MSCONS", Dir [("csv", File)]);
                   ("UTILMD", Dir [("csv", files ["55003.csv"; "55001.csv"; "55002.csv"])])])]).

(* ================================================================== *)
(** ** Further notions: the batch *)

(** What a run leaves behind, in order: the files written, and the
    errors and warnings logged.  The messages at level [info] are left
    out. *)
Inductive event : Type :=
| csv_written (csv_path : path) (merged_df : DataFrame)
| xlsx_written (xlsx_path : path) (merged_df : DataFrame)
| file_error (nachrichtentyp pruefid : string) (e : exn)
| version_error (subsequent_formatversion previous_formatversion : string) (e : exn)
| no_matching_files
| no_consecutive_formatversions.

(** A computation that appends to the events and returns, raises or
    does not end. *)
Definition io (A : Type) : Type := list event -> list event * outcome A.

Definition io_lift {A : Type} (m : outcome A) : io A := fun log => (log, m).

Definition emit (e : event) : io unit := fun log => (log ++ [e], Return tt).

Definition io_bind {A B : Type} (m : io A) (k : A -> io B) : io B :=
  fun log =>
    match m log with
    | (log', Return a) => k a log'
    | (log', Raise e) => (log', Raise e)
    | (log', OutOfFuel) => (log', OutOfFuel)
    end.

Notation "x <-- m ;; k" := (io_bind m (fun x => k))
  (at level 61, m at next level, right associativity).

(** [try: m except <caught>: handler] *)
Definition try_except (m : io unit) (caught : exn -> bool) (handler : exn -> io unit) : io unit :=
  fun log =>
    match m log with
    | (log', Raise e) => if caught e then handler e log' else (log', Raise e)
    | r => r
    end.

(** [for x in l: body] *)
Fixpoint for_each {A : Type} (body : A -> io unit) (l : list A) : io unit :=
  match l with
  | [] => io_lift (Return tt)
  | a :: l' => _ <-- body a ;; for_each body l'
  end.

(** The exceptions of the [except] clauses: [OSError], [ValueError] and
    [EmptyDataError], which is a [ValueError]. *)
Definition caught (e : exn) : bool :=
  match e with
  | ValueError | OSError => true
  | KeyError _ | IndexError => false
  end.

Section Batch.

(** Reading and writing are left open: each may return or raise, by the
    paths it is given. *)
Variable get_csv : path -> path -> outcome (DataFrame * DataFrame).
Variable mkdir : path -> outcome unit.
Variable to_csv : DataFrame -> path -> outcome unit.
Variable export_to_excel : DataFrame -> path -> outcome unit.

(** The turns the loop of [align_columns] is given. *)
Variable fuel : nat.

(** The [try] block of [process_files]. *)
Definition process_pair (previous_formatversion subsequent_formatversion : string)
  (old_file new_file : path) (nachrichtentyp pruefid : string) : io unit :=
  dfs <-- io_lift (get_csv old_file new_file) ;;
  merged_df <-- io_lift (align_columns fuel (fst dfs) (snd dfs)
                           previous_formatversion subsequent_formatversion) ;;
  let output_dir := [(subsequent_formatversion ++ "_" ++ previous_formatversion)%string;
                     nachrichtentyp] in
  _ <-- io_lift (mkdir output_dir) ;;
  let csv_path := (output_dir ++ [(pruefid ++ ".csv")%string])%list in
  let xlsx_path := (output_dir ++ [(pruefid ++ ".xlsx")%string])%list in
  _ <-- io_lift (to_csv merged_df csv_path) ;;
  _ <-- emit (csv_written csv_path merged_df) ;;
  _ <-- io_lift (export_to_excel merged_df xlsx_path) ;;
  emit (xlsx_written xlsx_path merged_df).

(** One turn of the loop of [process_files]. *)
Definition process_file (previous_formatversion subsequent_formatversion : string)
  (m : path * path * string * string) : io unit :=
  let '(old_file, new_file, nachrichtentyp, pruefid) := m in
  try_except (process_pair previous_formatversion subsequent_formatversion
                old_file new_file nachrichtentyp pruefid)
             caught
             (fun e => emit (file_error nachrichtentyp pruefid e)).

Definition process_files (SUBMODULE : option node)
  (previous_formatversion subsequent_formatversion : string) : io unit :=
  matching_files <-- io_lift (get_matching_files SUBMODULE
                                previous_formatversion subsequent_formatversion) ;;
  match matching_files with
  | [] => emit no_matching_files
  | _ => for_each (process_file previous_formatversion subsequent_formatversion)
                  matching_files
  end.

Definition process_submodule (SUBMODULE : option node) : io unit :=
  consecutive_formatversions <-- io_lift (determine_consecutive_formatversions SUBMODULE) ;;
  match consecutive_formatversions with
  | [] => emit no_consecutive_formatversions
  | _ =>
      for_each (fun pair : string * string =>
                  let '(subsequent_formatversion, previous_formatversion) := pair in
                  try_except (process_files SUBMODULE
                                previous_formatversion subsequent_formatversion)
                             caught
                             (fun e => emit (version_error subsequent_formatversion
                                               previous_formatversion e)))
               consecutive_formatversions
  end.

End Batch.

(** A result that the [except] clauses leave behind: a value, or one
    of the exceptions they catch. *)
Definition recoverable {A : Type} (r : outcome A) : Prop :=
  match r with
  | Return _ => True
  | Raise e => caught e = true
  | OutOfFuel => False
  end.

(** What one matching file leaves behind when nothing escapes: both
    files, or an error, or the first file and an error. *)
Definition file_events (previous_formatversion subsequent_formatversion : string)
  (m : path * path * string * string) (evs : list event) : Prop :=
  let '(_, _, nachrichtentyp, pruefid) := m in
  let output_dir := [(subsequent_formatversion ++ "_" ++ previous_formatversion)%string;
                     nachrichtentyp] in
  let csv_path := (output_dir ++ [(pruefid ++ ".csv")%string])%list in
  let xlsx_path := (output_dir ++ [(pruefid ++ ".xlsx")%string])%list in
  (exists merged_df,
      evs = [csv_written csv_path merged_df; xlsx_written xlsx_path merged_df])
  \/ (exists e, caught e = true /\ evs = [file_error nachrichtentyp pruefid e])
  \/ (exists merged_df e,
         caught e = true
         /\ evs = [csv_written csv_path merged_df; file_error nachrichtentyp pruefid e]).

Definition is_version_error (ev : event) : bool :=
  match ev with
  | version_error _ _ _ => true
  | _ => false
  end.

(** Reading and writing for the examples: every file holds the same
    table, every write succeeds. *)
Definition read_always (previous subsequent : DataFrame)
  : path -> path -> outcome (DataFrame * DataFrame) :=
  fun _ _ => Return (previous, subsequent).

Definition write_path : path -> outcome unit := fun _ => Return tt.

Definition write_table : DataFrame -> path -> outcome unit := fun _ _ => Return tt.

(* ================================================================== *)
(** ** Further notions: the sheet *)

(** [str.split(sep)] for a separator that is not empty: the pieces
    between the occurrences of [sep], found from the left and not
    overlapping.  [skip] counts the characters of an occurrence still to
    pass, [cur] is the piece read so far. *)
Fixpoint split_go (sep s : string) (skip : nat) (cur : string) : list string :=
  match s with
  | EmptyString => [cur]
  | String c s' =>
      match skip with
      | S k => split_go sep s' k cur
      | O =>
          if String.prefix sep s
          then cur :: split_go sep s' (String.length sep - 1) EmptyString
          else split_go sep s' 0 (cur ++ String c EmptyString)
      end
  end.

Definition split (s sep : string) : list string := split_go sep s 0 "".

(** The names the comprehension of line 359 of [export_to_excel]
    keeps. *)
Definition kept_names (cols : list string) : list string :=
  filter (fun col => negb (startswith col "Unnamed:")) cols.

(** [df[names]] on the labels of a frame: for each name asked for, in
    order, every column that bears it.  A name that several columns
    bear gives all of them each time it is asked for. *)
Definition getitem_columns (cols names : list string) : list string :=
  flat_map (fun name => filter (fun col => String.eqb col name) cols) names.

(** The columns of the sheet: [df_filtered] of line 359. *)
Definition visible_columns (cols : list string) : list string :=
  getitem_columns cols (kept_names cols).

(** The two version tags the sheet reads off its header: the loop of
    lines 430 to 439 of [export_to_excel], from the columns still to
    visit and the first tag if one is found. *)
Fixpoint formatversions_of (cols : list string) (previous_formatversion : option string)
  : outcome (option string * option string) :=
  match cols with
  | [] => Return (previous_formatversion, None)
  | col :: cols' =>
      if startswith col "Segmentname_" then
        match nth_error (split col "Segmentname_") 1 with
        | None => Raise IndexError
        | Some suffix =>
            match previous_formatversion with
            | None => formatversions_of cols' (Some suffix)
            | Some _ => Return (previous_formatversion, Some suffix)
            end
        end
      else formatversions_of cols' previous_formatversion
  end.




(** [c in s] for a character. *)
Fixpoint has_char (c : ascii) (s : string) : bool :=
  match s with
  | EmptyString => false
  | String a s' => Ascii.eqb a c || has_char c s'
  end.

(** A table with a column without header, which [read_csv] names
    [Unnamed: 0]. *)
Definition unnamed_previous : DataFrame :=
  mkDataFrame ["Unnamed: 0"; "Segmentname"; "Bedingung"]
              [[Some "0"; Some "UNH"; Some "Muss"]].

(* ================================================================== *)
(** ** Further notions: rows that are removed *)

(** The key of the previous row [i] is the key of none of the
    subsequent rows that the decisions [rest] cover. *)
Definition key_gone (segments_old segments_new : list cell) (i : nat)
  (rest : list decision) : Prop :=
  forall j, In j (subsequent_rows rest) -> nth_error segments_new j <> nth_error segments_old i.

(** Every row that is removed has a key that is gone from there on. *)
Definition removed_sound (segments_old segments_new : list cell) (ds : list decision) : Prop :=
  forall before i after,
    ds = before ++ removed_decision i :: after ->
    key_gone segments_old segments_new i after.

(** What a pair of versions leaves behind when nothing escapes: a
    warning when no file matches, or what each matching file leaves
    behind, in the order of the matching files. *)
Definition version_events (SUBMODULE : option node) (pair : string * string)
  (evs : list event) : Prop :=
  let '(subsequent_formatversion, previous_formatversion) := pair in
  exists matching_files,
    get_matching_files SUBMODULE previous_formatversion subsequent_formatversion
    = Return matching_files
    /\ ((matching_files = [] /\ evs = [no_matching_files])
        \/ (matching_files <> []
            /\ exists evss,
                evs = List.concat evss
                /\ Forall2 (file_events previous_formatversion subsequent_formatversion)
                     matching_files evss)).

(* ================================================================== *)
(** * Properties *)

(** ** Version tags *)

Lemma all_ascii_complete (c : ascii) : In c all_ascii.
Proof.
  rewrite <- (ascii_nat_embedding c).
  apply in_map, in_seq.
  pose proof (nat_ascii_bounded c). lia.
Qed.

Lemma option_Z_eqb_eq (a b : option Z) : option_Z_eqb a b = true -> a = b.
Proof.
  destruct a, b; simpl; try discriminate; auto.
  intros H. apply Z.eqb_eq in H. now subst.
Qed.

Lemma int_literal2_table :
  forallb (fun c1 =>
             forallb (fun c2 =>
                        option_Z_eqb (int_literal (String c1 (String c2 EmptyString)))
                                     (int_literal2 c1 c2))
                     all_ascii)
          all_ascii = true.
Proof. vm_compute. reflexivity. Qed.

(** On two characters [int] is [int_literal2]. *)
Lemma int_literal2_correct (c1 c2 : ascii) :
  int_literal (String c1 (String c2 EmptyString)) = int_literal2 c1 c2.
Proof.
  pose proof int_literal2_table as H.
  rewrite forallb_forall in H.
  specialize (H c1 (all_ascii_complete c1)).
  rewrite forallb_forall in H.
  apply option_Z_eqb_eq, H, all_ascii_complete.
Qed.

Lemma length6_inv (s : string) :
  String.length s = 6 ->
  exists c0 c1 c2 c3 c4 c5,
    s = String c0 (String c1 (String c2 (String c3 (String c4 (String c5 EmptyString))))).
Proof.
  intros H.
  do 6 (destruct s as [|? s]; [discriminate H|]).
  destruct s; [|discriminate H].
  repeat eexists.
Qed.

Lemma startswith_FV (c0 c1 : ascii) (s : string) :
  startswith (String c0 (String c1 s)) "FV" = true <-> c0 = "F"%char /\ c1 = "V"%char.
Proof.
  unfold startswith. cbn [prefix].
  destruct (ascii_dec "F" c0) as [<-|n0].
  - destruct (ascii_dec "V" c1) as [<-|n1].
    + destruct s; tauto.
    + split; [discriminate|]. intros [_ ->]. now elim n1.
  - split; [discriminate|]. intros [-> _]. now elim n0.
Qed.

(** [parse_formatversions] on a string of six characters. *)
Lemma parse_formatversions_six (c0 c1 c2 c3 c4 c5 : ascii) :
  parse_formatversions
    (String c0 (String c1 (String c2 (String c3 (String c4 (String c5 EmptyString)))))) =
  if Ascii.eqb c0 "F" && Ascii.eqb c1 "V" then
    match int_literal2 c2 c3, int_literal2 c4 c5 with
    | Some a, Some b =>
        if ((1 <=? b) && (b <=? 12))%Z then Return (2000 + a, b)%Z else Raise ValueError
    | _, _ => Raise ValueError
    end
  else Raise ValueError.
Proof.
  unfold parse_formatversions.
  destruct (startswith _ "FV") eqn:E.
  - apply startswith_FV in E. destruct E as [-> ->].
    cbn [negb orb String.length Nat.eqb andb Ascii.eqb].
    replace (Ascii.eqb "F" "F") with true by reflexivity.
    replace (Ascii.eqb "V" "V") with true by reflexivity.
    cbn [andb].
    unfold slice, int. cbn [Nat.sub substring].
    rewrite !int_literal2_correct.
    destruct (int_literal2 c2 c3) as [a|]; cbn [bind]; [|reflexivity].
    destruct (int_literal2 c4 c5) as [b|]; cbn [bind]; [|reflexivity].
    destruct ((1 <=? b)%Z && (b <=? 12)%Z); reflexivity.
  - cbn [negb orb].
    destruct (Ascii.eqb c0 "F" && Ascii.eqb c1 "V") eqn:E'; [|reflexivity].
    apply andb_true_iff in E'. destruct E' as [E0 E1].
    apply Ascii.eqb_eq in E0, E1. subst.
    assert (startswith
              (String "F" (String "V" (String c2 (String c3 (String c4 (String c5 EmptyString))))))
              "FV" = true) as F by (apply startswith_FV; auto).
    congruence.
Qed.

Lemma parse_formatversions_length (s : string) (k : Z * Z) :
  parse_formatversions s = Return k -> String.length s = 6.
Proof.
  unfold parse_formatversions.
  destruct (String.length s =? 6)%nat eqn:E.
  - intros _. now apply Nat.eqb_eq.
  - rewrite orb_true_r. discriminate.
Qed.

(** C8, at failing inputs: [FV25+5] and [FV-505] are not [FV] followed
    by four digits, and [parse_formatversions] raises no error for
    them: [int] takes the sign with the digit, so the first is parsed
    as May 2025 and the second as May 1995.  On [FV2504], which is [FV]
    followed by four digits, it returns April 2025, and on [FV2513] it
    raises [ValueError]. *)
Theorem C8_signed_tags_are_parsed :
  spec_four_digit_tag "FV25+5" = false
  /\ parse_formatversions "FV25+5" = Return (2025, 5)%Z
  /\ spec_four_digit_tag "FV-505" = false
  /\ parse_formatversions "FV-505" = Return (1995, 5)%Z
  /\ spec_four_digit_tag "FV2504" = true
  /\ parse_formatversions "FV2504" = Return (2025, 4)%Z
  /\ spec_four_digit_tag "FV2513" = true
  /\ parse_formatversions "FV2513" = Raise ValueError.
Proof. repeat split; vm_compute; reflexivity. Qed.

(* ================================================================== *)
(** ** Version discovery and pairing *)

(** *** The stable descending sort *)

Lemma insert_desc_perm {A : Type} (x : (Z * Z) * A) (l : list ((Z * Z) * A)) :
  Permutation (insert_desc x l) (x :: l).
Proof.
  induction l as [|y l IH]; simpl.
  - apply Permutation_refl.
  - destruct (key_lt (fst x) (fst y)).
    + eapply perm_trans; [apply perm_skip, IH|apply perm_swap].
    + apply Permutation_refl.
Qed.

Lemma sort_desc_perm {A : Type} (l : list ((Z * Z) * A)) :
  Permutation (sort_desc l) l.
Proof.
  induction l as [|x l IH]; simpl.
  - apply perm_nil.
  - eapply perm_trans; [apply insert_desc_perm|]. now apply perm_skip.
Qed.

Lemma key_lt_asym (a b : Z * Z) : key_lt a b = true -> key_lt b a = false.
Proof.
  unfold key_lt. destruct a as [a1 a2], b as [b1 b2]. simpl.
  intros H. apply orb_true_iff in H.
  apply orb_false_iff.
  rewrite andb_false_iff, !Z.ltb_ge, Z.eqb_neq.
  rewrite andb_true_iff, !Z.ltb_lt, Z.eqb_eq in H. lia.
Qed.

Lemma insert_desc_HdRel {A : Type} (y x : (Z * Z) * A) (l : list ((Z * Z) * A)) :
  pair_ge y x -> HdRel pair_ge y l -> HdRel pair_ge y (insert_desc x l).
Proof.
  intros Hyx Hl. destruct l as [|z l]; simpl.
  - now constructor.
  - destruct (key_lt (fst x) (fst z)).
    + inv Hl. now constructor.
    + now constructor.
Qed.

Lemma insert_desc_sorted {A : Type} (x : (Z * Z) * A) (l : list ((Z * Z) * A)) :
  Sorted pair_ge l -> Sorted pair_ge (insert_desc x l).
Proof.
  induction l as [|y l IH]; intros S; simpl.
  - repeat constructor.
  - inv S. destruct (key_lt (fst x) (fst y)) eqn:E.
    + constructor; [now apply IH|].
      apply insert_desc_HdRel; [|assumption].
      now apply key_lt_asym.
    + constructor; [now constructor|]. now constructor.
Qed.

Lemma sort_desc_sorted {A : Type} (l : list ((Z * Z) * A)) :
  Sorted pair_ge (sort_desc l).
Proof.
  induction l as [|x l IH]; simpl.
  - constructor.
  - now apply insert_desc_sorted.
Qed.

Lemma Sorted_map_snd (l : list ((Z * Z) * string)) :
  Forall (fun p => fst p = version_key (snd p)) l ->
  Sorted pair_ge l -> Sorted key_ge (map snd l).
Proof.
  induction l as [|x l IH]; intros F S; simpl.
  - constructor.
  - inv F. inv S. constructor; [now apply IH|].
    destruct l as [|y l]; simpl; constructor.
    match goal with H : HdRel _ _ _ |- _ => inv H end.
    match goal with H : Forall _ (y :: l) |- _ => inv H end.
    unfold key_ge, pair_ge in *. congruence.
Qed.

Lemma combine_keys (l : list string) (keys : list (Z * Z)) :
  mapM parse_formatversions l = Return keys ->
  Forall (fun p => fst p = version_key (snd p)) (combine keys l)
  /\ map snd (combine keys l) = l.
Proof.
  revert keys. induction l as [|a l IH]; intros keys H; simpl in H.
  - inv H. simpl. split; [constructor|reflexivity].
  - destruct (parse_formatversions a) eqn:E; try discriminate. simpl in H.
    destruct (mapM parse_formatversions l) eqn:E'; try discriminate. simpl in H.
    inv H. simpl. destruct (IH _ eq_refl) as [F M]. split.
    + constructor; [|assumption]. simpl. unfold version_key. now rewrite E.
    + now f_equal.
Qed.

(** What [sort_by_key_reverse] returns is the list rearranged, in
    descending order of the keys. *)
Lemma sort_by_key_reverse_spec (l r : list string) :
  sort_by_key_reverse parse_formatversions l = Return r ->
  Permutation r l /\ Sorted key_ge r.
Proof.
  unfold sort_by_key_reverse.
  destruct (mapM parse_formatversions l) as [keys| |] eqn:E; try discriminate.
  simpl. intros H. inv H.
  destruct (combine_keys _ _ E) as [F M]. split.
  - rewrite <- M at 2. apply Permutation_map, sort_desc_perm.
  - apply Sorted_map_snd; [|apply sort_desc_sorted].
    rewrite Forall_forall in *. intros p Hp. apply F.
    eapply Permutation_in; [apply sort_desc_perm|exact Hp].
Qed.

(** *** Listing *)

Lemma get_available_formatversions_spec (SUBMODULE : option node) (l : list string) :
  get_available_formatversions SUBMODULE = Return l ->
  Permutation l (listed_names SUBMODULE) /\ Sorted key_ge l.
Proof.
  unfold get_available_formatversions, listed_names.
  destruct SUBMODULE as [[|entries]|]; simpl; try discriminate.
  - apply sort_by_key_reverse_spec.
  - intros H. inv H. split; constructor.
Qed.

Lemma listed_names_is_dir (SUBMODULE : option node) (name : string) :
  In name (listed_names SUBMODULE) -> is_dir (child SUBMODULE name) = true.
Proof.
  unfold listed_names.
  destruct SUBMODULE as [[|entries]|]; simpl; try tauto.
  intros H. apply filter_In in H. destruct H as [_ H].
  apply andb_true_iff in H. destruct H as [H _].
  apply andb_true_iff in H. now destruct H as [H _].
Qed.

(** *** Emptiness *)

Lemma count_dirs_existsb (entries : list (string * node)) (f : string -> bool)
  (g : string * node -> bool) :
  (forall e, f (fst e) = g e) ->
  (List.length (filter f (map fst entries)) =? 0)%nat = negb (existsb g entries).
Proof.
  intros E. induction entries as [|e entries IH]; simpl; [reflexivity|].
  rewrite <- E. destruct (f (fst e)); simpl; [reflexivity|exact IH].
Qed.

Lemma is_formatversion_empty_spec (SUBMODULE : option node) (name : string) :
  is_dir (child SUBMODULE name) = true ->
  is_formatversion_empty SUBMODULE name = Return (negb (version_nonempty SUBMODULE name)).
Proof.
  unfold is_formatversion_empty, version_nonempty, get_nachrichtenformat_dirs.
  destruct (child SUBMODULE name) as [[|entries]|]; simpl; try discriminate.
  intros _. f_equal.
  apply count_dirs_existsb. intros e.
  destruct (lookup entries (fst e)) as [[|sub]|]; simpl; try reflexivity.
  destruct (lookup sub "csv") as [[|csv]|]; reflexivity.
Qed.

(** *** Pairing *)

Lemma consecutive_step_spec (SUBMODULE : option node) (pre rest : list string)
  (x y : string) (acc : list (string * string)) :
  is_dir (child SUBMODULE x) = true ->
  is_dir (child SUBMODULE y) = true ->
  consecutive_step SUBMODULE (pre ++ x :: y :: rest) acc (List.length pre)
  = Return (acc ++ filter (both_nonempty SUBMODULE) [(x, y)]).
Proof.
  intros Dx Dy. unfold consecutive_step.
  rewrite nth_error_app2 by lia. rewrite Nat.sub_diag. simpl.
  rewrite nth_error_app2 by lia.
  replace (List.length pre + 1 - List.length pre) with 1 by lia. simpl.
  rewrite (is_formatversion_empty_spec _ _ Dx). simpl.
  unfold both_nonempty. simpl.
  destruct (version_nonempty SUBMODULE x); simpl.
  - rewrite (is_formatversion_empty_spec _ _ Dy). simpl.
    destruct (version_nonempty SUBMODULE y); simpl; [reflexivity|].
    now rewrite app_nil_r.
  - now rewrite app_nil_r.
Qed.

Lemma foldM_consecutive (SUBMODULE : option node) (rest pre : list string)
  (acc : list (string * string)) :
  (forall name, In name rest -> is_dir (child SUBMODULE name) = true) ->
  foldM (consecutive_step SUBMODULE (pre ++ rest))
        (seq (List.length pre) (List.length rest - 1)) acc
  = Return (acc ++ filter (both_nonempty SUBMODULE) (adjacent_pairs rest)).
Proof.
  revert pre acc. induction rest as [|x rest IH]; intros pre acc D.
  - simpl. now rewrite app_nil_r.
  - destruct rest as [|y rest].
    + simpl. now rewrite app_nil_r.
    + replace (List.length (x :: y :: rest) - 1) with (S (List.length (y :: rest) - 1))
        by (simpl; lia).
      cbn [seq foldM].
      rewrite consecutive_step_spec by (apply D; simpl; auto).
      cbn [bind].
      replace (pre ++ x :: y :: rest) with ((pre ++ [x]) ++ y :: rest)
        by (now rewrite <- app_assoc).
      replace (S (List.length pre)) with (List.length (pre ++ [x]))
        by (rewrite length_app; simpl; lia).
      rewrite IH by (intros name Hn; apply D; now right).
      f_equal. rewrite <- app_assoc. f_equal.
      change (adjacent_pairs (x :: y :: rest)) with ((x, y) :: adjacent_pairs (y :: rest)).
      change ((x, y) :: adjacent_pairs (y :: rest))
        with ([(x, y)] ++ adjacent_pairs (y :: rest)).
      now rewrite filter_app.
Qed.

(** C7, as the claim has it, fails: with an empty version between two
    non-empty ones the code pairs nothing, where the neighbours among the
    non-empty directories are one pair. *)
Lemma C7_empty_version_in_the_middle :
  get_available_formatversions example_tree = Return ["FV2504"; "FV2410"; "FV2404"]
  /\ determine_consecutive_formatversions example_tree = Return []
  /\ spec_pairs_of_nonempty example_tree ["FV2504"; "FV2410"; "FV2404"]
     = [("FV2504", "FV2404")].
Proof. repeat split; vm_compute; reflexivity. Qed.

(** C7 (amended): the available version directories are listed in
    descending order of their parsed year and month, and two of them are
    paired exactly when they are neighbours in that listing of all of
    them, empty or not, and both are non-empty: the pairs produced are
    the adjacent pairs of the listing whose two members are non-empty, in
    the order of the listing.  When none of the listed directories is
    empty these are the pairs of the specification. *)
Theorem C7_pairs_are_nonempty_neighbours (SUBMODULE : option node)
  (formatversion_list : list string) :
  get_available_formatversions SUBMODULE = Return formatversion_list ->
  determine_consecutive_formatversions SUBMODULE
  = Return (filter (both_nonempty SUBMODULE) (adjacent_pairs formatversion_list))
  /\ Sorted key_ge formatversion_list
  /\ Permutation formatversion_list (listed_names SUBMODULE)
  /\ (forallb (version_nonempty SUBMODULE) formatversion_list = true ->
      determine_consecutive_formatversions SUBMODULE
      = Return (spec_pairs_of_nonempty SUBMODULE formatversion_list)).
Proof.
  intros H.
  destruct (get_available_formatversions_spec _ _ H) as [P S].
  assert (determine_consecutive_formatversions SUBMODULE
          = Return (filter (both_nonempty SUBMODULE) (adjacent_pairs formatversion_list))) as D.
  { unfold determine_consecutive_formatversions. rewrite H. cbn [bind].
    apply (foldM_consecutive SUBMODULE formatversion_list [] []).
    intros name Hn. apply listed_names_is_dir.
    eapply Permutation_in; eauto. }
  repeat split; auto.
  intros F. rewrite D. f_equal. unfold spec_pairs_of_nonempty.
  rewrite forallb_forall in F.
  replace (filter (version_nonempty SUBMODULE) formatversion_list) with formatversion_list.
  - clear - F. induction formatversion_list as [|x l IH]; [reflexivity|].
    destruct l as [|y l]; [reflexivity|].
    change (adjacent_pairs (x :: y :: l)) with ((x, y) :: adjacent_pairs (y :: l)).
    cbn [filter]. unfold both_nonempty at 1. cbn [fst snd].
    rewrite !F by (simpl; auto). cbn [andb]. f_equal.
    apply IH. intros z Hz. apply F. now right.
  - clear - F. induction formatversion_list as [|x l IH]; [reflexivity|].
    simpl. rewrite F by (simpl; auto). f_equal.
    apply IH. intros z Hz. apply F. now right.
Qed.

Lemma C7_pairs_are_nonempty_neighbours_witness :
  determine_consecutive_formatversions example_tree
  = Return (filter (both_nonempty example_tree)
              (adjacent_pairs ["FV2504"; "FV2410"; "FV2404"])).
Proof.
  apply (C7_pairs_are_nonempty_neighbours example_tree ["FV2504"; "FV2410"; "FV2404"]).
  vm_compute. reflexivity.
Defined.

(* ================================================================== *)
(** ** The alignment loop *)

Lemma is_or_eq_true (x v : cell) : is_or_eq x v = true <-> x = v.
Proof.
  destruct x as [x|], v as [v|]; simpl.
  - rewrite String.eqb_eq. split; congruence.
  - split; discriminate.
  - split; discriminate.
  - tauto.
Qed.

Lemma py_eq_true (a b : cell) :
  py_eq a b = true <-> exists key, a = Some key /\ b = Some key.
Proof.
  destruct a as [a|], b as [b|]; simpl.
  - rewrite String.eqb_eq. split.
    + intros ->. eauto.
    + intros (key & Ha & Hb). congruence.
  - split; [discriminate|]. intros (key & _ & Hb). discriminate.
  - split; [discriminate|]. intros (key & Ha & _). discriminate.
  - split; [discriminate|]. intros (key & Ha & _). discriminate.
Qed.

(** [list_index] finds the first occurrence, when there is one. *)
Lemma list_index_Some (l : list cell) (v : cell) (k : nat) :
  list_index l v = Some k -> first_occurrence v l k.
Proof.
  revert k. induction l as [|x l IH]; simpl; intros k H; [discriminate|].
  destruct (is_or_eq x v) eqn:E.
  - inv H. apply is_or_eq_true in E. subst. split; [reflexivity|]. intros k' Hk. lia.
  - destruct (list_index l v) as [k0|]; [|discriminate]. inv H.
    destruct (IH _ eq_refl) as [H1 H2]. split; [exact H1|].
    intros [|k'] Hk; simpl.
    + intros C. inv C. rewrite (proj2 (is_or_eq_true v v) eq_refl) in E. discriminate.
    + apply H2. lia.
Qed.

Lemma list_index_None (l : list cell) (v : cell) :
  list_index l v = None -> forall k, nth_error l k <> Some v.
Proof.
  induction l as [|x l IH]; simpl; intros H k.
  - destruct k; discriminate.
  - destruct (is_or_eq x v) eqn:E; [discriminate|].
    destruct (list_index l v); [discriminate|].
    destruct k as [|k]; simpl.
    + intros C. inv C. rewrite (proj2 (is_or_eq_true v v) eq_refl) in E. discriminate.
    + now apply IH.
Qed.

Lemma first_occurrence_index (l : list cell) (v : cell) (k : nat) :
  first_occurrence v l k -> list_index l v = Some k.
Proof.
  intros [H1 H2]. destruct (list_index l v) as [k0|] eqn:E.
  - apply list_index_Some in E. destruct E as [E1 E2].
    destruct (Nat.lt_trichotomy k0 k) as [L|[L|L]].
    + now elim (H2 k0 L).
    + now subst.
    + now elim (E2 k L).
  - now elim (list_index_None _ _ E k).
Qed.

Lemma absent_index (l : list cell) (v : cell) :
  (forall k, nth_error l k <> Some v) -> list_index l v = None.
Proof.
  intros H. destruct (list_index l v) as [k|] eqn:E; [|reflexivity].
  apply list_index_Some in E. destruct E as [E _]. now elim (H k).
Qed.

Lemma first_occurrence_bound (l : list cell) (v : cell) (k : nat) :
  first_occurrence v l k -> k < List.length l.
Proof.
  intros [H _]. apply nth_error_Some. congruence.
Qed.

(** The inner [for] loop, when every row can be built. *)
Lemma emit_new_spec {R : Type} (emit : option nat -> option nat -> string -> outcome R)
  (f : nat -> R) (k i j : nat) (rows : list R) :
  (forall q, j <= q < j + k -> emit None (Some q) "NEW" = Return (f q)) ->
  emit_new emit k (mkState i j rows)
  = Return (mkState i (j + k) (rows ++ map f (seq j k))).
Proof.
  revert j rows. induction k as [|k IH]; intros j rows H.
  - simpl. now rewrite Nat.add_0_r, app_nil_r.
  - cbn [emit_new cur_i cur_j result_rows].
    rewrite H by lia. cbn [bind].
    rewrite Nat.add_1_r, IH by (intros q Hq; apply H; lia).
    cbn [seq map]. rewrite <- app_assoc. cbn [app].
    do 2 f_equal. lia.
Qed.

Section Fusion.

Context {R : Type}.
Variable emit : option nat -> option nat -> string -> outcome R.
Variable f : decision -> R.
Variables segments_old segments_new : list cell.

(** [emit] builds the row [f d] of every decision [d] over rows that
    exist. *)
Hypothesis emit_ok :
  forall (i j : option nat) (tag : string),
    (forall i', i = Some i' -> i' < List.length segments_old) ->
    (forall j', j = Some j' -> j' < List.length segments_new) ->
    emit i j tag = Return (f (i, j, tag)).

Lemma loop_body_fusion (st : loop_state decision) :
  loop_test segments_old segments_new st = true ->
  loop_body emit segments_old segments_new (state_map f st)
  = outcome_map (state_map f) (loop_body decide segments_old segments_new st).
Proof.
  destruct st as [i j rows]. unfold loop_test, loop_body, state_map.
  cbn [cur_i cur_j result_rows]. intros T.
  destruct (List.length segments_old <=? i)%nat eqn:Ei.
  - apply Nat.leb_le in Ei.
    assert (j < List.length segments_new) as Hj.
    { apply orb_true_iff in T. destruct T as [T|T]; apply Nat.ltb_lt in T; lia. }
    rewrite emit_ok; [|discriminate|intros j' E; now inv E].
    unfold decide. cbn [bind outcome_map cur_i cur_j result_rows].
    now rewrite map_app.
  - apply Nat.leb_gt in Ei.
    destruct (List.length segments_new <=? j)%nat eqn:Ej.
    + rewrite emit_ok; [|intros i' E; now inv E|discriminate].
      unfold decide. cbn [bind outcome_map cur_i cur_j result_rows].
      now rewrite map_app.
    + apply Nat.leb_gt in Ej.
      destruct (nth_error segments_old i) as [old_i|]; [|reflexivity].
      destruct (nth_error segments_new j) as [new_j|]; [|reflexivity].
      destruct (py_eq old_i new_j).
      * rewrite emit_ok; [|intros i' E; now inv E|intros j' E; now inv E].
        unfold decide. cbn [bind outcome_map cur_i cur_j result_rows].
        now rewrite map_app.
      * destruct (list_index (skipn j segments_new) old_i) as [k|] eqn:Ek.
        -- apply list_index_Some, first_occurrence_bound in Ek.
           rewrite length_skipn in Ek.
           rewrite (emit_new_spec emit (fun q => f (new_decision q))).
           2:{ intros q Hq. apply emit_ok; [discriminate|].
               intros j' E. inv E. lia. }
           rewrite (emit_new_spec decide new_decision) by reflexivity.
           cbn [outcome_map cur_i cur_j result_rows].
           now rewrite map_app, map_map.
        -- rewrite emit_ok; [|intros i' E; now inv E|discriminate].
           unfold decide. cbn [bind outcome_map cur_i cur_j result_rows].
           now rewrite map_app.
Qed.

(** The rows of the loop are the rows of its decisions. *)
Lemma align_loop_fusion (fuel : nat) (st : loop_state decision) :
  align_loop emit segments_old segments_new fuel (state_map f st)
  = outcome_map (map f) (align_loop decide segments_old segments_new fuel st).
Proof.
  revert st. induction fuel as [|fuel IH]; intros st; [reflexivity|].
  cbn [align_loop].
  change (loop_test segments_old segments_new (state_map f st))
    with (loop_test segments_old segments_new st).
  destruct (loop_test segments_old segments_new st) eqn:T; [|reflexivity].
  rewrite loop_body_fusion by exact T.
  destruct (loop_body decide segments_old segments_new st) as [st'| |];
    cbn [outcome_map bind]; auto.
Qed.

End Fusion.

(* ================================================================== *)
(** ** The decisions of the loop *)

Lemma previous_rows_app (a b : list decision) :
  previous_rows (a ++ b) = previous_rows a ++ previous_rows b.
Proof. apply flat_map_app. Qed.

Lemma subsequent_rows_app (a b : list decision) :
  subsequent_rows (a ++ b) = subsequent_rows a ++ subsequent_rows b.
Proof. apply flat_map_app. Qed.

Lemma previous_rows_new (l : list nat) : previous_rows (map new_decision l) = [].
Proof. induction l; simpl; auto. Qed.

Lemma subsequent_rows_new (l : list nat) : subsequent_rows (map new_decision l) = l.
Proof. induction l; simpl; congruence. Qed.

Lemma seq_split (a b c : nat) :
  a <= b -> b <= c -> seq a (c - a) = seq a (b - a) ++ seq b (c - b).
Proof.
  intros H1 H2.
  replace (c - a) with ((b - a) + (c - b)) by lia.
  rewrite seq_app. do 2 f_equal. lia.
Qed.

Section Decisions.

Variables segments_old segments_new : list cell.

Local Abbreviation n := (List.length segments_old).
Local Abbreviation m := (List.length segments_new).
Local Abbreviation body := (loop_body decide segments_old segments_new).
Local Abbreviation test := (loop_test segments_old segments_new).
Local Abbreviation loop := (align_loop decide segments_old segments_new).

(** The body always builds its rows. *)
Lemma loop_body_returns (st : loop_state decision) :
  test st = true -> exists st', body st = Return st'.
Proof.
  destruct st as [i j rows]. unfold loop_test, loop_body.
  cbn [cur_i cur_j result_rows]. intros T.
  destruct (n <=? i)%nat eqn:Ei; [cbn; eauto|].
  destruct (m <=? j)%nat eqn:Ej; [cbn; eauto|].
  apply Nat.leb_gt in Ei, Ej.
  destruct (nth_error segments_old i) as [old_i|] eqn:Eo.
  2:{ apply nth_error_None in Eo. lia. }
  destruct (nth_error segments_new j) as [new_j|] eqn:En.
  2:{ apply nth_error_None in En. lia. }
  destruct (py_eq old_i new_j); [cbn; eauto|].
  destruct (list_index (skipn j segments_new) old_i) as [k|]; [|cbn; eauto].
  rewrite (emit_new_spec decide new_decision) by reflexivity. eauto.
Qed.

(** What one turn of the loop adds: decisions for the rows the two
    cursors pass, each row once and in order. *)
Lemma loop_body_delta (st st' : loop_state decision) :
  test st = true ->
  cur_i st <= n -> cur_j st <= m ->
  body st = Return st' ->
  exists delta,
    result_rows st' = result_rows st ++ delta
    /\ cur_i st <= cur_i st' <= n
    /\ cur_j st <= cur_j st' <= m
    /\ previous_rows delta = seq (cur_i st) (cur_i st' - cur_i st)
    /\ subsequent_rows delta = seq (cur_j st) (cur_j st' - cur_j st)
    /\ Forall (well_tagged segments_old segments_new) delta.
Proof.
  destruct st as [i j rows]. unfold loop_test, loop_body.
  cbn [cur_i cur_j result_rows]. intros T Hi Hj.
  destruct (n <=? i)%nat eqn:Ei.
  - apply Nat.leb_le in Ei.
    assert (j < m) as Lj.
    { apply orb_true_iff in T. destruct T as [T|T]; apply Nat.ltb_lt in T; lia. }
    cbn. intros H. inv H. cbn [cur_i cur_j result_rows].
    exists [new_decision j]. repeat split; try lia.
    + replace (i - i) with 0 by lia. reflexivity.
    + replace (j + 1 - j) with 1 by lia. reflexivity.
    + repeat constructor. exact Lj.
  - apply Nat.leb_gt in Ei.
    destruct (m <=? j)%nat eqn:Ej.
    + cbn. intros H. inv H. cbn [cur_i cur_j result_rows].
      exists [removed_decision i]. repeat split; try lia.
      * replace (i + 1 - i) with 1 by lia. reflexivity.
      * replace (j - j) with 0 by lia. reflexivity.
      * repeat constructor. exact Ei.
    + apply Nat.leb_gt in Ej.
      destruct (nth_error segments_old i) as [old_i|] eqn:Eo; [|discriminate].
      destruct (nth_error segments_new j) as [new_j|] eqn:En; [|discriminate].
      destruct (py_eq old_i new_j) eqn:Eq.
      * cbn. intros H. inv H. cbn [cur_i cur_j result_rows].
        apply py_eq_true in Eq. destruct Eq as (key & -> & ->).
        exists [unchanged_decision i j]. repeat split; try lia.
        -- replace (i + 1 - i) with 1 by lia. reflexivity.
        -- replace (j + 1 - j) with 1 by lia. reflexivity.
        -- repeat constructor. econstructor; eassumption.
      * destruct (list_index (skipn j segments_new) old_i) as [k|] eqn:Ek.
        -- apply list_index_Some, first_occurrence_bound in Ek.
           rewrite length_skipn in Ek.
           rewrite (emit_new_spec decide new_decision) by reflexivity.
           intros H. inv H. cbn [cur_i cur_j result_rows].
           exists (map new_decision (seq j k)). repeat split; try lia.
           ++ rewrite previous_rows_new. replace (i - i) with 0 by lia. reflexivity.
           ++ rewrite subsequent_rows_new. f_equal. lia.
           ++ apply Forall_forall. intros d Hd.
              apply in_map_iff in Hd. destruct Hd as (q & <- & Hq).
              apply in_seq in Hq. constructor. lia.
        -- cbn. intros H. inv H. cbn [cur_i cur_j result_rows].
           exists [removed_decision i]. repeat split; try lia.
           ++ replace (i + 1 - i) with 1 by lia. reflexivity.
           ++ replace (j - j) with 0 by lia. reflexivity.
           ++ repeat constructor. exact Ei.
Qed.

(** Whatever the loop returns covers the rows after the cursors, each
    once. *)
Lemma align_loop_sound (fuel : nat) (st : loop_state decision) (ds : list decision) :
  cur_i st <= n -> cur_j st <= m ->
  loop fuel st = Return ds ->
  exists ds',
    ds = result_rows st ++ ds'
    /\ previous_rows ds' = seq (cur_i st) (n - cur_i st)
    /\ subsequent_rows ds' = seq (cur_j st) (m - cur_j st)
    /\ Forall (well_tagged segments_old segments_new) ds'.
Proof.
  revert st. induction fuel as [|fuel IH]; intros st Hi Hj H; [discriminate|].
  cbn [align_loop] in H.
  destruct (test st) eqn:T.
  - destruct (body st) as [st'| |] eqn:B; try discriminate. cbn [bind] in H.
    destruct (loop_body_delta _ _ T Hi Hj B) as (delta & Hr & Hi' & Hj' & Hp & Hs & Hw).
    destruct (IH st' (proj2 Hi') (proj2 Hj') H) as (ds' & -> & Hp' & Hs' & Hw').
    exists (delta ++ ds'). repeat split.
    + now rewrite Hr, app_assoc.
    + rewrite previous_rows_app, Hp, Hp'. symmetry. apply seq_split; lia.
    + rewrite subsequent_rows_app, Hs, Hs'. symmetry. apply seq_split; lia.
    + apply Forall_app. auto.
  - inv H. exists []. unfold loop_test in T.
    apply orb_false_iff in T. destruct T as [T1 T2].
    apply Nat.ltb_ge in T1, T2.
    replace (n - cur_i st) with 0 by lia.
    replace (m - cur_j st) with 0 by lia.
    repeat split; auto. now rewrite app_nil_r.
Qed.

(** With no missing key on one of the two sides, every turn moves a
    cursor. *)
Lemma loop_body_progress (st st' : loop_state decision) :
  keys_present segments_old \/ keys_present segments_new ->
  test st = true ->
  body st = Return st' ->
  cur_i st + cur_j st < cur_i st' + cur_j st'.
Proof.
  destruct st as [i j rows]. unfold loop_test, loop_body.
  cbn [cur_i cur_j result_rows]. intros P T.
  destruct (n <=? i)%nat eqn:Ei.
  { cbn. intros H. inv H. cbn. lia. }
  destruct (m <=? j)%nat eqn:Ej.
  { cbn. intros H. inv H. cbn. lia. }
  destruct (nth_error segments_old i) as [old_i|] eqn:Eo; [|discriminate].
  destruct (nth_error segments_new j) as [new_j|] eqn:En; [|discriminate].
  destruct (py_eq old_i new_j) eqn:Eq.
  { cbn. intros H. inv H. cbn. lia. }
  destruct (list_index (skipn j segments_new) old_i) as [k|] eqn:Ek.
  2:{ cbn. intros H. inv H. cbn. lia. }
  rewrite (emit_new_spec decide new_decision) by reflexivity.
  intros H. inv H. cbn [cur_i cur_j].
  destruct k as [|k]; [|lia]. exfalso.
  apply list_index_Some in Ek. destruct Ek as [Ek _].
  rewrite nth_error_skipn, Nat.add_0_r, En in Ek. inv Ek.
  destruct old_i as [key|].
  - simpl in Eq. rewrite String.eqb_refl in Eq. discriminate.
  - unfold keys_present in P. rewrite !Forall_forall in P.
    destruct P as [P|P].
    + apply (P None); [|reflexivity]. eapply nth_error_In; eassumption.
    + apply (P None); [|reflexivity]. eapply nth_error_In; eassumption.
Qed.

(** Enough fuel: one unit for every row still to cover, and one for the
    last test. *)
Lemma align_loop_terminates (fuel : nat) (st : loop_state decision) :
  keys_present segments_old \/ keys_present segments_new ->
  cur_i st <= n -> cur_j st <= m ->
  (n - cur_i st) + (m - cur_j st) < fuel ->
  exists ds, loop fuel st = Return ds.
Proof.
  intros P. revert st. induction fuel as [|fuel IH]; intros st Hi Hj F; [lia|].
  cbn [align_loop].
  destruct (test st) eqn:T; [|eauto].
  destruct (loop_body_returns _ T) as [st' B]. rewrite B. cbn [bind].
  destruct (loop_body_delta _ _ T Hi Hj B) as (delta & _ & Hi' & Hj' & _).
  pose proof (loop_body_progress _ _ P T B).
  apply IH; lia.
Qed.

End Decisions.

Lemma well_tagged_count (segments_old segments_new : list cell) (ds : list decision) :
  Forall (well_tagged segments_old segments_new) ds ->
  List.length ds <= List.length (previous_rows ds) + List.length (subsequent_rows ds).
Proof.
  induction 1 as [|d ds W _ IH]; simpl; [lia|].
  rewrite !length_app. destruct W; simpl; lia.
Qed.

(** The loop on key sequences of which one has no missing key: it
    returns within [len(previous) + len(subsequent)] turns, and its
    decisions cover every row of both sequences once, in order. *)
Lemma align_decisions_total (segments_old segments_new : list cell) (fuel : nat) :
  keys_present segments_old \/ keys_present segments_new ->
  List.length segments_old + List.length segments_new < fuel ->
  exists ds,
    align_decisions fuel segments_old segments_new = Return ds
    /\ previous_rows ds = seq 0 (List.length segments_old)
    /\ subsequent_rows ds = seq 0 (List.length segments_new)
    /\ Forall (well_tagged segments_old segments_new) ds
    /\ List.length ds <= List.length segments_old + List.length segments_new.
Proof.
  intros P F. unfold align_decisions.
  destruct (align_loop_terminates segments_old segments_new fuel (mkState 0 0 []) P)
    as [ds H]; cbn [cur_i cur_j]; try lia.
  exists ds. split; [exact H|].
  destruct (align_loop_sound segments_old segments_new fuel (mkState 0 0 []) ds
              (Nat.le_0_l _) (Nat.le_0_l _) H) as (ds' & -> & Hp & Hs & Hw).
  cbn [cur_i cur_j result_rows app] in *. rewrite Nat.sub_0_r in Hp, Hs.
  repeat split; auto.
  pose proof (well_tagged_count _ _ _ Hw) as C.
  rewrite Hp, Hs, !length_seq in C. exact C.
Qed.

(** A state the body maps to itself is never left. *)
Lemma align_loop_stalled {R : Type} (emit : option nat -> option nat -> string -> outcome R)
  (segments_old segments_new : list cell) (st : loop_state R) :
  loop_test segments_old segments_new st = true ->
  loop_body emit segments_old segments_new st = Return st ->
  forall fuel, align_loop emit segments_old segments_new fuel st = OutOfFuel.
Proof.
  intros T B fuel. induction fuel as [|fuel IH]; [reflexivity|].
  cbn [align_loop]. rewrite T, B. exact IH.
Qed.

(** The forward search.  In a state where neither cursor is exhausted
    and the test [segments_old[i] == segments_new[j]] fails, the loop
    looks for the first occurrence of the previous row's key cell in
    [subsequent[j:]].  Found at offset [k], it decides [NEW] for
    [subsequent[j]] to [subsequent[j+k-1]] and moves [j] by [k]; when
    the previous row has a key, [k] is positive and the next turn pairs
    the two rows as unchanged.  Not found, it decides [REMOVED] for the
    previous row and moves [i].  With duplicate keys the smallest offset
    is the one taken. *)
Lemma forward_search_step (segments_old segments_new : list cell) (i j : nat)
  (rows : list decision) (old_i new_j : cell) :
  nth_error segments_old i = Some old_i ->
  nth_error segments_new j = Some new_j ->
  py_eq old_i new_j = false ->
  (forall k,
      first_occurrence old_i (skipn j segments_new) k ->
      loop_body decide segments_old segments_new (mkState i j rows)
      = Return (mkState i (j + k) (rows ++ map new_decision (seq j k)))
      /\ forall key,
          old_i = Some key ->
          0 < k
          /\ forall rows',
              loop_body decide segments_old segments_new (mkState i (j + k) rows')
              = Return (mkState (i + 1) (j + k + 1)
                          (rows' ++ [unchanged_decision i (j + k)])))
  /\ ((forall k, nth_error (skipn j segments_new) k <> Some old_i) ->
      loop_body decide segments_old segments_new (mkState i j rows)
      = Return (mkState (i + 1) j (rows ++ [removed_decision i])))
  /\ ((exists k, first_occurrence old_i (skipn j segments_new) k)
      \/ (forall k, nth_error (skipn j segments_new) k <> Some old_i)).
Proof.
  intros Eo En Eq.
  assert (i < List.length segments_old) as Li by (apply nth_error_Some; congruence).
  assert (j < List.length segments_new) as Lj by (apply nth_error_Some; congruence).
  apply Nat.leb_gt in Li, Lj.
  split; [|split].
  - intros k H. split.
    + unfold loop_body. cbn [cur_i cur_j result_rows].
      rewrite Li, Lj, Eo, En, Eq, (first_occurrence_index _ _ _ H).
      now rewrite (emit_new_spec decide new_decision) by reflexivity.
    + intros key ->. destruct H as [H _]. rewrite nth_error_skipn in H. split.
      * destruct k as [|k]; [|lia]. exfalso.
        rewrite Nat.add_0_r, En in H. inv H.
        simpl in Eq. rewrite String.eqb_refl in Eq. discriminate.
      * intros rows'.
        assert (j + k < List.length segments_new) as Ljk
            by (apply nth_error_Some; congruence).
        apply Nat.leb_gt in Ljk.
        unfold loop_body. cbn [cur_i cur_j result_rows].
        rewrite Li, Ljk, Eo, H. simpl. now rewrite String.eqb_refl.
  - intros H. unfold loop_body. cbn [cur_i cur_j result_rows].
    now rewrite Li, Lj, Eo, En, Eq, (absent_index _ _ H).
  - destruct (list_index (skipn j segments_new) old_i) as [k|] eqn:E.
    + left. exists k. now apply list_index_Some.
    + right. now apply list_index_None.
Qed.

(* ================================================================== *)
(** ** Rows as dicts, frames from rows *)

Lemma dict_get_set_eq (k : string) (v : cell) (d : dict) :
  dict_get k (dict_set k v d) = Some v.
Proof.
  induction d as [|[k' v'] d IH]; simpl.
  - now rewrite String.eqb_refl.
  - destruct (String.eqb k' k) eqn:E; simpl; rewrite E; auto.
Qed.

Lemma dict_get_set_neq (k k' : string) (v : cell) (d : dict) :
  k <> k' -> dict_get k' (dict_set k v d) = dict_get k' d.
Proof.
  intros N. apply String.eqb_neq in N.
  induction d as [|[k0 v0] d IH]; simpl.
  - now rewrite N.
  - destruct (String.eqb k0 k) eqn:E; simpl.
    + apply String.eqb_eq in E. subst. now rewrite N.
    + now rewrite IH.
Qed.

Lemma write_all_app (a b : list (string * cell)) (d : dict) :
  write_all (a ++ b) d = write_all b (write_all a d).
Proof. apply fold_left_app. Qed.

(** An assignment sequence leaves the keys it does not name alone. *)
Lemma get_write_all_skip (ws : list (string * cell)) (d : dict) (k : string) :
  ~ In k (map fst ws) -> dict_get k (write_all ws d) = dict_get k d.
Proof.
  revert d. induction ws as [|[k0 v0] ws IH]; intros d N; simpl in *; [reflexivity|].
  rewrite IH by tauto. apply dict_get_set_neq. tauto.
Qed.

Lemma get_write_all_in (ws : list (string * cell)) (d : dict) (k : string) (v : cell) :
  NoDup (map fst ws) -> In (k, v) ws -> dict_get k (write_all ws d) = Some v.
Proof.
  revert d. induction ws as [|[k0 v0] ws IH]; intros d N H; simpl in *; [tauto|].
  inv N. destruct H as [H|H].
  - inv H. rewrite get_write_all_skip by assumption. apply dict_get_set_eq.
  - now apply IH.
Qed.

Lemma map_get_write_all (ws : list (string * cell)) (d : dict) :
  NoDup (map fst ws) ->
  map (fun k => dict_get k (write_all ws d)) (map fst ws)
  = map (fun kv => Some (snd kv)) ws.
Proof.
  intros N. rewrite map_map. apply map_ext_in.
  intros [k v] H. simpl. now apply get_write_all_in.
Qed.

Lemma map_get_skip (ws : list (string * cell)) (d : dict) (ks : list string) :
  (forall k, In k ks -> ~ In k (map fst ws)) ->
  map (fun k => dict_get k (write_all ws d)) ks = map (fun k => dict_get k d) ks.
Proof.
  intros H. apply map_ext_in. intros k Hk. apply get_write_all_skip. auto.
Qed.

Lemma map_get_set_skip (k0 : string) (v : cell) (d : dict) (ks : list string) :
  ~ In k0 ks ->
  map (fun k => dict_get k (dict_set k0 v d)) ks = map (fun k => dict_get k d) ks.
Proof.
  intros H. apply map_ext_in. intros k Hk. apply dict_get_set_neq.
  intros ->. auto.
Qed.

Lemma dict_get_In (k : string) (d : dict) :
  dict_get k d <> None -> In k (map fst d).
Proof.
  induction d as [|[k' v'] d IH]; simpl; [congruence|].
  destruct (String.eqb k' k) eqn:E.
  - apply String.eqb_eq in E. auto.
  - auto.
Qed.

(** *** Lists of names *)

Lemma index_of_In (c : string) (l : list string) :
  In c l -> exists k, index_of c l = Some k.
Proof.
  induction l as [|y l IH]; simpl; [tauto|].
  intros H. destruct (String.eqb y c) eqn:E; [eauto|].
  apply String.eqb_neq in E. destruct H as [H|H]; [congruence|].
  destruct (IH H) as [k ->]. eauto.
Qed.

Lemma cell_at_index_of {A : Type} (g : string -> cell) (c : string) (l : list string) (k : nat) :
  index_of c l = Some k -> cell_at (map g l) k = g c.
Proof.
  revert k. induction l as [|y l IH]; simpl; intros k H; [discriminate|].
  destruct (String.eqb y c) eqn:E.
  - inv H. apply String.eqb_eq in E. now subst.
  - destruct (index_of c l) as [k0|]; [|discriminate]. inv H.
    unfold cell_at in *. simpl. now apply IH.
Qed.

Lemma In_dedup (c : string) (l : list string) : In c (dedup l) <-> In c l.
Proof.
  induction l as [|x l IH]; simpl; [tauto|].
  rewrite filter_In, IH, negb_true_iff, String.eqb_neq.
  destruct (string_dec x c) as [->|N]; [tauto|].
  split; [tauto|]. intros [H|H]; [tauto|]. right. split; auto.
Qed.

Lemma dedup_NoDup (l : list string) : NoDup l -> dedup l = l.
Proof.
  induction 1 as [|x l N _ IH]; simpl; [reflexivity|].
  rewrite IH. f_equal.
  apply forallb_filter_id, forallb_forall.
  intros y Hy. apply negb_true_iff, String.eqb_neq. intros ->. auto.
Qed.

Lemma NoDup_app_inv {A : Type} (l1 l2 : list A) :
  NoDup (l1 ++ l2) ->
  NoDup l1 /\ NoDup l2 /\ forall x, In x l1 -> ~ In x l2.
Proof.
  induction l1 as [|a l1 IH]; simpl; intros N.
  - repeat split; [constructor|assumption|tauto].
  - inv N. destruct (IH H2) as (N1 & N2 & D).
    repeat split; auto.
    + constructor; auto. intros C. apply H1, in_or_app. auto.
    + intros x [<-|Hx] C.
      * apply H1, in_or_app. auto.
      * eapply D; eauto.
Qed.

Lemma mapM_pure {A B : Type} (f : A -> outcome B) (g : A -> B) (l : list A) :
  (forall a, In a l -> f a = Return (g a)) -> mapM f l = Return (map g l).
Proof.
  induction l as [|a l IH]; intros H; simpl; [reflexivity|].
  rewrite H by (simpl; auto). cbn [bind].
  rewrite IH by (intros; apply H; simpl; auto). reflexivity.
Qed.

(** *** Frames from rows *)

(** Selecting columns that every row has, out of a frame whose cells are
    given by name. *)
Lemma select_by_name (g : dict -> string -> cell) (rows : list dict) (U cols : list string) :
  (forall c, In c cols -> In c U) ->
  select (mkDataFrame U (map (fun row => map (g row) U) rows)) cols
  = Return (mkDataFrame cols (map (fun row => map (g row) cols) rows)).
Proof.
  intros H. unfold select. cbn [columns values].
  assert (exists ks,
             mapM (fun c => match index_of c U with
                            | Some k => Return k
                            | None => Raise (KeyError c)
                            end) cols = Return ks
             /\ Forall2 (fun c k => index_of c U = Some k) cols ks) as (ks & -> & F).
  { clear rows. induction cols as [|c cols IH]; simpl.
    - exists []. split; [reflexivity|constructor].
    - destruct (index_of_In c U) as [k E]; [apply H; simpl; auto|].
      destruct IH as (ks & E' & F); [intros; apply H; simpl; auto|].
      exists (k :: ks). rewrite E, E'. split; [reflexivity|]. now constructor. }
  cbn [bind]. do 2 f_equal. rewrite map_map. apply map_ext. intros row.
  clear H. induction F as [|c k cols ks E F IH]; simpl; [reflexivity|].
  f_equal; [|exact IH]. now apply (cell_at_index_of (A:=unit)).
Qed.

Lemma in_record_columns (rows : list dict) (row : dict) (c : string) :
  In row rows -> dict_get c row <> None ->
  In c (columns (DataFrame_of_records rows)).
Proof.
  intros Hr Hc. unfold DataFrame_of_records. cbn [columns].
  apply In_dedup, in_concat. exists (map fst row). split.
  - now apply in_map.
  - now apply dict_get_In.
Qed.

(** [pd.DataFrame(rows)[cols]] when every row has every column of
    [cols], with an optional change of every cell in between. *)
Lemma select_records (fz : cell -> cell) (rows : list dict) (cols : list string) :
  rows <> [] ->
  (forall row c, In row rows -> In c cols -> dict_get c row <> None) ->
  select (map_cells fz (DataFrame_of_records rows)) cols
  = Return (mkDataFrame cols
              (map (fun row => map (fun c => fz (get_or_nan row c)) cols) rows)).
Proof.
  intros NE H.
  pose proof (in_record_columns rows) as IC.
  unfold map_cells, DataFrame_of_records in *. cbn [columns values] in *.
  set (U := dedup _) in *.
  rewrite (map_map (fun row => map _ U) (map fz)).
  erewrite (map_ext _ (fun row => map (fun c => fz (get_or_nan row c)) U))
    by (intros row; apply map_map).
  apply (select_by_name (fun row c => fz (get_or_nan row c))).
  intros c Hc. destruct rows as [|row rows]; [congruence|].
  apply (IC row); simpl; auto.
  apply H; simpl; auto.
Qed.

Lemma map_cells_id (df : DataFrame) : map_cells (fun v => v) df = df.
Proof.
  destruct df as [cols rows]. unfold map_cells. cbn [columns values]. f_equal.
  rewrite <- (map_id rows) at 2. apply map_ext. intros row. apply map_id.
Qed.

(* ================================================================== *)
(** ** The row builder *)

Lemma fold_left_map {S A B : Type} (g : S -> B -> S) (h : A -> B) (l : list A) (s : S) :
  fold_left g (map h l) s = fold_left (fun s a => g s (h a)) l s.
Proof. revert s. induction l; simpl; auto. Qed.

Lemma fold_left_filter {S A : Type} (g : S -> A -> S) (P : A -> bool) (l : list A) (s : S) :
  fold_left (fun s a => if P a then g s a else s) l s = fold_left g (filter P l) s.
Proof.
  revert s. induction l as [|a l IH]; intros s; simpl; [reflexivity|].
  destruct (P a); simpl; apply IH.
Qed.

Lemma foldM_filter_pure {S A : Type} (P : A -> bool) (h : S -> A -> outcome S)
  (g : S -> A -> S) (l : list A) (s : S) :
  (forall s a, In a l -> P a = true -> h s a = Return (g s a)) ->
  foldM (fun s a => if P a then h s a else Return s) l s
  = Return (fold_left g (filter P l) s).
Proof.
  revert s. induction l as [|a l IH]; intros s H; simpl; [reflexivity|].
  destruct (P a) eqn:E; cbn [bind].
  - rewrite H by (simpl; auto). cbn [bind fold_left].
    apply IH. intros; apply H; simpl; auto.
  - apply IH. intros; apply H; simpl; auto.
Qed.

Section OneSide.

Variable t : DataFrame.
Variable formatversion : string.
Hypothesis wf : well_formed t formatversion.

Local Abbreviation K := (key_column formatversion).
Local Abbreviation renamed := (rename t "Segmentname" (key_column formatversion)).

Lemma rename_data_columns :
  filter (fun c => negb (String.eqb c K)) (columns renamed) = data_columns t.
Proof.
  destruct wf as (_ & _ & NK). unfold rename, data_columns. cbn [columns].
  induction (columns t) as [|c cols IH]; simpl in *; [reflexivity|].
  destruct (String.eqb c "Segmentname") eqn:E; simpl.
  - rewrite String.eqb_refl. simpl. apply IH. tauto.
  - assert (String.eqb c K = false) as E' by (apply String.eqb_neq; intros ->; tauto).
    rewrite E'. simpl. f_equal. apply IH. tauto.
Qed.

Lemma index_of_rename_key :
  index_of K (columns renamed) = index_of "Segmentname" (columns t).
Proof.
  destruct wf as (_ & _ & NK). unfold rename. cbn [columns].
  induction (columns t) as [|c cols IH]; simpl in *; [reflexivity|].
  destruct (String.eqb c "Segmentname") eqn:E.
  - now rewrite String.eqb_refl.
  - assert (String.eqb c K = false) as E' by (apply String.eqb_neq; intros ->; tauto).
    rewrite E', IH by tauto. reflexivity.
Qed.

Lemma index_of_rename_data (c : string) :
  In c (data_columns t) -> index_of c (columns renamed) = index_of c (columns t).
Proof.
  destruct wf as (_ & _ & NK). unfold data_columns. intros H.
  apply filter_In in H. destruct H as [Hc Hs].
  apply negb_true_iff, String.eqb_neq in Hs.
  assert (c <> K) as Hk by (intros ->; tauto).
  clear NK Hc. unfold rename. cbn [columns].
  induction (columns t) as [|y cols IH]; simpl; [reflexivity|].
  destruct (String.eqb y "Segmentname") eqn:E.
  - apply String.eqb_eq in E. subst y.
    assert (String.eqb K c = false) as E1 by (apply String.eqb_neq; congruence).
    assert (String.eqb "Segmentname" c = false) as E2 by (apply String.eqb_neq; congruence).
    now rewrite E1, E2, IH.
  - now rewrite IH.
Qed.

Lemma iloc_key (idx : nat) :
  idx < len t ->
  iloc renamed idx K = Return (source_cell t idx "Segmentname").
Proof.
  intros L. unfold iloc, source_cell. rewrite index_of_rename_key.
  change (values renamed) with (values t).
  destruct (nth_error (values t) idx) as [row|] eqn:E.
  2:{ apply nth_error_None in E. unfold len in L. lia. }
  destruct wf as (_ & HS & _).
  destruct (index_of_In _ _ HS) as [k ->]. reflexivity.
Qed.

Lemma iloc_data (idx : nat) (c : string) :
  idx < len t -> In c (data_columns t) ->
  iloc renamed idx c = Return (source_cell t idx c).
Proof.
  intros L H. unfold iloc, source_cell. rewrite index_of_rename_data by exact H.
  change (values renamed) with (values t).
  destruct (nth_error (values t) idx) as [row|] eqn:E.
  2:{ apply nth_error_None in E. unfold len in L. lia. }
  apply filter_In in H. destruct H as [H _].
  destruct (index_of_In _ _ H) as [k ->]. reflexivity.
Qed.

Lemma blank_columns_spec (row : dict) :
  blank_columns (Some renamed) formatversion row
  = write_all (blank_writes t formatversion) row.
Proof.
  unfold blank_columns, write_all, blank_writes.
  rewrite (fold_left_filter
             (fun row col => dict_set (suffixed col formatversion) (Some "") row)
             (fun col => negb (String.eqb col K))).
  rewrite rename_data_columns. now rewrite fold_left_map.
Qed.

Lemma populate_key_spec (row : dict) (idx : option nat) :
  (forall k, idx = Some k -> k < len t) ->
  _populate_row_values (Some renamed) row idx formatversion true
  = Return (write_all (key_writes t formatversion idx) row).
Proof.
  intros L. unfold _populate_row_values, key_writes.
  destruct idx as [k|]; [|reflexivity].
  rewrite iloc_key by auto. reflexivity.
Qed.

Lemma populate_data_spec (row : dict) (idx : option nat) :
  (forall k, idx = Some k -> k < len t) ->
  _populate_row_values (Some renamed) row idx formatversion false
  = Return (write_all (data_writes t formatversion idx) row).
Proof.
  intros L. unfold _populate_row_values, data_writes.
  destruct idx as [k|]; [|reflexivity].
  cbn [negb].
  rewrite (foldM_filter_pure
             (fun col => negb (String.eqb col K))
             (fun row col =>
                value <- iloc renamed k col ;;
                Return (dict_set (suffixed col formatversion)
                          (if isna value then Some "" else value) row))
             (fun row col =>
                dict_set (suffixed col formatversion) (blank_na (source_cell t k col)) row)).
  - rewrite rename_data_columns. unfold write_all. now rewrite fold_left_map.
  - intros s c Hc Pc. rewrite iloc_data; [reflexivity|auto|].
    rewrite <- rename_data_columns. apply filter_In. auto.
Qed.

Lemma keys_blank_writes :
  map fst (blank_writes t formatversion)
  = map (fun col => suffixed col formatversion) (data_columns t).
Proof. unfold blank_writes. now rewrite map_map. Qed.

Lemma keys_data_writes_Some (k : nat) :
  map fst (data_writes t formatversion (Some k))
  = map (fun col => suffixed col formatversion) (data_columns t).
Proof. unfold data_writes. now rewrite map_map. Qed.

Lemma keys_data_writes (idx : option nat) (c : string) :
  In c (map fst (data_writes t formatversion idx)) ->
  In c (map (fun col => suffixed col formatversion) (data_columns t)).
Proof.
  destruct idx as [k|]; [now rewrite keys_data_writes_Some|]. simpl. tauto.
Qed.

Lemma keys_key_writes (idx : option nat) (c : string) :
  In c (map fst (key_writes t formatversion idx)) -> c = K.
Proof.
  destruct idx as [k|]; simpl; [|tauto]. intros [H|[]]. now subst.
Qed.

End OneSide.

Section Merged.

Variables previous subsequent : DataFrame.
Variables pfv sfv : string.
Hypothesis wf_previous : well_formed previous pfv.
Hypothesis wf_subsequent : well_formed subsequent sfv.

Local Abbreviation df_old := (rename previous "Segmentname" (key_column pfv)).
Local Abbreviation df_new := (rename subsequent "Segmentname" (key_column sfv)).
Local Abbreviation Sp := (key_column pfv).
Local Abbreviation Sn := (key_column sfv).
Local Abbreviation Np := (map (fun col => suffixed col pfv) (data_columns previous)).
Local Abbreviation Nn := (map (fun col => suffixed col sfv) (data_columns subsequent)).

(** [create_row] on rows that exist builds [created_dict]. *)
Lemma create_row_spec (i j : option nat) :
  (forall k, i = Some k -> k < len previous) ->
  (forall k, j = Some k -> k < len subsequent) ->
  create_row (Some df_old) (Some df_new) i j pfv sfv
  = Return (created_dict previous subsequent pfv sfv i j).
Proof.
  intros Li Lj. unfold create_row.
  rewrite !blank_columns_spec by assumption.
  rewrite (populate_key_spec previous pfv wf_previous) by assumption. cbn [bind].
  rewrite (populate_key_spec subsequent sfv wf_subsequent) by assumption. cbn [bind].
  rewrite (populate_data_spec previous pfv wf_previous) by assumption. cbn [bind].
  rewrite (populate_data_spec subsequent sfv wf_subsequent) by assumption. cbn [bind].
  reflexivity.
Qed.

Lemma tagged_row_spec (i j : option nat) (tag : string) :
  (forall k, i = Some k -> k < len previous) ->
  (forall k, j = Some k -> k < len subsequent) ->
  tagged_row df_old df_new pfv sfv i j tag
  = Return (row_dict previous subsequent pfv sfv (i, j, tag)).
Proof.
  intros Li Lj. unfold tagged_row. now rewrite create_row_spec.
Qed.

Hypothesis nodup : NoDup (column_order previous subsequent pfv sfv).

(** What distinct column names say of the five parts of the layout. *)
Lemma column_order_facts :
  (~ In Sp Np /\ Sp <> "diff" /\ Sp <> Sn /\ ~ In Sp Nn)
  /\ (NoDup Np /\ ~ In "diff" Np /\ ~ In Sn Np /\ forall c, In c Np -> ~ In c Nn)
  /\ ("diff" <> Sn /\ ~ In "diff" Nn)
  /\ (~ In Sn Nn /\ NoDup Nn).
Proof.
  pose proof nodup as N. unfold column_order in N. cbn [app] in N.
  inv N. rename H1 into A1, H2 into N.
  apply NoDup_app_inv in N. destruct N as (N2 & N & D2).
  inv N. rename H1 into A3, H2 into N.
  inv N. rename H1 into A4, H2 into N4.
  repeat split; auto.
  - intros C. apply A1, in_or_app. auto.
  - intros C. apply A1, in_or_app. right. simpl. auto.
  - intros C. apply A1, in_or_app. right. simpl. auto.
  - intros C. apply A1, in_or_app. right. simpl. auto.
  - intros C. apply (D2 _ C). simpl. auto.
  - intros C. apply (D2 _ C). simpl. auto.
  - intros c C1 C2. apply (D2 _ C1). simpl. auto.
  - intros C. apply A3. simpl. auto.
  - intros C. apply A3. simpl. auto.
Qed.

Variables i j : option nat.
Variable tag : string.

Local Abbreviation created := (created_dict previous subsequent pfv sfv i j).
Local Abbreviation final := (row_dict previous subsequent pfv sfv (i, j, tag)).

Lemma final_diff : dict_get "diff" final = Some (Some tag).
Proof. unfold row_dict. apply dict_get_set_eq. Qed.

Lemma final_previous_key :
  dict_get Sp final
  = Some (match i with Some k => source_cell previous k "Segmentname" | None => Some "" end).
Proof.
  destruct column_order_facts as ((F1 & F2 & F3 & F4) & _).
  unfold row_dict, created_dict. cbn [fst snd].
  rewrite dict_get_set_neq by congruence.
  rewrite get_write_all_skip by (intros C; apply keys_data_writes in C; tauto).
  rewrite get_write_all_skip by (intros C; apply keys_data_writes in C; tauto).
  rewrite get_write_all_skip by (intros C; apply keys_key_writes in C; tauto).
  destruct i as [k|].
  - cbn [key_writes write_all fold_left fst snd]. apply dict_get_set_eq.
  - cbn [key_writes]. unfold write_all at 1. cbn [fold_left].
    rewrite get_write_all_skip by (rewrite keys_blank_writes; tauto).
    rewrite get_write_all_skip by (rewrite keys_blank_writes; tauto).
    cbn [write_all fold_left fst snd].
    rewrite dict_get_set_neq by congruence.
    rewrite dict_get_set_neq by congruence.
    apply dict_get_set_eq.
Qed.

Lemma final_subsequent_key :
  dict_get Sn final
  = Some (match j with Some k => source_cell subsequent k "Segmentname" | None => Some "" end).
Proof.
  destruct column_order_facts as ((F1 & F2 & F3 & F4) & (G1 & G2 & G3 & G4) & (H1 & H2) & (I1 & I2)).
  unfold row_dict, created_dict. cbn [fst snd].
  rewrite dict_get_set_neq by congruence.
  rewrite get_write_all_skip by (intros C; apply keys_data_writes in C; tauto).
  rewrite get_write_all_skip by (intros C; apply keys_data_writes in C; tauto).
  destruct j as [k|].
  - cbn [key_writes write_all fold_left fst snd]. apply dict_get_set_eq.
  - cbn [key_writes]. unfold write_all at 1. cbn [fold_left].
    rewrite get_write_all_skip by (intros C; apply keys_key_writes in C; congruence).
    rewrite get_write_all_skip by (rewrite keys_blank_writes; tauto).
    rewrite get_write_all_skip by (rewrite keys_blank_writes; tauto).
    cbn [write_all fold_left fst snd].
    apply dict_get_set_eq.
Qed.

Lemma final_previous_data :
  map (fun c => dict_get c final) Np
  = map Some (match i with
              | Some k => map (fun col => blank_na (source_cell previous k col))
                              (data_columns previous)
              | None => map (fun _ => Some "") (data_columns previous)
              end).
Proof.
  destruct column_order_facts as ((F1 & F2 & F3 & F4) & (G1 & G2 & G3 & G4) & _).
  unfold row_dict, created_dict. cbn [fst snd].
  rewrite map_get_set_skip by assumption.
  rewrite map_get_skip by (intros c Hc C; apply keys_data_writes in C; eapply G4; eauto).
  destruct i as [k|].
  - rewrite <- (keys_data_writes_Some previous pfv k) at 1.
    rewrite map_get_write_all by (rewrite keys_data_writes_Some; assumption).
    unfold data_writes. now rewrite !map_map.
  - cbn [data_writes]. unfold write_all at 1. cbn [fold_left].
    rewrite map_get_skip
      by (intros c Hc C; apply keys_key_writes in C; subst; tauto).
    cbn [key_writes]. unfold write_all at 1. cbn [fold_left].
    rewrite map_get_skip
      by (intros c Hc C; rewrite keys_blank_writes in C; eapply G4; eauto).
    rewrite <- (keys_blank_writes previous pfv) at 1.
    rewrite map_get_write_all by (rewrite keys_blank_writes; assumption).
    unfold blank_writes. now rewrite !map_map.
Qed.

Lemma final_subsequent_data :
  map (fun c => dict_get c final) Nn
  = map Some (match j with
              | Some k => map (fun col => blank_na (source_cell subsequent k col))
                              (data_columns subsequent)
              | None => map (fun _ => Some "") (data_columns subsequent)
              end).
Proof.
  destruct column_order_facts as ((F1 & F2 & F3 & F4) & (G1 & G2 & G3 & G4) & (H1 & H2) & (I1 & I2)).
  unfold row_dict, created_dict. cbn [fst snd].
  rewrite map_get_set_skip by assumption.
  destruct j as [k|].
  - rewrite <- (keys_data_writes_Some subsequent sfv k) at 1.
    rewrite map_get_write_all by (rewrite keys_data_writes_Some; assumption).
    unfold data_writes. now rewrite !map_map.
  - cbn [data_writes]. unfold write_all at 1. cbn [fold_left].
    rewrite map_get_skip
      by (intros c Hc C; apply keys_data_writes in C; eapply G4; eauto).
    cbn [key_writes]. unfold write_all at 1. cbn [fold_left].
    rewrite map_get_skip
      by (intros c Hc C; apply keys_key_writes in C; subst; tauto).
    rewrite <- (keys_blank_writes subsequent sfv) at 1.
    rewrite map_get_write_all by (rewrite keys_blank_writes; assumption).
    unfold blank_writes. now rewrite !map_map.
Qed.

(** The row of a decision, read in the column order, is the merged row:
    previous side, tag, subsequent side. *)
Lemma final_in_column_order :
  map (fun c => dict_get c final) (column_order previous subsequent pfv sfv)
  = map Some (merged_values previous subsequent (i, j, tag)).
Proof.
  unfold column_order, merged_values. cbn [fst snd].
  rewrite !map_app. cbn [map].
  rewrite final_previous_key, final_previous_data, final_diff,
    final_subsequent_key, final_subsequent_data.
  destruct i as [ki|], j as [kj|]; reflexivity.
Qed.

End Merged.

(* ================================================================== *)
(** ** [align_columns] *)

Lemma empty_rename (t : DataFrame) (old new : string) :
  empty (rename t old new) = empty t.
Proof. unfold empty, rename. cbn [columns values]. now rewrite length_map. Qed.

Lemma empty_false_len (t : DataFrame) : empty t = false -> 0 < len t.
Proof.
  unfold empty, len. intros H. apply orb_false_iff in H. destruct H as [_ H].
  apply Nat.eqb_neq in H. lia.
Qed.

Lemma map_by_index {A B : Type} (f : A -> B) (d : B) (l : list A) :
  map f l
  = map (fun idx => match nth_error l idx with Some x => f x | None => d end)
        (seq 0 (List.length l)).
Proof.
  induction l as [|a l IH]; simpl; [reflexivity|].
  f_equal. rewrite <- seq_shift, map_map. exact IH.
Qed.

Lemma length_key_cells (t : DataFrame) : List.length (key_cells t) = len t.
Proof. unfold key_cells. now rewrite length_map, length_seq. Qed.

Lemma column_tolist_key (t : DataFrame) (formatversion : string) :
  well_formed t formatversion ->
  column_tolist (rename t "Segmentname" (key_column formatversion)) (key_column formatversion)
  = Return (key_cells t).
Proof.
  intros wf. unfold column_tolist. rewrite index_of_rename_key by exact wf.
  destruct wf as (_ & HS & _).
  destruct (index_of_In _ _ HS) as [k E]. rewrite E. f_equal.
  change (values (rename t "Segmentname" (key_column formatversion))) with (values t).
  unfold key_cells, len, source_cell. rewrite E.
  apply (map_by_index (fun row => cell_at row k) None).
Qed.

Lemma map_Some_get (row : dict) (cols : list string) (vs : list cell) :
  map (fun c => dict_get c row) cols = map Some vs ->
  map (get_or_nan row) cols = vs
  /\ forall c, In c cols -> dict_get c row <> None.
Proof.
  revert vs. induction cols as [|c cols IH]; intros vs H; destruct vs as [|v vs];
    simpl in H; try discriminate.
  - split; [reflexivity|]. simpl. tauto.
  - inv H. destruct (IH _ H2) as [E N]. split.
    + simpl. unfold get_or_nan at 1. rewrite H1. now f_equal.
    + intros c' [<-|Hc]; [congruence|auto].
Qed.

Section AlignColumns.

Variables previous subsequent : DataFrame.
Variables pfv sfv : string.
Hypothesis wf_previous : well_formed previous pfv.
Hypothesis wf_subsequent : well_formed subsequent sfv.
Hypothesis nodup : NoDup (column_order previous subsequent pfv sfv).

Local Abbreviation co := (column_order previous subsequent pfv sfv).
Local Abbreviation rowd := (row_dict previous subsequent pfv sfv).
Local Abbreviation merged := (merged_values previous subsequent).

(** The frame of the rows of decisions over rows that exist. *)
Lemma frame_of_decisions (fz : cell -> cell) (ds : list decision) :
  ds <> [] ->
  select (map_cells fz (DataFrame_of_records (map rowd ds))) co
  = Return (mkDataFrame co (map (fun d => map fz (merged d)) ds)).
Proof.
  intros NE.
  assert (forall d, map (get_or_nan (rowd d)) co = merged d
                    /\ forall c, In c co -> dict_get c (rowd d) <> None) as G.
  { intros [[i j] tag]. apply map_Some_get.
    now apply final_in_column_order. }
  rewrite select_records.
  - do 2 f_equal. rewrite map_map. apply map_ext. intros d.
    rewrite <- (proj1 (G d)). now rewrite map_map.
  - destruct ds; [congruence|discriminate].
  - intros row c Hr Hc. apply in_map_iff in Hr. destruct Hr as (d & <- & _).
    now apply (proj2 (G d)).
Qed.

(** [align_columns] on well-formed tables: the layout is the column
    order, the rows are the merged rows of the decisions. *)
Lemma align_columns_spec (fuel : nat) :
  align_columns fuel previous subsequent pfv sfv =
  if empty previous && empty subsequent then Return (mkDataFrame co [])
  else if empty subsequent then
    Return (mkDataFrame co (map merged (map removed_decision (seq 0 (len previous)))))
  else if empty previous then
    Return (mkDataFrame co (map merged (map new_decision (seq 0 (len subsequent)))))
  else
    match align_decisions fuel (key_cells previous) (key_cells subsequent) with
    | Return ds => Return (mkDataFrame co (map (fun d => map finalize (merged d)) ds))
    | Raise e => Raise e
    | OutOfFuel => OutOfFuel
    end.
Proof.
  unfold align_columns. rewrite !empty_rename.
  destruct (empty previous) eqn:Ep, (empty subsequent) eqn:Es; cbn [andb].
  - now rewrite dedup_NoDup.
  - (* only the previous table is empty *)
    apply empty_false_len in Es.
    rewrite (mapM_pure _ (fun j => created_dict previous subsequent pfv sfv None (Some j))).
    2:{ intros j Hj. apply in_seq in Hj. apply create_row_spec; auto; try discriminate.
        intros k E. inv E. unfold len in *. cbn [values rename] in *. lia. }
    cbn [bind]. rewrite map_map.
    change (len (rename subsequent "Segmentname" (key_column sfv))) with (len subsequent).
    rewrite <- (map_cells_id (DataFrame_of_records _)).
    rewrite (map_ext _ (fun j => rowd (new_decision j))) by reflexivity.
    rewrite <- (map_map new_decision rowd).
    rewrite frame_of_decisions.
    + do 2 f_equal. apply map_ext. intros d. apply map_id.
    + destruct (len subsequent); [lia|discriminate].
  - (* only the subsequent table is empty *)
    apply empty_false_len in Ep.
    rewrite (mapM_pure _ (fun i => created_dict previous subsequent pfv sfv (Some i) None)).
    2:{ intros i Hi. apply in_seq in Hi. apply create_row_spec; auto; try discriminate.
        intros k E. inv E. unfold len in *. cbn [values rename] in *. lia. }
    cbn [bind]. rewrite map_map.
    change (len (rename previous "Segmentname" (key_column pfv))) with (len previous).
    rewrite <- (map_cells_id (DataFrame_of_records _)).
    rewrite (map_ext _ (fun i => rowd (removed_decision i))) by reflexivity.
    rewrite <- (map_map removed_decision rowd).
    rewrite frame_of_decisions.
    + do 2 f_equal. apply map_ext. intros d. apply map_id.
    + destruct (len previous); [lia|discriminate].
  - (* the loop *)
    apply empty_false_len in Ep, Es.
    rewrite !column_tolist_key by assumption. cbn [bind].
    change (mkState 0 0 (@nil dict)) with (state_map rowd (mkState 0 0 [])).
    rewrite (align_loop_fusion _ rowd).
    2:{ intros i j tag Hi Hj. rewrite !length_key_cells in *.
        now apply tagged_row_spec. }
    unfold align_decisions.
    destruct (align_loop decide (key_cells previous) (key_cells subsequent) fuel
                (mkState 0 0 [])) as [ds| |] eqn:E; cbn [outcome_map bind]; auto.
    apply frame_of_decisions.
    apply align_loop_sound in E; cbn [cur_i cur_j]; try lia.
    destruct E as (ds' & -> & Hp & _). cbn [cur_i result_rows app] in *.
    rewrite length_key_cells, Nat.sub_0_r in Hp.
    intros ->. destruct (len previous); [lia|discriminate].
Qed.

End AlignColumns.

(* ================================================================== *)
(** ** Reading a merged row by column name *)

Lemma index_of_nth (l : list string) (c : string) (k : nat) :
  NoDup l -> nth_error l k = Some c -> index_of c l = Some k.
Proof.
  revert k. induction l as [|y l IH]; intros k N H.
  - destruct k; discriminate.
  - inv N. destruct k as [|k]; simpl in *.
    + inv H. now rewrite String.eqb_refl.
    + assert (String.eqb y c = false) as E.
      { apply String.eqb_neq. intros ->. apply H2. eapply nth_error_In; eauto. }
      rewrite E, (IH k) by assumption. reflexivity.
Qed.

Lemma row_get_nth (cols : list string) (row : list cell) (c : string) (k : nat) :
  NoDup cols -> nth_error cols k = Some c -> row_get cols row c = cell_at row k.
Proof.
  intros N H. unfold row_get. now rewrite (index_of_nth _ _ _ N H).
Qed.

(** A row in three parts under labels in three parts. *)
Lemma row_get_parts (A B : list string) (x : string) (va vb : list cell) (t : cell) :
  NoDup (A ++ [x] ++ B) ->
  List.length va = List.length A ->
  (forall k c, nth_error A k = Some c ->
               row_get (A ++ [x] ++ B) (va ++ [t] ++ vb) c = cell_at va k)
  /\ row_get (A ++ [x] ++ B) (va ++ [t] ++ vb) x = t
  /\ (forall k c, nth_error B k = Some c ->
                  row_get (A ++ [x] ++ B) (va ++ [t] ++ vb) c = cell_at vb k).
Proof.
  intros N L. repeat split.
  - intros k c H.
    assert (k < List.length A) as Lk by (apply nth_error_Some; congruence).
    rewrite (row_get_nth _ _ c k N) by (rewrite nth_error_app1; assumption).
    unfold cell_at. apply app_nth1. lia.
  - rewrite (row_get_nth _ _ x (List.length A) N).
    + unfold cell_at. rewrite app_nth2 by lia.
      replace (List.length A - List.length va) with 0 by lia. reflexivity.
    + rewrite nth_error_app2 by lia. now rewrite Nat.sub_diag.
  - intros k c H.
    rewrite (row_get_nth _ _ c (List.length A + 1 + k) N).
    + unfold cell_at. rewrite app_nth2 by lia.
      replace (List.length A + 1 + k - List.length va) with (S k) by lia. reflexivity.
    + rewrite nth_error_app2 by lia.
      replace (List.length A + 1 + k - List.length A) with (S k) by lia. exact H.
Qed.

Lemma column_order_parts (previous subsequent : DataFrame) (pfv sfv : string) :
  column_order previous subsequent pfv sfv
  = side_names previous pfv ++ ["diff"] ++ side_names subsequent sfv.
Proof. reflexivity. Qed.

Lemma length_side (t : DataFrame) (formatversion : string) (idx : option nat) :
  List.length (side t idx) = List.length (side_names t formatversion).
Proof.
  unfold side, side_values, side_blank, side_names.
  destruct idx; simpl; now rewrite !length_map.
Qed.

Lemma nth_error_key_cells (t : DataFrame) (idx : nat) (v : cell) :
  nth_error (key_cells t) idx = Some v ->
  idx < len t /\ source_cell t idx "Segmentname" = v.
Proof.
  intros H.
  assert (idx < len t) as L.
  { rewrite <- length_key_cells. apply nth_error_Some. congruence. }
  split; [exact L|].
  unfold key_cells in H. rewrite nth_error_map, nth_error_seq in H.
  destruct (idx <? len t)%nat eqn:E; [|apply Nat.ltb_ge in E; lia].
  simpl in H. now inv H.
Qed.


Section MergedRowGet.

Variables previous subsequent : DataFrame.
Variables pfv sfv : string.
Hypothesis nodup : NoDup (column_order previous subsequent pfv sfv).

Local Abbreviation co := (column_order previous subsequent pfv sfv).
Local Abbreviation merged := (merged_values previous subsequent).

Lemma row_get_diff (fz : cell -> cell) (d : decision) :
  row_get co (map fz (merged d)) "diff" = fz (Some (snd d)).
Proof.
  unfold merged_values. rewrite !map_app. cbn [map].
  rewrite column_order_parts in *.
  apply (row_get_parts _ _ _ _ _ _ nodup).
  now rewrite length_map, (length_side _ pfv).
Qed.

Lemma row_get_previous (fz : cell -> cell) (d : decision) (k : nat) (c : string) :
  nth_error (side_names previous pfv) k = Some c ->
  row_get co (map fz (merged d)) c = cell_at (map fz (side previous (fst (fst d)))) k.
Proof.
  unfold merged_values. rewrite !map_app. cbn [map].
  rewrite column_order_parts in *.
  apply (row_get_parts _ _ _ _ _ _ nodup).
  now rewrite length_map, (length_side _ pfv).
Qed.

Lemma row_get_subsequent (fz : cell -> cell) (d : decision) (k : nat) (c : string) :
  nth_error (side_names subsequent sfv) k = Some c ->
  row_get co (map fz (merged d)) c = cell_at (map fz (side subsequent (snd (fst d)))) k.
Proof.
  unfold merged_values. rewrite !map_app. cbn [map].
  rewrite column_order_parts in *.
  apply (row_get_parts _ _ _ _ _ _ nodup).
  now rewrite length_map, (length_side _ pfv).
Qed.

End MergedRowGet.


(* ================================================================== *)
(** ** When the names of the layout are distinct *)

Lemma list_ascii_append (a b : string) :
  list_ascii_of_string (a ++ b)%string = list_ascii_of_string a ++ list_ascii_of_string b.
Proof. induction a as [|c a IH]; simpl; [reflexivity|now rewrite IH]. Qed.

Lemma length_list_ascii (a : string) :
  List.length (list_ascii_of_string a) = String.length a.
Proof. induction a as [|c a IH]; simpl; [reflexivity|now rewrite IH]. Qed.

Lemma list_ascii_inj (a b : string) :
  list_ascii_of_string a = list_ascii_of_string b -> a = b.
Proof.
  intros H. apply (f_equal string_of_list_ascii) in H.
  now rewrite !string_of_list_ascii_of_string in H.
Qed.

Lemma app_same_length {A : Type} (la lb ls lt : list A) :
  la ++ ls = lb ++ lt -> List.length ls = List.length lt -> la = lb /\ ls = lt.
Proof.
  revert lb. induction la as [|a la IH]; intros [|b lb] H L; simpl in H.
  - auto.
  - apply (f_equal (@List.length A)) in H. simpl in H. rewrite length_app in H. lia.
  - apply (f_equal (@List.length A)) in H. simpl in H. rewrite length_app in H. lia.
  - inv H. destruct (IH _ H2 L) as [-> ->]. auto.
Qed.

Lemma append_same_length (a b s t : string) :
  (a ++ s)%string = (b ++ t)%string -> String.length s = String.length t ->
  a = b /\ s = t.
Proof.
  intros H L. apply (f_equal list_ascii_of_string) in H.
  rewrite !list_ascii_append in H.
  apply app_same_length in H; [|now rewrite !length_list_ascii].
  destruct H as [H1 H2]. split; now apply list_ascii_inj.
Qed.

Lemma suffixed_inj (c1 c2 p n : string) :
  String.length p = String.length n ->
  suffixed c1 p = suffixed c2 n -> c1 = c2 /\ p = n.
Proof.
  unfold suffixed. intros L H.
  apply append_same_length in H; [|simpl; now rewrite L].
  destruct H as [H1 H2]. split; [exact H1|]. now inv H2.
Qed.

Lemma suffixed_not_diff (c formatversion : string) : suffixed c formatversion <> "diff".
Proof.
  unfold suffixed. intros H. apply (f_equal list_ascii_of_string) in H.
  rewrite list_ascii_append in H.
  assert (In "_"%char (list_ascii_of_string "diff")) as C.
  { rewrite <- H. apply in_or_app. right. simpl. auto. }
  simpl in C. intuition discriminate.
Qed.

Lemma NoDup_suffixed (l : list string) (formatversion : string) :
  NoDup l -> NoDup (map (fun col => suffixed col formatversion) l).
Proof.
  induction 1 as [|c l N _ IH]; simpl; constructor; [|exact IH].
  intros C. apply in_map_iff in C. destruct C as (c' & E & Hc').
  apply suffixed_inj in E; [|reflexivity]. destruct E as [-> _]. auto.
Qed.

Lemma data_columns_no_key (t : DataFrame) (c : string) :
  In c (data_columns t) -> c <> "Segmentname".
Proof.
  unfold data_columns. intros H. apply filter_In in H. destruct H as [_ H].
  now apply negb_true_iff, String.eqb_neq in H.
Qed.

(** Two tables with distinct column names, merged under two distinct
    version tags of the same length, as the names of two version
    directories are: the names of the layout are distinct. *)
Lemma column_order_NoDup (previous subsequent : DataFrame) (pfv sfv : string) :
  NoDup (columns previous) -> NoDup (columns subsequent) ->
  pfv <> sfv -> String.length pfv = String.length sfv ->
  NoDup (column_order previous subsequent pfv sfv).
Proof.
  intros Np Nn D L. unfold column_order. cbn [app].
  change (key_column pfv) with (suffixed "Segmentname" pfv).
  change (key_column sfv) with (suffixed "Segmentname" sfv).
  assert (forall c, In c (map (fun col => suffixed col sfv) (data_columns subsequent)) ->
                    forall c', c <> suffixed c' pfv) as X.
  { intros c Hc c' E. apply in_map_iff in Hc. destruct Hc as (c0 & <- & _).
    apply suffixed_inj in E; [|now symmetry]. destruct E as [_ E]. congruence. }
  assert (forall c', suffixed "Segmentname" sfv <> suffixed c' pfv) as Y.
  { intros c' E. apply suffixed_inj in E; [|now symmetry]. destruct E as [_ E]. congruence. }
  constructor.
  - intros C. apply in_app_or in C. destruct C as [C|[C|[C|C]]].
    + apply in_map_iff in C. destruct C as (c & E & Hc).
      apply suffixed_inj in E; [|reflexivity]. destruct E as [-> _].
      now apply data_columns_no_key in Hc.
    + symmetry in C. now apply suffixed_not_diff in C.
    + now apply Y in C.
    + now apply (X _ C "Segmentname").
  - apply NoDup_app.
    + apply NoDup_suffixed, NoDup_filter, Np.
    + constructor; [|constructor].
      * intros [C|C]; [now apply suffixed_not_diff in C|].
        apply in_map_iff in C. destruct C as (c & E & _).
        now apply suffixed_not_diff in E.
      * intros C. apply in_map_iff in C. destruct C as (c & E & Hc).
        apply suffixed_inj in E; [|reflexivity]. destruct E as [-> _].
        now apply data_columns_no_key in Hc.
      * apply NoDup_suffixed, NoDup_filter, Nn.
    + intros c Hc [C|[C|C]].
      * subst c. apply in_map_iff in Hc. destruct Hc as (c & E & _).
        now apply suffixed_not_diff in E.
      * subst c. apply in_map_iff in Hc. destruct Hc as (c & E & _).
        symmetry in E. now apply Y in E.
      * apply in_map_iff in Hc. destruct Hc as (c' & <- & _).
        now apply (X _ C c').
Qed.

(* ================================================================== *)
(** ** Coverage and termination *)

Lemma well_formed_not_empty (t : DataFrame) (formatversion : string) :
  well_formed t formatversion -> empty t = (List.length (key_cells t) =? 0)%nat.
Proof.
  intros (_ & H & _). unfold empty. rewrite length_key_cells. unfold len.
  destruct (columns t); [elim H|reflexivity].
Qed.

Lemma previous_rows_removed (l : list nat) : previous_rows (map removed_decision l) = l.
Proof. induction l; simpl; congruence. Qed.

Lemma subsequent_rows_removed (l : list nat) : subsequent_rows (map removed_decision l) = [].
Proof. induction l; simpl; auto. Qed.

Lemma empty_true_len (t : DataFrame) (formatversion : string) :
  well_formed t formatversion -> empty t = true -> len t = 0.
Proof.
  intros wf E. rewrite (well_formed_not_empty _ _ wf), length_key_cells in E.
  now apply Nat.eqb_eq.
Qed.

(** On well-formed tables of which one has no missing key
    [align_columns] returns, within [len(previous) + len(subsequent)]
    turns of its loop, a table whose rows are the merged rows of
    decisions that cover every row of both tables once, in order. *)
Lemma align_columns_covers (previous subsequent : DataFrame) (pfv sfv : string) (fuel : nat) :
  well_formed previous pfv -> well_formed subsequent sfv ->
  NoDup (column_order previous subsequent pfv sfv) ->
  keys_present (key_cells previous) \/ keys_present (key_cells subsequent) ->
  len previous + len subsequent < fuel ->
  exists (final : bool) (ds : list decision),
    align_columns fuel previous subsequent pfv sfv
    = Return (mkDataFrame (column_order previous subsequent pfv sfv)
                (map (fun d => map (post final) (merged_values previous subsequent d)) ds))
    /\ previous_rows ds = seq 0 (len previous)
    /\ subsequent_rows ds = seq 0 (len subsequent)
    /\ Forall (well_tagged (key_cells previous) (key_cells subsequent)) ds
    /\ List.length ds <= len previous + len subsequent.
Proof.
  intros wp ws nd P F. rewrite align_columns_spec by assumption.
  destruct (empty previous) eqn:Ep, (empty subsequent) eqn:Es; cbn [andb].
  - exists false, [].
    rewrite (empty_true_len _ _ wp Ep), (empty_true_len _ _ ws Es).
    repeat split; simpl; auto.
  - exists false, (map new_decision (seq 0 (len subsequent))).
    rewrite (empty_true_len _ _ wp Ep).
    split; [do 2 f_equal; apply map_ext; intros d; symmetry; apply map_id|].
    rewrite previous_rows_new, subsequent_rows_new, length_map, length_seq.
    repeat split; auto.
    apply Forall_forall. intros d Hd. apply in_map_iff in Hd.
    destruct Hd as (j & <- & Hj). apply in_seq in Hj. constructor.
    rewrite length_key_cells. lia.
  - exists false, (map removed_decision (seq 0 (len previous))).
    rewrite (empty_true_len _ _ ws Es).
    split; [do 2 f_equal; apply map_ext; intros d; symmetry; apply map_id|].
    rewrite previous_rows_removed, subsequent_rows_removed, length_map, length_seq.
    repeat split; auto; [|lia].
    apply Forall_forall. intros d Hd. apply in_map_iff in Hd.
    destruct Hd as (i & <- & Hi). apply in_seq in Hi. constructor.
    rewrite length_key_cells. lia.
  - destruct (align_decisions_total (key_cells previous) (key_cells subsequent) fuel P)
      as (ds & E & Hp & Hs & Hw & Hl).
    { now rewrite !length_key_cells. }
    rewrite !length_key_cells in *.
    exists true, ds. rewrite E. repeat split; auto.
Qed.


(* ================================================================== *)
(** ** The merged table *)

Lemma well_tagged_next (segments_old segments_new : list cell) (d : decision) :
  well_tagged segments_old segments_new d ->
  snd d = "" \/ snd d = "NEW" \/ snd d = "REMOVED".
Proof. destruct 1; simpl; auto. Qed.

(** Every frame [align_columns] returns: the column order for labels,
    and for rows the merged rows of decisions over rows that exist; the
    cells are changed by [finalize] exactly in the frame of the loop. *)
Lemma align_columns_rows (previous subsequent : DataFrame) (pfv sfv : string)
  (fuel : nat) (df : DataFrame) :
  well_formed previous pfv -> well_formed subsequent sfv ->
  NoDup (column_order previous subsequent pfv sfv) ->
  align_columns fuel previous subsequent pfv sfv = Return df ->
  columns df = column_order previous subsequent pfv sfv
  /\ exists (final : bool) (ds : list decision),
      values df = map (fun d => map (post final) (merged_values previous subsequent d)) ds
      /\ Forall (well_tagged (key_cells previous) (key_cells subsequent)) ds
      /\ (final = true \/ Forall (fun d : decision => snd d <> "") ds).
Proof.
  intros wp ws nd H. rewrite align_columns_spec in H by assumption.
  destruct (empty previous) eqn:Ep, (empty subsequent) eqn:Es; cbn [andb] in H.
  - inv H. split; [reflexivity|]. exists false, [].
    split; [reflexivity|]. split; [apply Forall_nil|right; apply Forall_nil].
  - inv H. split; [reflexivity|].
    exists false, (map new_decision (seq 0 (len subsequent))).
    split; [cbn [values]; apply map_ext; intros d; symmetry; apply map_id|]. split.
    + apply Forall_forall. intros d Hd. apply in_map_iff in Hd.
      destruct Hd as (j & <- & Hj). apply in_seq in Hj. constructor.
      rewrite length_key_cells. lia.
    + right. apply Forall_forall. intros d Hd. apply in_map_iff in Hd.
      destruct Hd as (j & <- & _). discriminate.
  - inv H. split; [reflexivity|].
    exists false, (map removed_decision (seq 0 (len previous))).
    split; [cbn [values]; apply map_ext; intros d; symmetry; apply map_id|]. split.
    + apply Forall_forall. intros d Hd. apply in_map_iff in Hd.
      destruct Hd as (i & <- & Hi). apply in_seq in Hi. constructor.
      rewrite length_key_cells. lia.
    + right. apply Forall_forall. intros d Hd. apply in_map_iff in Hd.
      destruct Hd as (i & <- & _). discriminate.
  - destruct (align_decisions fuel (key_cells previous) (key_cells subsequent))
      as [ds| |] eqn:E; try discriminate.
    inv H. split; [reflexivity|]. exists true, ds.
    split; [reflexivity|]. split; [|now left].
    unfold align_decisions in E.
    apply align_loop_sound in E; cbn [cur_i cur_j]; try lia.
    destruct E as (ds' & -> & _ & _ & W). exact W.
Qed.

Lemma data_columns_split (t : DataFrame) :
  NoDup (columns t) -> In "Segmentname" (columns t) ->
  exists a b, columns t = a ++ "Segmentname" :: b /\ data_columns t = a ++ b.
Proof.
  intros N H. destruct (in_split _ _ H) as (a & b & E).
  exists a, b. split; [exact E|].
  unfold data_columns. rewrite E in *.
  apply NoDup_remove_2 in N.
  rewrite filter_app. cbn [filter]. rewrite String.eqb_refl. cbn [negb].
  f_equal; apply forallb_filter_id, forallb_forall; intros c Hc;
    apply negb_true_iff, String.eqb_neq; intros ->; apply N, in_or_app; auto.
Qed.

(** C3: the special cases.  Two empty tables give a table without rows
    that has every column of the layout; an empty subsequent table gives
    one [REMOVED] row for every previous row, in order; an empty
    previous table gives one [NEW] row for every subsequent row, in
    order. *)
Theorem C3_special_cases (previous subsequent : DataFrame) (pfv sfv : string) (fuel : nat) :
  well_formed previous pfv -> well_formed subsequent sfv ->
  NoDup (column_order previous subsequent pfv sfv) ->
  (empty previous = true -> empty subsequent = true ->
   align_columns fuel previous subsequent pfv sfv
   = Return (mkDataFrame (column_order previous subsequent pfv sfv) []))
  /\ (empty previous = false -> empty subsequent = true ->
      align_columns fuel previous subsequent pfv sfv
      = Return (mkDataFrame (column_order previous subsequent pfv sfv)
                  (map (fun i => side_values previous i ++ [Some "REMOVED"]
                                   ++ side_blank subsequent)
                       (seq 0 (len previous)))))
  /\ (empty previous = true -> empty subsequent = false ->
      align_columns fuel previous subsequent pfv sfv
      = Return (mkDataFrame (column_order previous subsequent pfv sfv)
                  (map (fun j => side_blank previous ++ [Some "NEW"]
                                   ++ side_values subsequent j)
                       (seq 0 (len subsequent))))).
Proof.
  intros wp ws nd. rewrite align_columns_spec by assumption.
  repeat split; intros Ep Es; rewrite Ep, Es; cbn [andb]; try reflexivity.
  - now rewrite map_map.
  - now rewrite map_map.
Qed.

Lemma C3_special_cases_witness :
  align_columns 0 example_previous no_rows "FV2404" "FV2410"
  = Return (mkDataFrame
              ["Segmentname_FV2404"; "Bedingung_FV2404"; "diff";
               "Segmentname_FV2410"; "Beschreibung_FV2410"]
              [[Some "UNH"; Some "Muss"; Some "REMOVED"; Some ""; Some ""];
               [Some "BGM"; Some ""; Some "REMOVED"; Some ""; Some ""];
               [Some "UNT"; Some "Muss"; Some "REMOVED"; Some ""; Some ""]]).
Proof.
  destruct (C3_special_cases example_previous no_rows "FV2404" "FV2410" 0)
    as (_ & H & _).
  - well_formed_table.
  - well_formed_table.
  - nodup_strings.
  - apply H; reflexivity.
Defined.



Lemma labelled_side_names (t : DataFrame) (formatversion : string) (idx : option nat) :
  map fst (labelled_side t formatversion idx) = side_names t formatversion.
Proof. unfold labelled_side, side_names. cbn [map fst]. now rewrite map_map. Qed.

Lemma labelled_side_cells (t : DataFrame) (formatversion : string) (idx : option nat) :
  map snd (labelled_side t formatversion idx) = side t idx.
Proof.
  unfold labelled_side, side, side_values, side_blank. cbn [map snd].
  rewrite map_map. now destruct idx.
Qed.

Lemma labelled_row_names (previous subsequent : DataFrame) (pfv sfv : string) (d : decision) :
  map fst (labelled_row previous subsequent pfv sfv d)
  = column_order previous subsequent pfv sfv.
Proof.
  unfold labelled_row. rewrite !map_app, !labelled_side_names. reflexivity.
Qed.

Lemma labelled_row_cells (previous subsequent : DataFrame) (pfv sfv : string) (d : decision) :
  map snd (labelled_row previous subsequent pfv sfv d)
  = merged_values previous subsequent d.
Proof.
  unfold labelled_row, merged_values. rewrite !map_app, !labelled_side_cells. reflexivity.
Qed.

Lemma combine_labelled (g : cell -> cell) (l : list (string * cell)) :
  combine (map fst l) (map g (map snd l)) = map (fun lc => (fst lc, g (snd lc))) l.
Proof. induction l as [|x l IH]; simpl; [reflexivity|]. now rewrite IH. Qed.

(** C9: the columns of a merged table are, in this order, the key
    column of the previous side, the data columns of the previous table
    in their order with the key column left out, the [diff] column, the
    key column of the subsequent side, and the data columns of the
    subsequent table in their order with the key column left out; every
    row has one cell for each of them, so that a name reads the same
    position in every row; and in every row the cells stand under their
    labels: read together with the labels, the row is the key and data
    cells of its previous row under the names of the previous side, its
    tag under [diff], and the key and data cells of its subsequent row
    under the names of the subsequent side, in the order above.  The
    table is returned when one of the two tables has no missing key and
    the loop is given a turn for every row. *)
Theorem C9_column_order_is_fixed (previous subsequent : DataFrame) (pfv sfv : string)
  (fuel : nat) :
  well_formed previous pfv -> well_formed subsequent sfv ->
  NoDup (column_order previous subsequent pfv sfv) ->
  (keys_present (key_cells previous) \/ keys_present (key_cells subsequent) ->
   len previous + len subsequent < fuel ->
   exists df, align_columns fuel previous subsequent pfv sfv = Return df)
  /\ forall df,
  align_columns fuel previous subsequent pfv sfv = Return df ->
  columns df
  = [key_column pfv] ++ map (fun col => suffixed col pfv) (data_columns previous)
    ++ ["diff"]
    ++ [key_column sfv] ++ map (fun col => suffixed col sfv) (data_columns subsequent)
  /\ (exists a b, columns previous = a ++ "Segmentname" :: b
                  /\ data_columns previous = a ++ b)
  /\ (exists a b, columns subsequent = a ++ "Segmentname" :: b
                  /\ data_columns subsequent = a ++ b)
  /\ (forall row, In row (values df) ->
       List.length row = List.length (columns df)
       /\ forall k c, nth_error (columns df) k = Some c ->
                      row_get (columns df) row c = cell_at row k)
  /\ exists final : bool,
      forall row, In row (values df) ->
        exists d,
          well_tagged (key_cells previous) (key_cells subsequent) d
          /\ combine (columns df) row
             = map (fun lc => (fst lc, post final (snd lc)))
                   (labelled_row previous subsequent pfv sfv d).
Proof.
  intros wp ws nd. split.
  { intros P F.
    destruct (align_columns_covers _ _ _ _ _ wp ws nd P F) as (final & ds & E & _).
    eauto. }
  intros df H.
  destruct (align_columns_rows _ _ _ _ _ _ wp ws nd H) as (Hc & final & ds & Hv & Hw & _).
  split; [exact Hc|].
  split; [destruct wp as (N & I & _); now apply data_columns_split|].
  split; [destruct ws as (N & I & _); now apply data_columns_split|].
  split.
  - intros row Hin. rewrite Hv in Hin. apply in_map_iff in Hin.
    destruct Hin as (d & <- & _). split.
    + rewrite Hc, column_order_parts. unfold merged_values.
      rewrite length_map, !length_app, (length_side _ pfv), (length_side _ sfv).
      reflexivity.
    + intros k c Hk. apply row_get_nth; [|exact Hk]. now rewrite Hc.
  - exists final. intros row Hin. rewrite Hv in Hin. apply in_map_iff in Hin.
    destruct Hin as (d & <- & Hd). exists d. split.
    + rewrite Forall_forall in Hw. now apply Hw.
    + rewrite Hc, <- (labelled_row_names previous subsequent pfv sfv d).
      rewrite <- (labelled_row_cells previous subsequent pfv sfv d).
      apply combine_labelled.
Qed.

Lemma C9_column_order_is_fixed_witness :
  exists df,
    align_columns 7 example_previous example_subsequent "FV2404" "FV2410" = Return df
    /\ columns df = ["Segmentname_FV2404"; "Bedingung_FV2404"; "diff";
                     "Segmentname_FV2410"; "Code_FV2410"]
    /\ exists final : bool,
        forall row, In row (values df) ->
          exists d,
            well_tagged (key_cells example_previous) (key_cells example_subsequent) d
            /\ combine (columns df) row
               = map (fun lc => (fst lc, post final (snd lc)))
                     (labelled_row example_previous example_subsequent
                        "FV2404" "FV2410" d).
Proof.
  eexists. split; [vm_compute; reflexivity|].
  destruct (C9_column_order_is_fixed example_previous example_subsequent
              "FV2404" "FV2410" 7) as [_ H].
  - well_formed_table.
  - well_formed_table.
  - nodup_strings.
  - edestruct H as (Hc & _ & _ & _ & Hr); [vm_compute; reflexivity|].
    split; [exact Hc|exact Hr].
Defined.

(* ================================================================== *)
(** ** Unchanged rows *)

(** The [diff] column of a merged table. *)
Lemma diff_column (previous subsequent : DataFrame) (pfv sfv : string)
  (fz : cell -> cell) (ds : list decision) :
  NoDup (column_order previous subsequent pfv sfv) ->
  map (fun row => row_get (column_order previous subsequent pfv sfv) row "diff")
      (map (fun d => map fz (merged_values previous subsequent d)) ds)
  = map (fun d : decision => fz (Some (snd d))) ds.
Proof.
  intros nd. rewrite map_map. apply map_ext. intros d.
  apply (row_get_diff _ _ _ _ nd).
Qed.

Lemma diff_column_plain (previous subsequent : DataFrame) (pfv sfv : string)
  (ds : list decision) :
  NoDup (column_order previous subsequent pfv sfv) ->
  map (fun row => row_get (column_order previous subsequent pfv sfv) row "diff")
      (map (merged_values previous subsequent) ds)
  = map (fun d : decision => Some (snd d)) ds.
Proof.
  intros nd.
  replace (map (merged_values previous subsequent) ds)
    with (map (fun d => map (fun v : cell => v) (merged_values previous subsequent d)) ds)
    by (apply map_ext; intros d; apply map_id).
  apply (diff_column previous subsequent pfv sfv (fun v => v) ds nd).
Qed.

(** C10: a row is tagged unchanged on the equality of the two keys
    alone.  In every row of a merged table whose tag is empty the two
    key columns hold the same key.  The tags of a merged table are a
    function of the two key columns: two pairs of tables with the same
    keys get the same [diff] column, whatever their data columns hold.
    Two rows with the same key and any two data cells are paired as
    unchanged. *)
Theorem C10_unchanged_by_key_only :
  (forall (previous subsequent : DataFrame) (pfv sfv : string) (fuel : nat) (df : DataFrame),
      well_formed previous pfv -> well_formed subsequent sfv ->
      NoDup (column_order previous subsequent pfv sfv) ->
      align_columns fuel previous subsequent pfv sfv = Return df ->
      forall row, In row (values df) ->
        row_get (columns df) row "diff" = Some "" ->
        exists i j key,
          source_cell previous i "Segmentname" = Some key
          /\ source_cell subsequent j "Segmentname" = Some key
          /\ row_get (columns df) row (key_column pfv) = finalize (Some key)
          /\ row_get (columns df) row (key_column sfv) = finalize (Some key))
  /\ (forall (previous subsequent previous' subsequent' : DataFrame) (pfv sfv : string)
             (fuel : nat) (df : DataFrame),
         well_formed previous pfv -> well_formed subsequent sfv ->
         well_formed previous' pfv -> well_formed subsequent' sfv ->
         NoDup (column_order previous subsequent pfv sfv) ->
         NoDup (column_order previous' subsequent' pfv sfv) ->
         key_cells previous = key_cells previous' ->
         key_cells subsequent = key_cells subsequent' ->
         align_columns fuel previous subsequent pfv sfv = Return df ->
         exists df',
           align_columns fuel previous' subsequent' pfv sfv = Return df'
           /\ map (fun row => row_get (columns df') row "diff") (values df')
              = map (fun row => row_get (columns df) row "diff") (values df))
  /\ (forall (key : string) (x y : cell),
         align_columns 3 (one_row key x) (one_row key y) "FV2404" "FV2410"
         = Return (mkDataFrame
                     ["Segmentname_FV2404"; "Bedingung_FV2404"; "diff";
                      "Segmentname_FV2410"; "Bedingung_FV2410"]
                     [[finalize (Some key); finalize (blank_na x); Some "";
                       finalize (Some key); finalize (blank_na y)]])).
Proof.
  split; [|split].
  - intros previous subsequent pfv sfv fuel df wp ws nd H row Hin.
    destruct (align_columns_rows _ _ _ _ _ _ wp ws nd H)
      as (Hc & final & ds & Hv & Hw & Hf).
    rewrite Hc, Hv in *. clear Hc Hv.
    apply in_map_iff in Hin. destruct Hin as (d & <- & Hd).
    rewrite Forall_forall in Hw. specialize (Hw d Hd).
    rewrite (row_get_diff _ _ _ _ nd).
    destruct Hw as [i j key Ho Hn | j Lj | i Li];
      cbn [snd unchanged_decision new_decision removed_decision].
    + intros _. apply nth_error_key_cells in Ho, Hn.
      destruct Ho as [_ Ho], Hn as [_ Hn].
      destruct Hf as [->|Hf].
      2:{ rewrite Forall_forall in Hf. now elim (Hf _ Hd). }
      exists i, j, key. repeat split; auto.
      * rewrite (row_get_previous _ _ _ _ nd _ _ 0 (key_column pfv) eq_refl).
        cbn [fst snd side side_values map cell_at nth post unchanged_decision]. now rewrite Ho.
      * rewrite (row_get_subsequent _ _ _ _ nd _ _ 0 (key_column sfv) eq_refl).
        cbn [fst snd side side_values map cell_at nth post unchanged_decision]. now rewrite Hn.
    + destruct final; discriminate.
    + destruct final; discriminate.
  - intros previous subsequent previous' subsequent' pfv sfv fuel df
           wp ws wp' ws' nd nd' Kp Ks H.
    rewrite align_columns_spec in H by assumption.
    rewrite align_columns_spec by assumption.
    rewrite (well_formed_not_empty _ _ wp), (well_formed_not_empty _ _ ws) in H.
    rewrite (well_formed_not_empty _ _ wp'), (well_formed_not_empty _ _ ws').
    rewrite <- Kp, <- Ks.
    assert (len previous' = len previous) as Lp by (now rewrite <- !length_key_cells, Kp).
    assert (len subsequent' = len subsequent) as Ls by (now rewrite <- !length_key_cells, Ks).
    rewrite Lp, Ls.
    destruct (List.length (key_cells previous) =? 0)%nat,
             (List.length (key_cells subsequent) =? 0)%nat; cbn [andb] in *.
    + inv H. eexists. split; reflexivity.
    + inv H. eexists. split; [reflexivity|]. cbn [values columns].
      now rewrite !diff_column_plain.
    + inv H. eexists. split; [reflexivity|]. cbn [values columns].
      now rewrite !diff_column_plain.
    + destruct (align_decisions fuel (key_cells previous) (key_cells subsequent))
        as [ds| |]; try discriminate.
      inv H. eexists. split; [reflexivity|]. cbn [values columns].
      now rewrite !diff_column.
  - intros key x y.
    rewrite align_columns_spec;
      [|unfold one_row; well_formed_table|unfold one_row; well_formed_table
       |unfold one_row; nodup_strings].
    unfold align_decisions. cbn. rewrite String.eqb_refl. cbn. reflexivity.
Qed.

Lemma C10_unchanged_by_key_only_witness :
  exists df,
    align_columns 7 example_previous example_subsequent "FV2404" "FV2410" = Return df
    /\ forall row, In row (values df) ->
         row_get (columns df) row "diff" = Some "" ->
         exists i j key,
           source_cell example_previous i "Segmentname" = Some key
           /\ source_cell example_subsequent j "Segmentname" = Some key
           /\ row_get (columns df) row (key_column "FV2404") = finalize (Some key)
           /\ row_get (columns df) row (key_column "FV2410") = finalize (Some key).
Proof.
  eexists. split; [vm_compute; reflexivity|].
  apply (proj1 C10_unchanged_by_key_only
               example_previous example_subsequent "FV2404" "FV2410" 7).
  - well_formed_table.
  - well_formed_table.
  - nodup_strings.
  - vm_compute. reflexivity.
Defined.

(* ================================================================== *)
(** ** Missing keys *)

(** Two key sequences with a missing key at the same place, after an
    equal key: the loop pairs the first rows and then stays where it
    is. *)
Lemma missing_keys_never_return (fuel : nat) :
  align_decisions fuel [Some "UNH"; None] [Some "UNH"; None] = OutOfFuel.
Proof.
  destruct fuel as [|fuel]; [reflexivity|].
  unfold align_decisions. cbn [align_loop].
  change (loop_test [Some "UNH"; None] [Some "UNH"; None] (mkState 0 0 (@nil decision)))
    with true.
  change (loop_body decide [Some "UNH"; None] [Some "UNH"; None] (mkState 0 0 []))
    with (Return (mkState 1 1 [unchanged_decision 0 0])).
  cbn [bind]. apply align_loop_stalled; reflexivity.
Qed.

(** C5, at a failing input: when the previous and the subsequent row
    under the cursors both lack their key, the body of the loop moves
    neither cursor and adds no row, and the loop does not end whatever
    the number of turns it is given. *)
Theorem C5_missing_keys_stall_the_loop :
  (forall rows : list decision,
      loop_body decide [Some "UNH"; None] [Some "UNH"; None] (mkState 1 1 rows)
      = Return (mkState 1 1 rows))
  /\ forall fuel, align_decisions fuel [Some "UNH"; None] [Some "UNH"; None] = OutOfFuel.
Proof.
  split; [reflexivity|exact missing_keys_never_return].
Qed.

(** C2, at a failing input: for a table whose second row has no key,
    compared with itself, [align_columns] returns no merged table,
    whatever the number of turns its loop is given. *)
Theorem C2_missing_keys_are_never_covered :
  key_cells missing_key_table = [Some "UNH"; None]
  /\ forall fuel,
      align_columns fuel missing_key_table missing_key_table "FV2404" "FV2410" = OutOfFuel.
Proof.
  split; [reflexivity|]. intros fuel.
  rewrite align_columns_spec;
    [|unfold missing_key_table; well_formed_table
     |unfold missing_key_table; well_formed_table
     |unfold missing_key_table; nodup_strings].
  change (empty missing_key_table) with false. cbn [andb].
  change (key_cells missing_key_table) with [Some "UNH"; @None string].
  now rewrite missing_keys_never_return.
Qed.

(** A missing key of the previous table that the subsequent table has
    further down, after an equal key: the loop pairs the first rows,
    takes the row in between for new and then stays where it is. *)
Lemma found_missing_key_never_returns (fuel : nat) :
  align_decisions fuel [Some "UNH"; None] [Some "UNH"; Some "BGM"; None] = OutOfFuel.
Proof.
  destruct fuel as [|fuel]; [reflexivity|].
  unfold align_decisions. cbn [align_loop].
  change (loop_test [Some "UNH"; None] [Some "UNH"; Some "BGM"; None]
            (mkState 0 0 (@nil decision)))
    with true.
  change (loop_body decide [Some "UNH"; None] [Some "UNH"; Some "BGM"; None] (mkState 0 0 []))
    with (Return (mkState 1 1 [unchanged_decision 0 0])).
  cbn [bind].
  destruct fuel as [|fuel]; [reflexivity|].
  cbn [align_loop].
  change (loop_test [Some "UNH"; None] [Some "UNH"; Some "BGM"; None]
            (mkState 1 1 [unchanged_decision 0 0]))
    with true.
  change (loop_body decide [Some "UNH"; None] [Some "UNH"; Some "BGM"; None]
            (mkState 1 1 [unchanged_decision 0 0]))
    with (Return (mkState 1 2 [unchanged_decision 0 0; new_decision 1])).
  cbn [bind]. apply align_loop_stalled; reflexivity.
Qed.

(** C1, at a failing input: the previous keys [UNH, NaN] against the
    subsequent keys [UNH, BGM, NaN].  At [i = j = 1] neither cursor is
    exhausted and the keys differ; the forward search finds the missing
    key of the previous row at offset 1, the first place where
    [subsequent[1:]] has it, decides [NEW] for the row in between and
    moves [j] by 1, as the claim says.  The next turn does not pair the
    two rows as unchanged: it moves neither cursor and adds no row, and
    the loop does not end whatever the number of turns it is given. *)
Theorem C1_found_missing_key_is_not_paired :
  nth_error [Some "UNH"; None] 1 = Some None
  /\ nth_error [Some "UNH"; Some "BGM"; None] 1 = Some (Some "BGM")
  /\ py_eq None (Some "BGM") = false
  /\ first_occurrence None (skipn 1 [Some "UNH"; Some "BGM"; None]) 1
  /\ (forall rows : list decision,
         loop_body decide [Some "UNH"; None] [Some "UNH"; Some "BGM"; None]
           (mkState 1 1 rows)
         = Return (mkState 1 2 (rows ++ [new_decision 1])))
  /\ (forall rows : list decision,
         loop_body decide [Some "UNH"; None] [Some "UNH"; Some "BGM"; None]
           (mkState 1 2 rows)
         = Return (mkState 1 2 rows))
  /\ forall fuel,
      align_decisions fuel [Some "UNH"; None] [Some "UNH"; Some "BGM"; None] = OutOfFuel.
Proof.
  split; [reflexivity|]. split; [reflexivity|]. split; [reflexivity|]. split.
  - split; [reflexivity|]. intros k' Hk. destruct k' as [|k']; [discriminate|lia].
  - split; [reflexivity|]. split; [reflexivity|exact found_missing_key_never_returns].
Qed.

(* ================================================================== *)
(** ** Source values in the merged table *)

(** What the loop's frame does to a cell that is not the text [nan]. *)
Lemma finalize_verbatim (s : string) : s <> "nan" -> finalize (Some s) = Some s.
Proof.
  intros N. unfold finalize, astype_str, replace.
  apply String.eqb_neq in N. now rewrite N.
Qed.

(** C6, at a failing input: a data cell of the previous table holds the
    text [nan], which is not a missing value; in the merged table of
    two non-empty tables the cell is the empty string, while the merged
    table of the same previous table and an empty subsequent table
    keeps the text. *)
Theorem C6_nan_text_is_blanked :
  source_cell nan_text_previous 0 "Beschreibung" = Some "nan"
  /\ align_columns 3 nan_text_previous nan_text_subsequent "FV2404" "FV2410"
     = Return (mkDataFrame
                 ["Segmentname_FV2404"; "Beschreibung_FV2404"; "diff";
                  "Segmentname_FV2410"; "Beschreibung_FV2410"]
                 [[Some "UNH"; Some ""; Some ""; Some "UNH"; Some "Kopfsegment"]])
  /\ align_columns 3 nan_text_previous no_rows "FV2404" "FV2410"
     = Return (mkDataFrame
                 ["Segmentname_FV2404"; "Beschreibung_FV2404"; "diff";
                  "Segmentname_FV2410"; "Beschreibung_FV2410"]
                 [[Some "UNH"; Some "nan"; Some "REMOVED"; Some ""; Some ""]]).
Proof. repeat split. Qed.

(* ================================================================== *)
(** ** Instances *)

(** A key deleted from the middle, a key inserted in the middle, and a
    key that occurs twice in the subsequent table: the first occurrence
    is the one paired. *)
Example deleted_from_the_middle :
  align_decisions 6 [Some "A"; Some "B"; Some "C"] [Some "A"; Some "C"]
  = Return [unchanged_decision 0 0; removed_decision 1; unchanged_decision 2 1].
Proof. reflexivity. Qed.

Example inserted_in_the_middle :
  align_decisions 6 [Some "A"; Some "C"] [Some "A"; Some "B"; Some "C"]
  = Return [unchanged_decision 0 0; new_decision 1; unchanged_decision 1 2].
Proof. reflexivity. Qed.

Example first_of_two_occurrences :
  align_decisions 6 [Some "A"] [Some "B"; Some "A"; Some "A"]
  = Return [new_decision 0; unchanged_decision 0 1; new_decision 2].
Proof. reflexivity. Qed.

Example merged_example :
  align_columns 7 example_previous example_subsequent "FV2404" "FV2410"
  = Return (mkDataFrame
              ["Segmentname_FV2404"; "Bedingung_FV2404"; "diff";
               "Segmentname_FV2410"; "Code_FV2410"]
              [[Some "UNH"; Some "Muss"; Some ""; Some "UNH"; Some "1"];
               [Some "BGM"; Some ""; Some "REMOVED"; Some ""; Some ""];
               [Some ""; Some ""; Some "NEW"; Some "DTM"; Some "2"];
               [Some "UNT"; Some "Muss"; Some ""; Some "UNT"; Some "3"]]).
Proof. reflexivity. Qed.

(* ================================================================== *)
(** * Further properties *)

(** ** Version tags and version discovery *)

Lemma digit_val_range (c : ascii) (d : Z) :
  digit_val c = Some d -> (0 <= d <= 9)%Z.
Proof.
  unfold digit_val.
  destruct ((48 <=? code c)%nat && (code c <=? 57)%nat) eqn:E; [|discriminate].
  apply andb_true_iff in E. destruct E as [E1 E2].
  apply Nat.leb_le in E1, E2.
  intros H. inv H. lia.
Qed.

Lemma Some_inj {A : Type} (x y : A) : Some x = Some y -> x = y.
Proof. congruence. Qed.

Lemma int_literal2_range (c1 c2 : ascii) (v : Z) :
  int_literal2 c1 c2 = Some v -> (-9 <= v <= 99)%Z.
Proof.
  unfold int_literal2.
  destruct (digit_val c1) as [a|] eqn:E1, (digit_val c2) as [b|] eqn:E2;
    try apply digit_val_range in E1; try apply digit_val_range in E2.
  - intros H. apply Some_inj in H. lia.
  - destruct (int_space c2); [|discriminate]. intros H. apply Some_inj in H. lia.
  - destruct (int_space c1); [intros H; apply Some_inj in H; lia|].
    destruct (Ascii.eqb c1 "+"); [intros H; apply Some_inj in H; lia|].
    destruct (Ascii.eqb c1 "-"); [|discriminate]. intros H. apply Some_inj in H. lia.
  - discriminate.
Qed.

(** X1: a parsed version tag has a month from 1 to 12 and a year from
    1991 to 2099; the years below 2000 come from a signed year such as
    [FV-504]. *)
Theorem X1_parsed_tag_bounds (s : string) (year month : Z) :
  parse_formatversions s = Return (year, month) ->
  (1 <= month <= 12)%Z /\ (1991 <= year <= 2099)%Z.
Proof.
  intros H.
  pose proof (parse_formatversions_length _ _ H) as L.
  apply length6_inv in L. destruct L as (c0 & c1 & c2 & c3 & c4 & c5 & ->).
  rewrite parse_formatversions_six in H.
  destruct (Ascii.eqb c0 "F" && Ascii.eqb c1 "V"); [|discriminate].
  destruct (int_literal2 c2 c3) as [a|] eqn:Ea; [|discriminate].
  destruct (int_literal2 c4 c5) as [b|] eqn:Eb; [|discriminate].
  destruct ((1 <=? b)%Z && (b <=? 12)%Z) eqn:Em; [|discriminate].
  assert ((2000 + a)%Z = year /\ b = month) as [<- <-] by (split; congruence).
  apply andb_true_iff in Em. destruct Em as [M1 M2].
  apply Z.leb_le in M1, M2. apply int_literal2_range in Ea. lia.
Qed.

Lemma X1_parsed_tag_bounds_witness :
  (1 <= 5 <= 12)%Z /\ (1991 <= 1995 <= 2099)%Z.
Proof.
  apply (X1_parsed_tag_bounds "FV-505" 1995 5). vm_compute. reflexivity.
Defined.

Lemma parse_formatversions_total (s : string) :
  (exists k, parse_formatversions s = Return k) \/ parse_formatversions s = Raise ValueError.
Proof.
  unfold parse_formatversions.
  destruct (negb (startswith s "FV") || negb (String.length s =? 6)%nat); [now right|].
  unfold int.
  destruct (int_literal (slice s 2 4)); cbn [bind]; [|now right].
  destruct (int_literal (slice s 4 6)); cbn [bind]; [|now right].
  destruct (negb _); [now right|]. left. eauto.
Qed.

Lemma mapM_parse (l : list string) :
  (Forall (fun s => exists k, parse_formatversions s = Return k) l ->
   exists keys, mapM parse_formatversions l = Return keys)
  /\ (Exists (fun s => parse_formatversions s = Raise ValueError) l ->
      mapM parse_formatversions l = Raise ValueError).
Proof.
  induction l as [|s l [IH1 IH2]]; split.
  - intros _. exists []. reflexivity.
  - intros H. inv H.
  - intros F. inv F. destruct H1 as [k E]. destruct (IH1 H2) as [keys E'].
    exists (k :: keys). simpl. now rewrite E, E'.
  - intros E. simpl.
    destruct (parse_formatversions_total s) as [[k Ek]|Ek]; rewrite Ek; cbn [bind];
      [|reflexivity].
    inv E; [congruence|]. now rewrite (IH2 H0).
Qed.

(** X2: the listing of the version directories.  Without the base
    directory it is empty; it is returned exactly when the name of every
    directory of six characters that starts with [FV] parses as a version
    tag; one such name that does not parse makes it raise
    [ValueError]. *)
Theorem X2_listing_needs_parsable_names :
  get_available_formatversions None = Return []
  /\ forall entries : list (string * node),
      (Forall (fun s => exists k, parse_formatversions s = Return k)
              (listed_names (Some (Dir entries))) ->
       exists l, get_available_formatversions (Some (Dir entries)) = Return l)
      /\ (Exists (fun s => parse_formatversions s = Raise ValueError)
                 (listed_names (Some (Dir entries))) ->
          get_available_formatversions (Some (Dir entries)) = Raise ValueError).
Proof.
  split; [reflexivity|]. intros entries.
  unfold get_available_formatversions, listed_names, sort_by_key_reverse.
  cbn [path_exists negb iterdir bind].
  set (names := filter _ (map fst entries)).
  destruct (mapM_parse names) as [M1 M2]. split.
  - intros F. destruct (M1 F) as [keys ->]. cbn [bind]. eauto.
  - intros E. now rewrite (M2 E).
Qed.

Lemma X2_listing_needs_parsable_names_witness :
  get_available_formatversions unparsable_tree = Raise ValueError.
Proof.
  apply (proj2 X2_listing_needs_parsable_names).
  apply Exists_cons_tl, Exists_cons_hd. vm_compute. reflexivity.
Defined.

Lemma lookup_In (entries : list (string * node)) (d : string) (x : node) :
  lookup entries d = Some x -> In d (map fst entries).
Proof.
  unfold lookup. destruct (find _ entries) as [e|] eqn:E; [|discriminate].
  intros _. apply find_some in E. destruct E as [I E].
  apply String.eqb_eq in E. subst. now apply in_map.
Qed.

(** The message formats of a version directory. *)
Lemma nachrichtenformat_dirs_spec (entries : list (string * node)) :
  exists ds,
    get_nachrichtenformat_dirs (Some (Dir entries)) = Return ds
    /\ forall d, In d ds <-> has_csv_dir entries d.
Proof.
  unfold get_nachrichtenformat_dirs. cbn [path_exists negb iterdir bind child].
  eexists. split; [reflexivity|].
  intros d. rewrite filter_In. unfold has_csv_dir. split.
  - intros [I H]. cbn [child] in H.
    apply andb_true_iff in H. destruct H as [H H3].
    apply andb_true_iff in H. destruct H as [H1 H2].
    destruct (lookup entries d) as [[|sub]|]; try discriminate.
    cbn [child] in H3.
    destruct (lookup sub "csv") as [[|csv]|] eqn:E2; try discriminate.
    exists sub, csv. auto.
  - intros (sub & csv & E1 & E2). split; [now apply (lookup_In _ _ _ E1)|].
    cbn [child]. rewrite E1. cbn [is_dir child andb]. now rewrite E2.
Qed.

(** X3: the message formats of a version directory.  A missing path has
    none; listing a path that is a file raises [OSError]; of a directory
    the call returns, in the order of the directory, exactly the entries
    that are directories with a [csv] directory in them.  The version
    counts as empty when the path is missing or no entry is returned. *)
Theorem X3_message_formats_have_csv_dir :
  get_nachrichtenformat_dirs None = Return []
  /\ get_nachrichtenformat_dirs (Some File) = Raise OSError
  /\ (forall entries,
        exists ds,
          get_nachrichtenformat_dirs (Some (Dir entries)) = Return ds
          /\ (forall d, In d ds <-> In d (map fst entries) /\ has_csv_dir entries d)
          /\ forall SUBMODULE formatversion,
              child SUBMODULE formatversion = Some (Dir entries) ->
              is_formatversion_empty SUBMODULE formatversion
              = Return (List.length ds =? 0)%nat)
  /\ forall SUBMODULE formatversion,
      child SUBMODULE formatversion = None ->
      is_formatversion_empty SUBMODULE formatversion = Return true.
Proof.
  split; [reflexivity|]. split; [reflexivity|]. split.
  - intros entries. unfold get_nachrichtenformat_dirs.
    cbn [path_exists negb iterdir bind child].
    eexists. split; [reflexivity|]. split.
    + intros d. rewrite filter_In. unfold has_csv_dir.
      split.
      * intros [I H]. split; [exact I|]. cbn [child] in H.
        apply andb_true_iff in H. destruct H as [H H3].
        apply andb_true_iff in H. destruct H as [H1 H2].
        destruct (lookup entries d) as [[|sub]|]; try discriminate.
        cbn [child] in H3.
        destruct (lookup sub "csv") as [[|csv]|] eqn:E2; try discriminate.
        exists sub, csv. auto.
      * intros [I (sub & csv & E1 & E2)]. split; [exact I|].
        cbn [child]. rewrite E1. cbn [is_dir child andb]. now rewrite E2.
    + intros SUBMODULE formatversion E. unfold is_formatversion_empty.
      rewrite E. unfold get_nachrichtenformat_dirs.
      cbn [path_exists negb iterdir bind child]. reflexivity.
  - intros SUBMODULE formatversion E. unfold is_formatversion_empty. now rewrite E.
Qed.

Lemma X3_message_formats_have_csv_dir_witness :
  exists ds,
    get_nachrichtenformat_dirs (Some (Dir [])) = Return ds
    /\ is_formatversion_empty example_tree "FV2410" = Return (List.length ds =? 0)%nat.
Proof.
  destruct (proj1 (proj2 (proj2 X3_message_formats_have_csv_dir)) []) as (ds & E & _ & H).
  exists ds. split; [exact E|]. apply H. reflexivity.
Defined.

(* ================================================================== *)
(** ** Runs of the alignment loop *)

Section Runs.

Variables segments_old segments_new : list cell.

Local Abbreviation loop := (align_loop decide segments_old segments_new).

(** Past the end of the previous keys every turn decides [NEW]. *)
Lemma run_new_tail (r : nat) :
  forall (fuel i j : nat) (acc : list decision),
    List.length segments_old <= i ->
    List.length segments_new - j = r ->
    r < fuel ->
    loop fuel (mkState i j acc) = Return (acc ++ map new_decision (seq j r)).
Proof.
  induction r as [|r IH]; intros fuel i j acc Hi Hr F;
    (destruct fuel as [|fuel]; [lia|]); cbn [align_loop].
  - assert (loop_test segments_old segments_new (mkState i j acc) = false) as ->.
    { unfold loop_test. cbn [cur_i cur_j]. apply orb_false_iff.
      split; apply Nat.ltb_ge; lia. }
    simpl. now rewrite app_nil_r.
  - assert (loop_test segments_old segments_new (mkState i j acc) = true) as ->.
    { unfold loop_test. cbn [cur_i cur_j]. apply orb_true_iff.
      right. apply Nat.ltb_lt. lia. }
    unfold loop_body. cbn [cur_i cur_j result_rows].
    apply Nat.leb_le in Hi. rewrite Hi. unfold decide at 1. cbn [bind].
    apply Nat.leb_le in Hi.
    rewrite (IH fuel i (j + 1)) by lia.
    rewrite <- app_assoc. cbn [seq map app]. now rewrite Nat.add_1_r.
Qed.

(** Past the end of the subsequent keys every turn decides [REMOVED]. *)
Lemma run_removed_tail (r : nat) :
  forall (fuel i j : nat) (acc : list decision),
    List.length segments_new <= j ->
    List.length segments_old - i = r ->
    r < fuel ->
    loop fuel (mkState i j acc) = Return (acc ++ map removed_decision (seq i r)).
Proof.
  induction r as [|r IH]; intros fuel i j acc Hj Hr F;
    (destruct fuel as [|fuel]; [lia|]); cbn [align_loop].
  - assert (loop_test segments_old segments_new (mkState i j acc) = false) as ->.
    { unfold loop_test. cbn [cur_i cur_j]. apply orb_false_iff.
      split; apply Nat.ltb_ge; lia. }
    simpl. now rewrite app_nil_r.
  - assert (loop_test segments_old segments_new (mkState i j acc) = true) as ->.
    { unfold loop_test. cbn [cur_i cur_j]. apply orb_true_iff.
      left. apply Nat.ltb_lt. lia. }
    unfold loop_body. cbn [cur_i cur_j result_rows].
    assert ((List.length segments_old <=? i)%nat = false) as -> by (apply Nat.leb_gt; lia).
    apply Nat.leb_le in Hj. rewrite Hj. unfold decide at 1. cbn [bind].
    apply Nat.leb_le in Hj.
    rewrite (IH fuel (i + 1) j) by lia.
    rewrite <- app_assoc. cbn [seq map app]. now rewrite Nat.add_1_r.
Qed.

End Runs.

(** Two key sequences that start with the same keys: the loop pairs the
    rows of the common start, one turn each. *)
Lemma run_common_prefix (ks : list string) (a b : list cell) (d : nat) :
  forall (fuel k : nat) (acc : list decision),
    List.length ks - k = d -> k <= List.length ks ->
    align_loop decide (map Some ks ++ a) (map Some ks ++ b) (fuel + d) (mkState k k acc)
    = align_loop decide (map Some ks ++ a) (map Some ks ++ b) fuel
        (mkState (List.length ks) (List.length ks) (acc ++ unchanged_run k d)).
Proof.
  induction d as [|d IH]; intros fuel k acc Hd Hk.
  - rewrite Nat.add_0_r. replace k with (List.length ks) by lia.
    unfold unchanged_run. simpl. now rewrite app_nil_r.
  - rewrite Nat.add_succ_r. cbn [align_loop].
    assert (k < List.length ks) as Lk by lia.
    destruct (nth_error ks k) as [x|] eqn:Ex.
    2:{ apply nth_error_None in Ex. lia. }
    assert (forall c, nth_error (map Some ks ++ c) k = Some (Some x)) as N.
    { intros c. rewrite nth_error_app1 by (rewrite length_map; lia).
      now rewrite nth_error_map, Ex. }
    assert (forall c, (List.length (map Some ks ++ c) <=? k)%nat = false) as L.
    { intros c. apply Nat.leb_gt. rewrite length_app, length_map. lia. }
    assert (loop_test (map Some ks ++ a) (map Some ks ++ b) (mkState k k acc) = true) as ->.
    { unfold loop_test. cbn [cur_i cur_j]. apply orb_true_iff. left.
      apply Nat.ltb_lt. rewrite length_app, length_map. lia. }
    unfold loop_body. cbn [cur_i cur_j result_rows].
    rewrite !L, !N. cbn [py_eq]. rewrite String.eqb_refl.
    unfold decide at 1. cbn [bind].
    rewrite (IH fuel (k + 1)) by lia.
    rewrite <- app_assoc. unfold unchanged_run. cbn [seq map app].
    now rewrite Nat.add_1_r.
Qed.

(** The decisions for two key sequences of which one continues the
    other. *)
Lemma common_start_then_rest (ks : list string) (extra : list cell) (fuel : nat) :
  List.length ks + List.length extra < fuel ->
  align_decisions fuel (map Some ks) (map Some ks ++ extra)
  = Return (unchanged_run 0 (List.length ks)
              ++ map new_decision (seq (List.length ks) (List.length extra)))
  /\ align_decisions fuel (map Some ks ++ extra) (map Some ks)
     = Return (unchanged_run 0 (List.length ks)
                 ++ map removed_decision (seq (List.length ks) (List.length extra))).
Proof.
  intros F. unfold align_decisions.
  replace fuel with ((fuel - List.length ks) + List.length ks) by lia.
  split.
  - rewrite <- (app_nil_r (map Some ks)) at 1.
    rewrite run_common_prefix by lia. rewrite app_nil_r. cbn [app].
    apply run_new_tail; try lia.
    + now rewrite length_map.
    + rewrite length_app, length_map, Nat.add_comm. apply Nat.add_sub.
  - rewrite <- (app_nil_r (map Some ks)) at 2.
    rewrite run_common_prefix by lia. rewrite app_nil_r. cbn [app].
    apply run_removed_tail; try lia.
    + now rewrite length_map.
    + rewrite length_app, length_map, Nat.add_comm. apply Nat.add_sub.
Qed.

(** X4: when the subsequent keys are the previous keys followed by more
    rows, the loop pairs every previous row with the row of the same
    index as unchanged and then decides [NEW] for every further row;
    when the previous keys are the subsequent keys followed by more rows
    it decides [REMOVED] for the further rows.  The further rows may
    hold any keys; with none, two equal sequences give unchanged rows
    only. *)
Theorem X4_common_start_then_rest (ks : list string) (extra : list cell) (fuel : nat) :
  List.length ks + List.length extra < fuel ->
  align_decisions fuel (map Some ks) (map Some ks ++ extra)
  = Return (unchanged_run 0 (List.length ks)
              ++ map new_decision (seq (List.length ks) (List.length extra)))
  /\ align_decisions fuel (map Some ks ++ extra) (map Some ks)
     = Return (unchanged_run 0 (List.length ks)
                 ++ map removed_decision (seq (List.length ks) (List.length extra))).
Proof. apply common_start_then_rest. Qed.

Lemma X4_common_start_then_rest_witness :
  align_decisions 4 [Some "UNH"; Some "BGM"] [Some "UNH"; Some "BGM"; Some "UNT"]
  = Return [unchanged_decision 0 0; unchanged_decision 1 1; new_decision 2].
Proof.
  apply (X4_common_start_then_rest ["UNH"; "BGM"] [Some "UNT"] 4). simpl. lia.
Defined.

(* ================================================================== *)
(** ** The merged table as a whole *)

(** Whatever table [align_columns] returns is the table of a sequence of
    decisions that covers the rows of both inputs, each once and in
    order. *)
Lemma align_columns_decisions (previous subsequent : DataFrame) (pfv sfv : string)
  (fuel : nat) (df : DataFrame) :
  well_formed previous pfv -> well_formed subsequent sfv ->
  NoDup (column_order previous subsequent pfv sfv) ->
  align_columns fuel previous subsequent pfv sfv = Return df ->
  exists (final : bool) (ds : list decision),
    df = mkDataFrame (column_order previous subsequent pfv sfv)
           (map (fun d => map (post final) (merged_values previous subsequent d)) ds)
    /\ previous_rows ds = seq 0 (len previous)
    /\ subsequent_rows ds = seq 0 (len subsequent)
    /\ Forall (well_tagged (key_cells previous) (key_cells subsequent)) ds.
Proof.
  intros wp ws nd H. rewrite (align_columns_spec _ _ _ _ wp ws nd) in H.
  assert (forall l : list decision,
             map (merged_values previous subsequent) l
             = map (fun d => map (post false) (merged_values previous subsequent d)) l) as Id.
  { intros l. apply map_ext. intros d. unfold post. now rewrite map_id. }
  destruct (empty previous) eqn:Ep, (empty subsequent) eqn:Es; cbn [andb] in H.
  - exists false, []. inv H.
    rewrite (empty_true_len _ _ wp Ep), (empty_true_len _ _ ws Es). simpl. auto.
  - exists false, (map new_decision (seq 0 (len subsequent))). inv H.
    rewrite previous_rows_new, subsequent_rows_new, (empty_true_len _ _ wp Ep), Id.
    repeat split; auto.
    apply Forall_forall. intros d Hd. apply in_map_iff in Hd as (j & <- & Hj).
    apply in_seq in Hj. constructor. rewrite length_key_cells. lia.
  - exists false, (map removed_decision (seq 0 (len previous))). inv H.
    rewrite previous_rows_removed, subsequent_rows_removed, (empty_true_len _ _ ws Es), Id.
    repeat split; auto.
    apply Forall_forall. intros d Hd. apply in_map_iff in Hd as (i & <- & Hi).
    apply in_seq in Hi. constructor. rewrite length_key_cells. lia.
  - destruct (align_decisions fuel (key_cells previous) (key_cells subsequent))
      as [ds| |] eqn:E; try discriminate.
    inv H. exists true, ds. split; [reflexivity|].
    unfold align_decisions in E.
    destruct (align_loop_sound (key_cells previous) (key_cells subsequent) fuel
                (mkState 0 0 []) ds (Nat.le_0_l _) (Nat.le_0_l _) E)
      as (ds' & -> & P & S & W).
    cbn [cur_i cur_j result_rows app] in *.
    rewrite Nat.sub_0_r, length_key_cells in P, S. auto.
Qed.

(** The tags of a sequence of decisions count the rows it covers. *)
Lemma count_tags (segments_old segments_new : list cell) (ds : list decision) :
  Forall (well_tagged segments_old segments_new) ds ->
  List.length (previous_rows ds) = count_tag ds "" + count_tag ds "REMOVED"
  /\ List.length (subsequent_rows ds) = count_tag ds "" + count_tag ds "NEW"
  /\ List.length ds = count_tag ds "" + count_tag ds "REMOVED" + count_tag ds "NEW".
Proof.
  induction 1 as [|d ds W _ IH]; [now simpl|].
  destruct IH as (P & S & L). unfold count_tag in *.
  destruct W; simpl; rewrite ?P, ?S, ?L; lia.
Qed.

(** The tag column of the merged table holds the tags of the decisions. *)
Lemma count_diff_decisions (previous subsequent : DataFrame) (pfv sfv : string)
  (final : bool) (ds : list decision) (tag : string) :
  NoDup (column_order previous subsequent pfv sfv) ->
  Forall (well_tagged (key_cells previous) (key_cells subsequent)) ds ->
  count_diff (mkDataFrame (column_order previous subsequent pfv sfv)
                (map (fun d => map (post final) (merged_values previous subsequent d)) ds))
             tag
  = count_tag ds tag.
Proof.
  intros nd W. unfold count_diff, count_tag. cbn [columns values].
  induction W as [|d ds Wd _ IH]; [reflexivity|].
  cbn [map filter]. rewrite (row_get_diff _ _ _ _ nd).
  assert (post final (Some (snd d)) = Some (snd d)) as ->
      by (destruct Wd, final; reflexivity).
  cbn [cell_eqb]. destruct (String.eqb (snd d) tag); cbn [List.length]; now rewrite IH.
Qed.

(** X5: when no key is missing on at least one side and the tables are
    well formed, [align_columns] returns within [len previous + len
    subsequent] turns of the loop; the rows of the table it returns
    cover every row of the previous table and every row of the
    subsequent table exactly once and in their order, each row is an
    unchanged pair with equal keys, a [NEW] row or a [REMOVED] row, and
    there are at most [len previous + len subsequent] of them. *)
Theorem X5_alignment_returns_and_covers (previous subsequent : DataFrame) (pfv sfv : string)
  (fuel : nat) :
  well_formed previous pfv -> well_formed subsequent sfv ->
  NoDup (column_order previous subsequent pfv sfv) ->
  keys_present (key_cells previous) \/ keys_present (key_cells subsequent) ->
  len previous + len subsequent < fuel ->
  exists (final : bool) (ds : list decision),
    align_columns fuel previous subsequent pfv sfv
    = Return (mkDataFrame (column_order previous subsequent pfv sfv)
                (map (fun d => map (post final) (merged_values previous subsequent d)) ds))
    /\ previous_rows ds = seq 0 (len previous)
    /\ subsequent_rows ds = seq 0 (len subsequent)
    /\ Forall (well_tagged (key_cells previous) (key_cells subsequent)) ds
    /\ List.length ds <= len previous + len subsequent.
Proof. apply align_columns_covers. Qed.

Lemma X5_alignment_returns_and_covers_witness :
  exists (final : bool) (ds : list decision),
    align_columns 7 example_previous example_subsequent "FV2404" "FV2410"
    = Return (mkDataFrame (column_order example_previous example_subsequent "FV2404" "FV2410")
                (map (fun d => map (post final)
                                 (merged_values example_previous example_subsequent d)) ds))
    /\ previous_rows ds = [0; 1; 2]
    /\ subsequent_rows ds = [0; 1; 2]
    /\ Forall (well_tagged (key_cells example_previous) (key_cells example_subsequent)) ds
    /\ List.length ds <= 6.
Proof.
  apply (X5_alignment_returns_and_covers example_previous example_subsequent
           "FV2404" "FV2410" 7).
  - well_formed_table.
  - well_formed_table.
  - nodup_strings.
  - left. repeat constructor; discriminate.
  - unfold len. simpl. lia.
Defined.

(** X6: in every table [align_columns] returns for well-formed inputs,
    the unchanged rows and the [REMOVED] rows together are as many as
    the rows of the previous table, the unchanged rows and the [NEW]
    rows together as many as the rows of the subsequent table, and there
    is no row with another tag. *)
Theorem X6_tags_count_the_rows (previous subsequent : DataFrame) (pfv sfv : string)
  (fuel : nat) (df : DataFrame) :
  well_formed previous pfv -> well_formed subsequent sfv ->
  NoDup (column_order previous subsequent pfv sfv) ->
  align_columns fuel previous subsequent pfv sfv = Return df ->
  count_diff df "" + count_diff df "REMOVED" = len previous
  /\ count_diff df "" + count_diff df "NEW" = len subsequent
  /\ len df = count_diff df "" + count_diff df "REMOVED" + count_diff df "NEW".
Proof.
  intros wp ws nd H.
  destruct (align_columns_decisions _ _ _ _ _ _ wp ws nd H) as (final & ds & -> & P & S & W).
  rewrite !(count_diff_decisions _ _ _ _ _ _ _ nd W).
  destruct (count_tags _ _ _ W) as (CP & CS & CL).
  rewrite P in CP. rewrite S in CS. rewrite length_seq in CP, CS.
  unfold len at 3. cbn [values]. rewrite length_map. auto.
Qed.

Lemma X6_tags_count_the_rows_witness :
  exists df,
    align_columns 7 example_previous example_subsequent "FV2404" "FV2410" = Return df
    /\ count_diff df "" + count_diff df "REMOVED" = 3
    /\ count_diff df "" + count_diff df "NEW" = 3
    /\ len df = count_diff df "" + count_diff df "REMOVED" + count_diff df "NEW".
Proof.
  eexists. split; [vm_compute; reflexivity|].
  apply (X6_tags_count_the_rows example_previous example_subsequent "FV2404" "FV2410" 7).
  - well_formed_table.
  - well_formed_table.
  - nodup_strings.
  - vm_compute. reflexivity.
Defined.

(** X7: two well-formed tables with the same keys in the same order and
    no key missing give one unchanged row for each key, in order: the
    cells of the previous row, an empty tag, the cells of the subsequent
    row, every cell as text. *)
Theorem X7_equal_keys_give_unchanged_rows (previous subsequent : DataFrame)
  (pfv sfv : string) (ks : list string) (fuel : nat) :
  well_formed previous pfv -> well_formed subsequent sfv ->
  NoDup (column_order previous subsequent pfv sfv) ->
  key_cells previous = map Some ks ->
  key_cells subsequent = map Some ks ->
  List.length ks < fuel ->
  align_columns fuel previous subsequent pfv sfv
  = Return (mkDataFrame (column_order previous subsequent pfv sfv)
              (map (fun i => map finalize
                               (side_values previous i ++ [Some ""] ++ side_values subsequent i))
                   (seq 0 (List.length ks)))).
Proof.
  intros wp ws nd Kp Ks F. rewrite (align_columns_spec _ _ _ _ wp ws nd).
  rewrite (well_formed_not_empty _ _ wp), (well_formed_not_empty _ _ ws), Kp, Ks.
  rewrite length_map.
  destruct ks as [|k ks]; [reflexivity|].
  cbn [List.length Nat.eqb andb].
  destruct (common_start_then_rest (k :: ks) [] fuel) as [E _].
  { cbn [List.length] in *. lia. }
  rewrite app_nil_r in E. rewrite E. cbn [seq map List.length app].
  rewrite app_nil_r. unfold unchanged_run. rewrite map_map. reflexivity.
Qed.

Lemma X7_equal_keys_give_unchanged_rows_witness :
  align_columns 2 (one_row "UNH" (Some "Muss")) (one_row "UNH" None) "FV2404" "FV2410"
  = Return (mkDataFrame
              ["Segmentname_FV2404"; "Bedingung_FV2404"; "diff";
               "Segmentname_FV2410"; "Bedingung_FV2410"]
              [[Some "UNH"; Some "Muss"; Some ""; Some "UNH"; Some ""]]).
Proof.
  apply (X7_equal_keys_give_unchanged_rows
           (one_row "UNH" (Some "Muss")) (one_row "UNH" None) "FV2404" "FV2410" ["UNH"] 2).
  - well_formed_table.
  - well_formed_table.
  - nodup_strings.
  - reflexivity.
  - reflexivity.
  - simpl. lia.
Defined.

(* ================================================================== *)
(** ** Tables without key column, and missing cells *)

Lemma index_of_absent (c : string) (l : list string) : ~ In c l -> index_of c l = None.
Proof.
  induction l as [|y l IH]; simpl; [reflexivity|].
  intros H. destruct (String.eqb y c) eqn:E.
  - apply String.eqb_eq in E. tauto.
  - rewrite IH; tauto.
Qed.

Lemma rename_absent (t : DataFrame) (old new : string) :
  ~ In old (columns t) -> rename t old new = t.
Proof.
  destruct t as [cols rows]. unfold rename. cbn [columns values]. intros H. f_equal.
  induction cols as [|c cols IH]; [reflexivity|].
  cbn [map]. destruct (String.eqb c old) eqn:E.
  - apply String.eqb_eq in E. simpl in H. tauto.
  - f_equal. apply IH. simpl in H. tauto.
Qed.

(** The key of a row of a table without key column cannot be read. *)
Lemma create_row_no_key_previous (df_old df_new : DataFrame) (pfv sfv : string)
  (i : nat) (j : option nat) :
  ~ In (key_column pfv) (columns df_old) -> i < len df_old ->
  create_row (Some df_old) (Some df_new) (Some i) j pfv sfv = Raise (KeyError (key_column pfv)).
Proof.
  intros A L. unfold create_row. cbn [_populate_row_values]. unfold iloc.
  destruct (nth_error (values df_old) i) eqn:E.
  2:{ apply nth_error_None in E. unfold len in L. lia. }
  now rewrite (index_of_absent _ _ A).
Qed.

Lemma create_row_no_key_subsequent (df_old df_new : DataFrame) (pfv sfv : string)
  (j : nat) :
  ~ In (key_column sfv) (columns df_new) -> j < len df_new ->
  create_row (Some df_old) (Some df_new) None (Some j) pfv sfv = Raise (KeyError (key_column sfv)).
Proof.
  intros A L. unfold create_row. cbn [_populate_row_values bind]. unfold iloc.
  destruct (nth_error (values df_new) j) eqn:E.
  2:{ apply nth_error_None in E. unfold len in L. lia. }
  now rewrite (index_of_absent _ _ A).
Qed.

(** A table with rows but without key column. *)
Lemma missing_key_column_raises :
  (forall (previous subsequent : DataFrame) (pfv sfv : string) (fuel : nat),
      ~ In "Segmentname" (columns previous) ->
      ~ In (key_column pfv) (columns previous) ->
      empty previous = false ->
      align_columns fuel previous subsequent pfv sfv = Raise (KeyError (key_column pfv)))
  /\ (forall (previous subsequent : DataFrame) (pfv sfv : string) (fuel : nat),
         well_formed previous pfv ->
         ~ In "Segmentname" (columns subsequent) ->
         ~ In (key_column sfv) (columns subsequent) ->
         empty subsequent = false ->
         align_columns fuel previous subsequent pfv sfv = Raise (KeyError (key_column sfv))).
Proof.
  split; intros previous subsequent pfv sfv fuel.
  - intros A B Ep. unfold align_columns.
    rewrite (rename_absent previous) by exact A.
    rewrite Ep, empty_rename. cbn [andb].
    destruct (empty subsequent).
    + pose proof (empty_false_len _ Ep) as L.
      destruct (len previous) as [|n] eqn:El; [lia|].
      cbn [seq mapM]. rewrite create_row_no_key_previous; [reflexivity|exact B|lia].
    + unfold column_tolist. now rewrite (index_of_absent _ _ B).
  - intros wp A B Es. unfold align_columns.
    rewrite (rename_absent subsequent) by exact A.
    rewrite Es, empty_rename, andb_false_r.
    destruct (empty previous).
    + pose proof (empty_false_len _ Es) as L.
      destruct (len subsequent) as [|n] eqn:El; [lia|].
      cbn [seq mapM]. rewrite create_row_no_key_subsequent; [reflexivity|exact B|lia].
    + rewrite (column_tolist_key _ _ wp). cbn [bind].
      unfold column_tolist. now rewrite (index_of_absent _ _ B).
Qed.

(** X8: a previous table with rows and columns but neither a column
    [Segmentname] nor one with the name the key column is renamed to
    makes [align_columns] raise [KeyError] with that name, whatever the
    subsequent table is; so does a subsequent table of this kind when
    the previous table is well formed.  No table is returned. *)
Theorem X8_missing_key_column_raises :
  (forall (previous subsequent : DataFrame) (pfv sfv : string) (fuel : nat),
      ~ In "Segmentname" (columns previous) ->
      ~ In (key_column pfv) (columns previous) ->
      empty previous = false ->
      align_columns fuel previous subsequent pfv sfv = Raise (KeyError (key_column pfv)))
  /\ (forall (previous subsequent : DataFrame) (pfv sfv : string) (fuel : nat),
         well_formed previous pfv ->
         ~ In "Segmentname" (columns subsequent) ->
         ~ In (key_column sfv) (columns subsequent) ->
         empty subsequent = false ->
         align_columns fuel previous subsequent pfv sfv = Raise (KeyError (key_column sfv))).
Proof. exact missing_key_column_raises. Qed.

Lemma X8_missing_key_column_raises_witness :
  align_columns 7 no_key_table example_subsequent "FV2404" "FV2410"
  = Raise (KeyError "Segmentname_FV2404").
Proof.
  apply (proj1 X8_missing_key_column_raises no_key_table example_subsequent
           "FV2404" "FV2410" 7).
  - simpl. intuition discriminate.
  - simpl. intuition discriminate.
  - reflexivity.
Defined.

Lemma finalize_text (v : cell) : exists s, finalize v = Some s /\ s <> "nan".
Proof.
  destruct v as [s|]; unfold finalize, astype_str, replace.
  - destruct (String.eqb s "nan") eqn:E.
    + exists "". split; [reflexivity|discriminate].
    + exists s. split; [reflexivity|]. now apply String.eqb_neq.
  - exists "". split; [reflexivity|discriminate].
Qed.

(** X9: the table [align_columns] returns for two well-formed tables
    that both have rows holds a text in every cell, none of them
    missing, and none of them the text [nan]. *)
Theorem X9_loop_table_holds_text_only (previous subsequent : DataFrame) (pfv sfv : string)
  (fuel : nat) (df : DataFrame) :
  well_formed previous pfv -> well_formed subsequent sfv ->
  NoDup (column_order previous subsequent pfv sfv) ->
  empty previous = false -> empty subsequent = false ->
  align_columns fuel previous subsequent pfv sfv = Return df ->
  Forall (Forall (fun c : cell => exists s, c = Some s /\ s <> "nan")) (values df).
Proof.
  intros wp ws nd Ep Es H. rewrite (align_columns_spec _ _ _ _ wp ws nd), Ep, Es in H.
  cbn [andb] in H.
  destruct (align_decisions fuel (key_cells previous) (key_cells subsequent))
    as [ds| |]; try discriminate.
  inv H. cbn [values]. apply Forall_forall. intros row Hrow.
  apply in_map_iff in Hrow as (d & <- & _).
  apply Forall_forall. intros c Hc. apply in_map_iff in Hc as (v & <- & _).
  apply finalize_text.
Qed.

Lemma X9_loop_table_holds_text_only_witness :
  exists df,
    align_columns 7 example_previous example_subsequent "FV2404" "FV2410" = Return df
    /\ Forall (Forall (fun c : cell => exists s, c = Some s /\ s <> "nan")) (values df).
Proof.
  eexists. split; [vm_compute; reflexivity|].
  apply (X9_loop_table_holds_text_only example_previous example_subsequent
           "FV2404" "FV2410" 7).
  - well_formed_table.
  - well_formed_table.
  - nodup_strings.
  - reflexivity.
  - reflexivity.
  - vm_compute. reflexivity.
Defined.

(* ================================================================== *)
(** ** The order of names, and [sorted] *)

Lemma string_lt_trans (s1 : string) :
  forall s2 s3 : string,
    String.compare s1 s2 = Lt -> String.compare s2 s3 = Lt -> String.compare s1 s3 = Lt.
Proof.
  induction s1 as [|c1 s1 IH]; intros [|c2 s2] [|c3 s3]; simpl; try congruence.
  destruct (Ascii.compare c1 c2) eqn:E12; try discriminate;
    destruct (Ascii.compare c2 c3) eqn:E23; try discriminate; intros H1 H2.
  - apply Ascii.compare_eq_iff in E12, E23. subst.
    assert (Ascii.compare c3 c3 = Eq) as -> by (unfold Ascii.compare; apply N.compare_refl).
    eauto.
  - apply Ascii.compare_eq_iff in E12. subst. now rewrite E23.
  - apply Ascii.compare_eq_iff in E23. subst. now rewrite E12.
  - unfold Ascii.compare in *. rewrite N.compare_lt_iff in E12, E23.
    assert (N.compare (N_of_ascii c1) (N_of_ascii c3) = Lt) as ->; [|reflexivity].
    apply N.compare_lt_iff. lia.
Qed.

Lemma string_compare_refl (s : string) : String.compare s s = Eq.
Proof.
  induction s as [|c s IH]; simpl; [reflexivity|].
  assert (Ascii.compare c c = Eq) as -> by (unfold Ascii.compare; apply N.compare_refl).
  exact IH.
Qed.

Lemma ltb_irrefl (s : string) : String.ltb s s = false.
Proof. unfold String.ltb. now rewrite string_compare_refl. Qed.

Lemma ltb_trans (a b c : string) :
  String.ltb a b = true -> String.ltb b c = true -> String.ltb a c = true.
Proof.
  unfold String.ltb. intros H1 H2.
  destruct (String.compare a b) eqn:E1; try discriminate.
  destruct (String.compare b c) eqn:E2; try discriminate.
  now rewrite (string_lt_trans _ _ _ E1 E2).
Qed.

Lemma leb_refl (s : string) : String.leb s s = true.
Proof. unfold String.leb. now rewrite string_compare_refl. Qed.

Lemma ltb_leb (a b : string) : String.ltb a b = true -> String.leb a b = true.
Proof. unfold String.ltb, String.leb. now destruct (String.compare a b). Qed.

Lemma ltb_false_leb (a b : string) : String.ltb a b = false -> String.leb b a = true.
Proof.
  unfold String.ltb, String.leb. rewrite (String.compare_antisym a b).
  now destruct (String.compare b a).
Qed.

Lemma leb_ltb (a b : string) : String.leb a b = true -> a <> b -> String.ltb a b = true.
Proof.
  unfold String.ltb, String.leb. intros H N.
  destruct (String.compare a b) eqn:E; try discriminate; [|reflexivity].
  apply String.compare_eq_iff in E. contradiction.
Qed.

Lemma leb_trans (a b c : string) :
  String.leb a b = true -> String.leb b c = true -> String.leb a c = true.
Proof.
  intros H1 H2.
  destruct (string_dec a b) as [->|N1]; [exact H2|].
  destruct (string_dec b c) as [->|N2]; [exact H1|].
  apply ltb_leb. eapply ltb_trans; eauto using leb_ltb.
Qed.

(** Lists in ascending order, and in strictly ascending order. *)
Local Abbreviation ascending := (StronglySorted (fun a b : string => String.leb a b = true)).
Local Abbreviation strictly_ascending :=
  (StronglySorted (fun a b : string => String.ltb a b = true)).

Lemma insert_asc_In (x y : string) (l : list string) :
  In y (insert_asc x l) <-> y = x \/ In y l.
Proof.
  induction l as [|z l IH]; simpl; [intuition|].
  destruct (String.ltb z x); simpl; rewrite ?IH; intuition.
Qed.

Lemma insert_asc_ascending (x : string) (l : list string) :
  ascending l -> ascending (insert_asc x l).
Proof.
  induction 1 as [|z l S IH F]; simpl; [repeat constructor|].
  destruct (String.ltb z x) eqn:E.
  - constructor; [exact IH|].
    apply Forall_forall. intros y Hy. apply insert_asc_In in Hy as [->|Hy].
    + now apply ltb_leb.
    + rewrite Forall_forall in F. auto.
  - apply ltb_false_leb in E. constructor; [now constructor|].
    constructor; [exact E|].
    apply Forall_forall. intros y Hy. rewrite Forall_forall in F.
    eapply leb_trans; eauto.
Qed.

Lemma insert_asc_perm (x : string) (l : list string) : Permutation (x :: l) (insert_asc x l).
Proof.
  induction l as [|z l IH]; simpl; [reflexivity|].
  destruct (String.ltb z x); [|reflexivity].
  rewrite perm_swap. now constructor.
Qed.

Lemma sorted_perm (l : list string) : Permutation l (sorted l).
Proof.
  induction l as [|x l IH]; simpl; [constructor|].
  rewrite <- insert_asc_perm. now constructor.
Qed.

Lemma sorted_ascending (l : list string) : ascending (sorted l).
Proof.
  induction l as [|x l IH]; simpl; [constructor|]. now apply insert_asc_ascending.
Qed.

Lemma sorted_In (x : string) (l : list string) : In x (sorted l) <-> In x l.
Proof.
  split; intros H.
  - eapply Permutation_in; [symmetry; apply sorted_perm|exact H].
  - eapply Permutation_in; [apply sorted_perm|exact H].
Qed.

Lemma sorted_NoDup (l : list string) : NoDup l -> NoDup (sorted l).
Proof. intros H. eapply Permutation_NoDup; [apply sorted_perm|exact H]. Qed.

Lemma ascending_strictly (l : list string) :
  ascending l -> NoDup l -> strictly_ascending l.
Proof.
  induction 1 as [|x l S IH F]; intros N; [constructor|].
  inv N. constructor; [auto|].
  rewrite Forall_forall in *. intros y Hy. apply leb_ltb; [auto|].
  intros ->. contradiction.
Qed.

Lemma dedup_is_NoDup (l : list string) : NoDup (dedup l).
Proof.
  induction l as [|x l IH]; simpl; constructor.
  - rewrite filter_In, negb_true_iff, String.eqb_neq. tauto.
  - now apply NoDup_filter.
Qed.

(** [sorted(set(a) & set(b))]: the names of both lists, each once, in
    strictly ascending order. *)
Lemma sorted_common_In (a b : list string) (x : string) :
  In x (sorted_common a b) <-> In x a /\ In x b.
Proof.
  unfold sorted_common. rewrite sorted_In, In_dedup, filter_In, existsb_exists.
  split.
  - intros (Ha & y & Hy & E). apply String.eqb_eq in E. subst. auto.
  - intros (Ha & Hb). split; [exact Ha|]. exists x. split; [exact Hb|apply String.eqb_refl].
Qed.

Lemma sorted_common_strict (a b : list string) : strictly_ascending (sorted_common a b).
Proof.
  unfold sorted_common. apply ascending_strictly.
  - apply sorted_ascending.
  - apply sorted_NoDup, dedup_is_NoDup.
Qed.

(* ================================================================== *)
(** ** Names of files *)

Lemma length_append (a b : string) :
  String.length (a ++ b) = String.length a + String.length b.
Proof. induction a as [|c a IH]; simpl; [reflexivity|]. now rewrite IH. Qed.

Lemma substring_whole (s : string) : substring 0 (String.length s) s = s.
Proof. induction s as [|c s IH]; simpl; [reflexivity|]. now rewrite IH. Qed.

Lemma substring_append_left (a b : string) : substring 0 (String.length a) (a ++ b) = a.
Proof.
  induction a as [|c a IH]; simpl.
  - now destruct b.
  - now rewrite IH.
Qed.

Lemma substring_append_right (a b : string) :
  substring (String.length a) (String.length b) (a ++ b) = b.
Proof. induction a as [|c a IH]; simpl; [apply substring_whole|exact IH]. Qed.

Lemma substring_split (s : string) :
  forall k, k <= String.length s ->
            s = (substring 0 k s ++ substring k (String.length s - k) s)%string.
Proof.
  induction s as [|c s IH]; intros [|k] H; simpl in *; try reflexivity; try lia.
  - now rewrite substring_whole.
  - rewrite <- IH by lia. reflexivity.
Qed.

(** [endswith] against concatenation. *)
Lemma endswith_append (s suffix : string) :
  endswith s suffix = true <-> exists base, s = (base ++ suffix)%string.
Proof.
  unfold endswith. rewrite andb_true_iff, Nat.leb_le, String.eqb_eq. split.
  - intros [L E].
    exists (substring 0 (String.length s - String.length suffix) s).
    pose proof (substring_split s (String.length s - String.length suffix)
                  (Nat.le_sub_l _ _)) as Sp.
    replace (String.length s - (String.length s - String.length suffix))
      with (String.length suffix) in Sp by lia.
    rewrite E in Sp. exact Sp.
  - intros [base ->]. rewrite length_append. split; [lia|].
    replace (String.length base + String.length suffix - String.length suffix)
      with (String.length base) by lia.
    apply substring_append_right.
Qed.

Lemma rfind_append (c : ascii) (a t : string) :
  rfind c t = None -> rfind c (a ++ String c t) = Some (String.length a).
Proof.
  intros H. induction a as [|x a IH]; simpl.
  - now rewrite H, Ascii.eqb_refl.
  - now rewrite IH.
Qed.

(** The stem of a name that ends in [.csv]. *)
Lemma stem_csv (base : string) :
  stem (base ++ ".csv") = if String.eqb base "" then ".csv"%string else base.
Proof.
  unfold stem. rewrite (rfind_append "." base "csv") by reflexivity.
  rewrite length_append. destruct base as [|c base]; [reflexivity|].
  cbn [String.eqb].
  assert ((0 <? String.length (String c base))%nat = true) as ->
      by (apply Nat.ltb_lt; simpl; lia).
  assert ((String.length (String c base) <? String.length (String c base)
             + String.length ".csv" - 1)%nat = true) as ->
      by (apply Nat.ltb_lt; simpl; lia).
  cbn [andb]. apply substring_append_left.
Qed.

(** X10: the check id of a file is its name without the ending [.csv];
    the name [.csv] alone is its own check id.  So two different files
    [*.csv] of one directory have the same check id only when they are
    [.csv] and [.csv.csv]. *)
Theorem X10_pruefid_of_csv_name :
  (forall name, endswith name ".csv" = true ->
                exists base, name = (base ++ ".csv")%string
                             /\ stem name = if String.eqb base "" then ".csv"%string else base)
  /\ (forall a b, endswith a ".csv" = true -> endswith b ".csv" = true ->
                  stem a = stem b -> a <> b ->
                  (a = ".csv"%string /\ b = ".csv.csv"%string)
                  \/ (a = ".csv.csv"%string /\ b = ".csv"%string)).
Proof.
  split.
  - intros name H. apply endswith_append in H as [base ->].
    exists base. split; [reflexivity|apply stem_csv].
  - intros a b Ha Hb E N.
    apply endswith_append in Ha as [x ->]. apply endswith_append in Hb as [y ->].
    rewrite !stem_csv in E.
    destruct (String.eqb x "") eqn:Ex, (String.eqb y "") eqn:Ey;
      rewrite ?String.eqb_eq in *; subst.
    + contradiction.
    + left. auto.
    + right. auto.
    + contradiction.
Qed.

Lemma X10_pruefid_of_csv_name_witness :
  exists base, "55001.csv"%string = (base ++ ".csv")%string
               /\ stem "55001.csv" = if String.eqb base "" then ".csv"%string else base.
Proof. apply (proj1 X10_pruefid_of_csv_name "55001.csv"). reflexivity. Defined.

(** X11: the files of a [csv] directory.  A missing path and a path that
    is a file have none; of a directory the call returns the names of
    the entries that end in [.csv], each as often as the directory has
    it, in ascending order. *)
Theorem X11_ahb_files_are_sorted_csv_names :
  get_ahb_files None = []
  /\ get_ahb_files (Some File) = []
  /\ forall entries,
      Permutation (filter (fun name => endswith name ".csv") (map fst entries))
                  (get_ahb_files (Some (Dir entries)))
      /\ StronglySorted (fun a b => String.leb a b = true)
                        (get_ahb_files (Some (Dir entries))).
Proof.
  split; [reflexivity|]. split; [reflexivity|].
  intros entries. unfold get_ahb_files. cbn [path_exists negb glob_csv].
  split; [apply sorted_perm|apply sorted_ascending].
Qed.

(* ================================================================== *)
(** ** Dicts of names, and the matching files *)

Lemma getitem_names_set (k v : string) (d : names) (k' : string) :
  getitem (names_set k v d) k' = if String.eqb k k' then Return v else getitem d k'.
Proof.
  unfold getitem. induction d as [|[k0 v0] d IH]; simpl.
  - now destruct (String.eqb k k').
  - destruct (String.eqb k0 k) eqn:E0; simpl.
    + apply String.eqb_eq in E0. subst k0. now destruct (String.eqb k k').
    + destruct (String.eqb k0 k') eqn:E1; [|exact IH].
      apply String.eqb_eq in E1. subst k0. now rewrite String.eqb_sym, E0.
Qed.

Lemma find_app_first {A : Type} (p : A -> bool) (l1 l2 : list A) :
  find p (l1 ++ l2) = match find p l1 with Some v => Some v | None => find p l2 end.
Proof. induction l1 as [|x l1 IH]; simpl; [reflexivity|]. now destruct (p x). Qed.

(** [{key(x): x for x in l}[k]] is the last [x] of [l] with this key. *)
Lemma getitem_fold (key : string -> string) (l : list string) :
  forall (d : names) (k : string),
    getitem (fold_left (fun d x => names_set (key x) x d) l d) k
    = match find (fun x => String.eqb (key x) k) (rev l) with
      | Some v => Return v
      | None => getitem d k
      end.
Proof.
  induction l as [|x l IH]; intros d k; simpl; [reflexivity|].
  rewrite IH, find_app_first, getitem_names_set.
  destruct (find _ (rev l)); [reflexivity|]. simpl.
  now destruct (String.eqb (key x) k).
Qed.

Lemma getitem_by_key (key : string -> string) (l : list string) (k : string) :
  getitem (by_key key l) k
  = match find (fun x => String.eqb (key x) k) (rev l) with
    | Some v => Return v
    | None => Raise (KeyError k)
    end.
Proof. unfold by_key. now rewrite getitem_fold. Qed.

Lemma keys_names_set (k v : string) (d : names) (k' : string) :
  In k' (keys (names_set k v d)) <-> k' = k \/ In k' (keys d).
Proof.
  unfold keys. induction d as [|[k0 v0] d IH]; simpl; [intuition|].
  destruct (String.eqb k0 k) eqn:E; simpl.
  - apply String.eqb_eq in E. subst. intuition.
  - rewrite IH. intuition.
Qed.

Lemma keys_fold (key : string -> string) (l : list string) :
  forall (d : names) (k : string),
    In k (keys (fold_left (fun d x => names_set (key x) x d) l d))
    <-> (exists x, In x l /\ key x = k) \/ In k (keys d).
Proof.
  induction l as [|x l IH]; intros d k; simpl.
  - split; [auto|]. intros [(x & [] & _)|H]; exact H.
  - rewrite IH, keys_names_set. split.
    + intros [(y & Hy & E)|[->|H]]; eauto.
    + intros [(y & [->|Hy] & E)|H]; eauto.
Qed.

Lemma keys_by_key (key : string -> string) (l : list string) (k : string) :
  In k (keys (by_key key l)) <-> exists x, In x l /\ key x = k.
Proof.
  unfold by_key. rewrite keys_fold. simpl. split; [|auto]. now intros [H|[]].
Qed.

(** The last element of an ascending list with a property is the
    greatest one. *)
Lemma find_rev_ascending (p : string -> bool) (l : list string) (v : string) :
  StronglySorted (fun a b : string => String.leb a b = true) l ->
  find p (rev l) = Some v ->
  In v l /\ p v = true /\ forall g, In g l -> p g = true -> String.leb g v = true.
Proof.
  induction 1 as [|a l S IH F]; simpl; [discriminate|].
  rewrite find_app_first. rewrite Forall_forall in F.
  destruct (find p (rev l)) as [w|] eqn:E.
  - intros [= ->]. destruct (IH eq_refl) as (I & P & M).
    split; [auto|]. split; [exact P|].
    intros g [<-|Hg] Pg; auto.
  - simpl. destruct (p a) eqn:Pa; [|discriminate]. intros [= ->].
    split; [auto|]. split; [exact Pa|].
    intros g [<-|Hg] Pg; [apply leb_refl|].
    apply in_rev in Hg. eapply find_none in E; [|exact Hg]. congruence.
Qed.

Lemma find_rev_exists (p : string -> bool) (l : list string) (x : string) :
  In x l -> p x = true -> exists v, find p (rev l) = Some v.
Proof.
  intros I P. destruct (find p (rev l)) as [v|] eqn:E; [eauto|].
  apply in_rev in I. eapply find_none in E; [|exact I]. congruence.
Qed.

(** The file a check id stands for: the greatest file with this stem. *)
Lemma getitem_latest (l : list string) (k f : string) :
  getitem (by_key stem (sorted l)) k = Return f <-> latest_with_stem l k f.
Proof.
  rewrite getitem_by_key. unfold latest_with_stem. split.
  - destruct (find _ (rev (sorted l))) as [v|] eqn:E; [|discriminate].
    intros [= ->].
    destruct (find_rev_ascending _ _ _ (sorted_ascending l) E) as (I & P & M).
    rewrite sorted_In in I. apply String.eqb_eq in P.
    split; [exact I|]. split; [exact P|].
    intros g Hg Sg. apply M; [now rewrite sorted_In|now apply String.eqb_eq].
  - intros (I & P & M).
    destruct (find_rev_exists (fun x => String.eqb (stem x) k) (sorted l) f) as [v E].
    { now rewrite sorted_In. }
    { now apply String.eqb_eq. }
    rewrite E.
    destruct (find_rev_ascending _ _ _ (sorted_ascending l) E) as (Iv & Pv & Mv).
    rewrite sorted_In in Iv. apply String.eqb_eq in Pv.
    f_equal. apply String.leb_antisym.
    + apply M; assumption.
    + apply Mv; [now rewrite sorted_In|now apply String.eqb_eq].
Qed.

Lemma getitem_by_name (l : list string) (k : string) :
  In k l -> getitem (by_key (fun d => d) l) k = Return k.
Proof.
  intros I. rewrite getitem_by_key.
  destruct (find_rev_exists (fun x => String.eqb x k) l k I (String.eqb_refl k)) as [v E].
  rewrite E. apply find_some in E. destruct E as [_ E].
  apply String.eqb_eq in E. now subst.
Qed.

Lemma keys_by_name (l : list string) (k : string) :
  In k (keys (by_key (fun d => d) l)) <-> In k l.
Proof.
  rewrite keys_by_key. split.
  - now intros (x & I & ->).
  - eauto.
Qed.

(** A comprehension whose body returns on every element. *)
Lemma mapM_Forall2 {A B : Type} (f : A -> outcome B) (l : list A) :
  (forall a, In a l -> exists b, f a = Return b) ->
  exists bs, mapM f l = Return bs /\ Forall2 (fun a b => f a = Return b) l bs.
Proof.
  induction l as [|a l IH]; intros H; simpl.
  - exists []. split; [reflexivity|constructor].
  - destruct (H a (or_introl eq_refl)) as [b Eb].
    destruct IH as (bs & E & F); [intros x Hx; apply H; now right|].
    exists (b :: bs). rewrite Eb, E. split; [reflexivity|]. now constructor.
Qed.

Lemma Forall2_In_right {A B : Type} (R : A -> B -> Prop) (l : list A) (bs : list B) (b : B) :
  Forall2 R l bs -> In b bs -> exists a, In a l /\ R a b.
Proof.
  induction 1 as [|a0 b0 l bs Rab F IH]; simpl; [tauto|].
  intros [<-|H]; [eauto|]. destruct (IH H) as (a & I & Ra). eauto.
Qed.

Lemma Forall2_In_left {A B : Type} (R : A -> B -> Prop) (l : list A) (bs : list B) (a : A) :
  Forall2 R l bs -> In a l -> exists b, In b bs /\ R a b.
Proof.
  induction 1 as [|a0 b0 l bs Rab F IH]; simpl; [tauto|].
  intros [<-|H]; [eauto|]. destruct (IH H) as (b & I & Ra). eauto.
Qed.

Lemma StronglySorted_append {A : Type} (R : A -> A -> Prop) (l1 l2 : list A) :
  StronglySorted R l1 -> StronglySorted R l2 ->
  (forall x y, In x l1 -> In y l2 -> R x y) ->
  StronglySorted R (l1 ++ l2).
Proof.
  induction 1 as [|x l1 S IH F]; intros S2 H; simpl; [exact S2|].
  constructor.
  - apply IH; [exact S2|]. intros a b Ha Hb. apply H; [now right|exact Hb].
  - apply Forall_app. split; [exact F|].
    apply Forall_forall. intros y Hy. apply H; [now left|exact Hy].
Qed.

Lemma StronglySorted_by_key {A : Type} (key : A -> string) (l : list string) (bs : list A) :
  Forall2 (fun a b => key b = a) l bs ->
  StronglySorted (fun a b : string => String.ltb a b = true) l ->
  StronglySorted (fun x y => String.ltb (key x) (key y) = true) bs.
Proof.
  induction 1 as [|a b l bs E F IH]; intros S; [constructor|].
  inv S. constructor; [auto|].
  apply Forall_forall. intros y Hy.
  destruct (Forall2_In_right _ _ _ _ F Hy) as (a' & Ia & <-).
  rewrite Forall_forall in H2. auto.
Qed.

(* ================================================================== *)
(** ** [get_matching_files] *)

Lemma get_ahb_files_csv (entries : list (string * node)) (nachrichtentyp : string) :
  has_csv_dir entries nachrichtentyp ->
  get_ahb_files (child (child (Some (Dir entries)) nachrichtentyp) "csv")
  = sorted (csv_files entries nachrichtentyp).
Proof.
  intros (sub & csv & E1 & E2). unfold get_ahb_files, csv_files.
  cbn [child]. rewrite E1. cbn [child]. rewrite E2. reflexivity.
Qed.

Lemma getitem_in_keys (key : string -> string) (l : list string) (k : string) :
  In k (keys (by_key key l)) -> exists v, getitem (by_key key l) k = Return v.
Proof.
  intros H. apply keys_by_key in H as (x & I & E).
  rewrite getitem_by_key.
  destruct (find_rev_exists (fun y => String.eqb (key y) k) l x I) as [v ->];
    [now apply String.eqb_eq|eauto].
Qed.

Lemma latest_in_keys (l : list string) (k f : string) :
  latest_with_stem l k f -> In k (keys (by_key stem (sorted l))).
Proof.
  intros (I & E & _). apply keys_by_key. exists f. split; [now rewrite sorted_In|exact E].
Qed.

Section MatchingStep.

Variables previous_formatversion subsequent_formatversion : string.
Variables previous_entries subsequent_entries : list (string * node).
Variables previous_dirs subsequent_dirs : list string.
Variable nachrichtentyp : string.

Hypothesis previous_has : has_csv_dir previous_entries nachrichtentyp.
Hypothesis subsequent_has : has_csv_dir subsequent_entries nachrichtentyp.
Hypothesis previous_listed : In nachrichtentyp previous_dirs.
Hypothesis subsequent_listed : In nachrichtentyp subsequent_dirs.

(** The matches of one message format: one for each check id of both
    sides, in ascending order. *)
Lemma matching_step_spec :
  exists group,
    matching_step previous_formatversion subsequent_formatversion
      (Some (Dir previous_entries)) (Some (Dir subsequent_entries))
      (by_key (fun d => d) previous_dirs) (by_key (fun d => d) subsequent_dirs)
      nachrichtentyp
    = Return group
    /\ (forall m, In m group <->
                  exists pruefid previous_file subsequent_file,
                    m = ([previous_formatversion; nachrichtentyp; "csv"; previous_file],
                         [subsequent_formatversion; nachrichtentyp; "csv"; subsequent_file],
                         nachrichtentyp, pruefid)
                    /\ latest_with_stem (csv_files previous_entries nachrichtentyp)
                         pruefid previous_file
                    /\ latest_with_stem (csv_files subsequent_entries nachrichtentyp)
                         pruefid subsequent_file)
    /\ StronglySorted (fun x y : path * path * string * string =>
                         String.ltb (snd x) (snd y) = true) group.
Proof.
  unfold matching_step.
  rewrite (getitem_by_name _ _ previous_listed), (getitem_by_name _ _ subsequent_listed).
  cbn [bind].
  rewrite (get_ahb_files_csv _ _ previous_has), (get_ahb_files_csv _ _ subsequent_has).
  set (previous_files := by_key stem (sorted (csv_files previous_entries nachrichtentyp))).
  set (subsequent_files := by_key stem (sorted (csv_files subsequent_entries nachrichtentyp))).
  set (body := fun pruefid : string => _).
  destruct (mapM_Forall2 body (sorted_common (keys previous_files) (keys subsequent_files)))
    as (group & E & F).
  { intros pruefid H. apply sorted_common_In in H as [Hp Hs].
    apply getitem_in_keys in Hp as [pf Ep]. apply getitem_in_keys in Hs as [sf Es].
    unfold body, previous_files, subsequent_files. rewrite Ep, Es. cbn [bind]. eauto. }
  exists group. split; [exact E|]. split.
  - intros m. split.
    + intros H. destruct (Forall2_In_right _ _ _ _ F H) as (pruefid & _ & B).
      unfold body in B.
      destruct (getitem previous_files pruefid) as [pf| |] eqn:Ep; try discriminate.
      destruct (getitem subsequent_files pruefid) as [sf| |] eqn:Es; try discriminate.
      cbn [bind] in B. inv B. exists pruefid, pf, sf.
      split; [reflexivity|]. split; now apply getitem_latest.
    + intros (pruefid & pf & sf & -> & Lp & Ls).
      assert (In pruefid (sorted_common (keys previous_files) (keys subsequent_files))) as I.
      { apply sorted_common_In. split; eapply latest_in_keys; eauto. }
      destruct (Forall2_In_left _ _ _ _ F I) as (m & Im & B).
      apply getitem_latest in Lp, Ls. unfold body, previous_files, subsequent_files in B.
      rewrite Lp, Ls in B. cbn [bind] in B. inv B. exact Im.
  - apply (StronglySorted_by_key (fun m : path * path * string * string => snd m)
             (sorted_common (keys previous_files) (keys subsequent_files))).
    + eapply Forall2_impl; [|exact F]. intros pruefid m B. unfold body in B.
      destruct (getitem previous_files pruefid) as [pf| |]; try discriminate.
      destruct (getitem subsequent_files pruefid) as [sf| |]; try discriminate.
      cbn [bind] in B. now inv B.
    + apply sorted_common_strict.
Qed.

End MatchingStep.

Lemma StronglySorted_In_impl {A : Type} (R R' : A -> A -> Prop) (l : list A) :
  StronglySorted R l ->
  (forall x y, In x l -> In y l -> R x y -> R' x y) ->
  StronglySorted R' l.
Proof.
  induction 1 as [|x l S IH F]; intros H; constructor.
  - apply IH. intros a b Ha Hb. apply H; now right.
  - rewrite Forall_forall in *. intros y Hy. apply H; [now left|now right|auto].
Qed.

Lemma Forall2_In_impl {A B : Type} (R R' : A -> B -> Prop) (l : list A) (bs : list B) :
  Forall2 R l bs -> (forall a b, In a l -> R a b -> R' a b) -> Forall2 R' l bs.
Proof.
  induction 1 as [|a b l bs Rab F IH]; intros H; constructor.
  - apply H; [now left|exact Rab].
  - apply IH. intros x y Hx. apply H. now right.
Qed.

(** Groups of matches, one for each message format in ascending order,
    each in ascending order of the check ids, are in order as a whole. *)
Lemma concat_match_lt (typs : list string) (groups : list (list (path * path * string * string))) :
  Forall2 (fun t g =>
             Forall (fun m : path * path * string * string => snd (fst m) = t) g
             /\ StronglySorted (fun x y : path * path * string * string =>
                                  String.ltb (snd x) (snd y) = true) g)
          typs groups ->
  StronglySorted (fun a b : string => String.ltb a b = true) typs ->
  StronglySorted match_lt (List.concat groups).
Proof.
  induction 1 as [|t g typs groups [T S] F IH]; intros H; simpl; [constructor|].
  inv H. rewrite Forall_forall in T, H3.
  apply StronglySorted_append.
  - apply (StronglySorted_In_impl _ _ _ S). intros x y Hx Hy L.
    right. split; [|exact L]. rewrite (T _ Hx), (T _ Hy). reflexivity.
  - auto.
  - intros x y Hx Hy. apply in_concat in Hy as (g' & Ig & Iy).
    destruct (Forall2_In_right _ _ _ _ F Ig) as (t' & It & [T' _]).
    rewrite Forall_forall in T'. left. rewrite (T _ Hx), (T' _ Iy). auto.
Qed.

(** The matches of two version directories. *)
Lemma get_matching_files_spec
  (root previous_entries subsequent_entries : list (string * node))
  (previous_formatversion subsequent_formatversion : string) :
  lookup root previous_formatversion = Some (Dir previous_entries) ->
  lookup root subsequent_formatversion = Some (Dir subsequent_entries) ->
  exists matching_files,
    get_matching_files (Some (Dir root)) previous_formatversion subsequent_formatversion
    = Return matching_files
    /\ (forall previous_path subsequent_path nachrichtentyp pruefid,
           In (previous_path, subsequent_path, nachrichtentyp, pruefid) matching_files
           <-> has_csv_dir previous_entries nachrichtentyp
               /\ has_csv_dir subsequent_entries nachrichtentyp
               /\ exists previous_file subsequent_file,
                   previous_path
                   = [previous_formatversion; nachrichtentyp; "csv"; previous_file]
                   /\ subsequent_path
                      = [subsequent_formatversion; nachrichtentyp; "csv"; subsequent_file]
                   /\ latest_with_stem (csv_files previous_entries nachrichtentyp)
                        pruefid previous_file
                   /\ latest_with_stem (csv_files subsequent_entries nachrichtentyp)
                        pruefid subsequent_file)
    /\ StronglySorted match_lt matching_files.
Proof.
  intros Hp Hs. unfold get_matching_files. cbn [child]. rewrite Hp, Hs.
  cbn [forallb path_exists andb negb].
  destruct (nachrichtenformat_dirs_spec previous_entries) as (pd & Ep & Ip).
  destruct (nachrichtenformat_dirs_spec subsequent_entries) as (sd & Es & Is).
  rewrite Ep, Es. cbn [bind].
  set (common := sorted_common _ _).
  assert (forall t, In t common <-> has_csv_dir previous_entries t
                                    /\ has_csv_dir subsequent_entries t) as Ic.
  { intros t. unfold common. now rewrite sorted_common_In, !keys_by_name, Ip, Is. }
  assert (forall t, In t common ->
            exists g,
              matching_step previous_formatversion subsequent_formatversion
                (Some (Dir previous_entries)) (Some (Dir subsequent_entries))
                (by_key (fun d => d) pd) (by_key (fun d => d) sd) t = Return g
              /\ (forall m, In m g <->
                    exists pruefid previous_file subsequent_file,
                      m = ([previous_formatversion; t; "csv"; previous_file],
                           [subsequent_formatversion; t; "csv"; subsequent_file],
                           t, pruefid)
                      /\ latest_with_stem (csv_files previous_entries t) pruefid previous_file
                      /\ latest_with_stem (csv_files subsequent_entries t)
                           pruefid subsequent_file)
              /\ StronglySorted (fun x y : path * path * string * string =>
                                   String.ltb (snd x) (snd y) = true) g) as Step.
  { intros t H. apply Ic in H as [H1 H2].
    apply matching_step_spec; auto; [now apply Ip|now apply Is]. }
  destruct (mapM_Forall2
              (matching_step previous_formatversion subsequent_formatversion
                 (Some (Dir previous_entries)) (Some (Dir subsequent_entries))
                 (by_key (fun d => d) pd) (by_key (fun d => d) sd)) common)
    as (groups & E & F).
  { intros t H. destruct (Step t H) as (g & Eg & _). eauto. }
  rewrite E. cbn [bind]. eexists. split; [reflexivity|]. split.
  - intros p s typ id. rewrite in_concat. split.
    + intros (g & Ig & Im).
      destruct (Forall2_In_right _ _ _ _ F Ig) as (t & It & Eg).
      destruct (Step t It) as (g' & Eg' & Hg & _).
      rewrite Eg in Eg'. inv Eg'.
      apply Hg in Im as (id' & pf & sf & Em & Lp & Ls). inv Em.
      apply Ic in It as [H1 H2]. split; [exact H1|]. split; [exact H2|].
      exists pf, sf. auto.
    + intros (H1 & H2 & pf & sf & -> & -> & Lp & Ls).
      assert (In typ common) as It by (apply Ic; auto).
      destruct (Forall2_In_left _ _ _ _ F It) as (g & Ig & Eg).
      destruct (Step typ It) as (g' & Eg' & Hg & _).
      rewrite Eg in Eg'. inv Eg'.
      exists g'. split; [exact Ig|]. apply Hg. exists id, pf, sf. auto.
  - apply (concat_match_lt common); [|apply sorted_common_strict].
    apply (Forall2_In_impl _ _ _ _ F). intros t g It Eg.
    destruct (Step t It) as (g' & Eg' & Hg & S).
    rewrite Eg in Eg'. inv Eg'. split; [|exact S].
    apply Forall_forall. intros m Hm.
    apply Hg in Hm as (id' & pf & sf & -> & _). reflexivity.
Qed.

(** X12: the files two version directories have in common.  When both
    paths are directories the call returns; a match is returned exactly
    for each message format that has a [csv] directory in both versions
    and each check id that is the stem of a file [*.csv] in both of
    them, with the paths of the greatest file of this stem on each side;
    the matches are in ascending order of the message format and then
    of the check id, so no pair of message format and check id is
    returned twice. *)
Theorem X12_matching_files_are_the_common_ones
  (root previous_entries subsequent_entries : list (string * node))
  (previous_formatversion subsequent_formatversion : string) :
  lookup root previous_formatversion = Some (Dir previous_entries) ->
  lookup root subsequent_formatversion = Some (Dir subsequent_entries) ->
  exists matching_files,
    get_matching_files (Some (Dir root)) previous_formatversion subsequent_formatversion
    = Return matching_files
    /\ (forall previous_path subsequent_path nachrichtentyp pruefid,
           In (previous_path, subsequent_path, nachrichtentyp, pruefid) matching_files
           <-> has_csv_dir previous_entries nachrichtentyp
               /\ has_csv_dir subsequent_entries nachrichtentyp
               /\ exists previous_file subsequent_file,
                   previous_path
                   = [previous_formatversion; nachrichtentyp; "csv"; previous_file]
                   /\ subsequent_path
                      = [subsequent_formatversion; nachrichtentyp; "csv"; subsequent_file]
                   /\ latest_with_stem (csv_files previous_entries nachrichtentyp)
                        pruefid previous_file
                   /\ latest_with_stem (csv_files subsequent_entries nachrichtentyp)
                        pruefid subsequent_file)
    /\ StronglySorted match_lt matching_files.
Proof. apply get_matching_files_spec. Qed.

Lemma X12_matching_files_are_the_common_ones_witness :
  exists matching_files,
    get_matching_files matching_tree "FV2404" "FV2410" = Return matching_files
    /\ In (["FV2404"; "UTILMD"; "csv"; "55001.csv"],
           ["FV2410"; "UTILMD"; "csv"; "55001.csv"], "UTILMD", "55001") matching_files
    /\ StronglySorted match_lt matching_files.
Proof.
  destruct (X12_matching_files_are_the_common_ones
              [("FV2404",
                Dir [("UTILMD", Dir [("csv", files ["55002.csv"; "notes.txt"; "55001.csv"])]);
                     ("MSCONS", Dir [("csv", files ["13002.csv"])]);
                     ("ORDERS", Dir [])]);
               ("FV2410",
                Dir [("ORDERS", Dir [("csv", files ["17001.csv"])]);
                     ("MSCONS", Dir [("csv", File)]);
                     ("UTILMD", Dir [("csv", files ["55003.csv"; "55001.csv"; "55002.csv"])])])]
              _ _ "FV2404" "FV2410" eq_refl eq_refl) as (ms & E & H & S).
  exists ms. split; [exact E|]. split; [|exact S].
  assert (ms = [(["FV2404"; "UTILMD"; "csv"; "55001.csv"],
                 ["FV2410"; "UTILMD"; "csv"; "55001.csv"], "UTILMD", "55001");
                (["FV2404"; "UTILMD"; "csv"; "55002.csv"],
                 ["FV2410"; "UTILMD"; "csv"; "55002.csv"], "UTILMD", "55002")]) as ->.
  { unfold matching_tree in E. vm_compute in E. now inv E. }
  now left.
Defined.

(** X13: a version directory that does not exist gives no matching
    files and no error; a version path that is a file, while the other
    exists, makes the call raise [OSError]. *)
Theorem X13_missing_version_gives_no_files (SUBMODULE : option node)
  (previous_formatversion subsequent_formatversion : string) :
  (child SUBMODULE previous_formatversion = None
   \/ child SUBMODULE subsequent_formatversion = None ->
   get_matching_files SUBMODULE previous_formatversion subsequent_formatversion = Return [])
  /\ (child SUBMODULE previous_formatversion = Some File ->
      child SUBMODULE subsequent_formatversion <> None ->
      get_matching_files SUBMODULE previous_formatversion subsequent_formatversion
      = Raise OSError)
  /\ (forall entries,
         child SUBMODULE previous_formatversion = Some (Dir entries) ->
         child SUBMODULE subsequent_formatversion = Some File ->
         get_matching_files SUBMODULE previous_formatversion subsequent_formatversion
         = Raise OSError).
Proof.
  unfold get_matching_files. split; [|split].
  - intros [-> | ->]; cbn [forallb path_exists andb negb]; [reflexivity|].
    now rewrite andb_false_r.
  - intros -> N.
    destruct (child SUBMODULE subsequent_formatversion); [reflexivity|contradiction].
  - intros entries -> ->. cbn [forallb path_exists andb negb].
    destruct (nachrichtenformat_dirs_spec entries) as (ds & -> & _). reflexivity.
Qed.

Lemma X13_missing_version_gives_no_files_witness :
  get_matching_files matching_tree "FV2404" "FV2504" = Return [].
Proof.
  apply (proj1 (X13_missing_version_gives_no_files matching_tree "FV2404" "FV2504")).
  right. reflexivity.
Defined.

(* ================================================================== *)
(** ** The batch *)

Lemma for_each_all_return {A : Type} (body : A -> io unit) (R : A -> list event -> Prop)
  (l : list A) :
  (forall a, In a l -> forall log, exists evs, body a log = (log ++ evs, Return tt) /\ R a evs) ->
  forall log, exists evss,
      for_each body l log = (log ++ List.concat evss, Return tt) /\ Forall2 R l evss.
Proof.
  induction l as [|a l IH]; intros H log.
  - exists []. simpl. rewrite app_nil_r. split; [reflexivity|constructor].
  - destruct (H a (or_introl eq_refl) log) as (evs & E & Ra).
    destruct (IH (fun x Hx => H x (or_intror Hx)) (log ++ evs)) as (evss & E' & F).
    exists (evs :: evss). cbn [for_each]. unfold io_bind. rewrite E, E'.
    cbn [List.concat]. rewrite app_assoc. split; [reflexivity|now constructor].
Qed.

Lemma for_each_stops {A : Type} (body : A -> io unit) (R : A -> list event -> Prop)
  (before after : list A) (a : A) (e : exn) (last : list event) :
  (forall x, In x before ->
             forall log, exists evs, body x log = (log ++ evs, Return tt) /\ R x evs) ->
  (forall log, body a log = (log ++ last, Raise e)) ->
  forall log, exists evss,
      for_each body (before ++ a :: after) log = (log ++ List.concat evss ++ last, Raise e)
      /\ Forall2 R before evss.
Proof.
  induction before as [|x before IH]; intros H Ha log.
  - exists []. cbn [app for_each List.concat]. unfold io_bind. rewrite Ha.
    split; [reflexivity|constructor].
  - destruct (H x (or_introl eq_refl) log) as (evs & E & Rx).
    destruct (IH (fun y Hy => H y (or_intror Hy)) Ha (log ++ evs)) as (evss & E' & F).
    exists (evs :: evss). cbn [app for_each]. unfold io_bind. rewrite E.
    fold (for_each body (before ++ a :: after)). rewrite E'.
    cbn [List.concat]. rewrite <- !app_assoc. split; [reflexivity|now constructor].
Qed.

(** A loop whose turns leave no version error behind and raise nothing
    that is caught leaves none behind and raises nothing that is
    caught. *)
Lemma for_each_escapes {A : Type} (body : A -> io unit) (l : list A) :
  (forall a, In a l ->
             forall log, exists evs r,
                 body a log = (log ++ evs, r)
                 /\ existsb is_version_error evs = false
                 /\ forall e, r = Raise e -> caught e = false) ->
  forall log, exists evs r,
      for_each body l log = (log ++ evs, r)
      /\ existsb is_version_error evs = false
      /\ forall e, r = Raise e -> caught e = false.
Proof.
  induction l as [|a l IH]; intros H log.
  - exists [], (Return tt). simpl. rewrite app_nil_r.
    split; [reflexivity|]. split; [reflexivity|discriminate].
  - destruct (H a (or_introl eq_refl) log) as (evs & r & E & V & C).
    cbn [for_each]. unfold io_bind. rewrite E.
    destruct r as [[]|e|].
    + destruct (IH (fun x Hx => H x (or_intror Hx)) (log ++ evs))
        as (evs' & r' & E' & V' & C').
      exists (evs ++ evs'), r'. rewrite E', app_assoc, existsb_app, V, V'. auto.
    + exists evs, (Raise e). auto.
    + exists evs, OutOfFuel. split; [reflexivity|]. split; [exact V|discriminate].
Qed.

Section BatchFacts.

Variable get_csv : path -> path -> outcome (DataFrame * DataFrame).
Variable mkdir : path -> outcome unit.
Variable to_csv : DataFrame -> path -> outcome unit.
Variable export_to_excel : DataFrame -> path -> outcome unit.
Variable fuel : nat.

Local Abbreviation file_turn := (process_file get_csv mkdir to_csv export_to_excel fuel).
Local Abbreviation files_of := (process_files get_csv mkdir to_csv export_to_excel fuel).

Ltac batch_unfold :=
  unfold process_file, try_except, process_pair, io_bind, io_lift, emit.

(** One matching file: whatever happens, no version error is logged,
    and neither [ValueError] nor [OSError] leaves the turn. *)
Lemma process_file_escapes (pfv sfv : string) (m : path * path * string * string)
  (log : list event) :
  exists evs r,
    file_turn pfv sfv m log = (log ++ evs, r)
    /\ existsb is_version_error evs = false
    /\ forall e, r = Raise e -> caught e = false.
Proof.
  destruct m as [[[old_file new_file] nachrichtentyp] pruefid]. batch_unfold.
  destruct (get_csv old_file new_file) as [dfs|e|];
    [|destruct (caught e) eqn:C|];
    [destruct (align_columns fuel (fst dfs) (snd dfs) pfv sfv) as [df|e|];
     [|destruct (caught e) eqn:C|]| | |];
    [destruct (mkdir _) as [[]|e|]; [|destruct (caught e) eqn:C|]| | | | | |];
    [destruct (to_csv _ _) as [[]|e|]; [|destruct (caught e) eqn:C|]| | | | | | | | |];
    [destruct (export_to_excel _ _) as [[]|e|]; [|destruct (caught e) eqn:C|]
    | | | | | | | | | | | |];
    rewrite <- ?app_assoc; cbn [app];
    try (eexists; eexists; split; [reflexivity|]; split; [reflexivity|];
         intros e' [= <-]; assumption);
    try (eexists; eexists; split; [reflexivity|]; split; [reflexivity|]; discriminate);
    try (exists [], (Raise e); rewrite app_nil_r; split; [reflexivity|];
         split; [reflexivity|]; intros e' [= <-]; assumption);
    try (exists [], OutOfFuel; rewrite app_nil_r; split; [reflexivity|];
         split; [reflexivity|]; discriminate).
Qed.

(** One matching file whose steps return or raise what is caught: the
    turn returns and leaves the files or an error behind. *)
Lemma process_file_returns (pfv sfv : string) (old_file new_file : path)
  (nachrichtentyp pruefid : string) (log : list event) :
  recoverable (get_csv old_file new_file) ->
  (forall dfs, get_csv old_file new_file = Return dfs ->
               recoverable (align_columns fuel (fst dfs) (snd dfs) pfv sfv)) ->
  (forall d, recoverable (mkdir d)) ->
  (forall df p, recoverable (to_csv df p)) ->
  (forall df p, recoverable (export_to_excel df p)) ->
  exists evs,
    file_turn pfv sfv (old_file, new_file, nachrichtentyp, pruefid) log
    = (log ++ evs, Return tt)
    /\ file_events pfv sfv (old_file, new_file, nachrichtentyp, pruefid) evs.
Proof.
  intros Hg Ha Hm Hc Hx. batch_unfold. unfold file_events.
  destruct (get_csv old_file new_file) as [dfs|e|]; simpl in Hg; [|rewrite Hg|contradiction].
  2:{ eexists. split; [reflexivity|]. right. left. eauto. }
  specialize (Ha dfs eq_refl).
  destruct (align_columns fuel (fst dfs) (snd dfs) pfv sfv) as [df|e|];
    simpl in Ha; [|rewrite Ha|contradiction].
  2:{ eexists. split; [reflexivity|]. right. left. eauto. }
  match goal with |- context [mkdir ?d] => specialize (Hm d); destruct (mkdir d) as [[]|e|] end;
    simpl in Hm; [|rewrite Hm|contradiction].
  2:{ eexists. split; [reflexivity|]. right. left. eauto. }
  match goal with
  | |- context [to_csv ?d ?p] => specialize (Hc d p); destruct (to_csv d p) as [[]|e|]
  end; simpl in Hc; [|rewrite Hc|contradiction].
  2:{ eexists. split; [reflexivity|]. right. left. eauto. }
  match goal with
  | |- context [export_to_excel ?d ?p] =>
      specialize (Hx d p); destruct (export_to_excel d p) as [[]|e|]
  end; simpl in Hx; [|rewrite Hx|contradiction].
  - rewrite <- app_assoc. eexists. split; [reflexivity|]. left. exists df. reflexivity.
  - rewrite <- app_assoc. eexists. split; [reflexivity|]. right. right.
    exists df, e. split; [exact Hx|reflexivity].
Qed.

(** The matching files of two version directories: no version error is
    logged, and neither [ValueError] nor [OSError] leaves the call. *)
Lemma process_files_escapes (root previous_entries subsequent_entries : list (string * node))
  (pfv sfv : string) (log : list event) :
  lookup root pfv = Some (Dir previous_entries) ->
  lookup root sfv = Some (Dir subsequent_entries) ->
  exists evs r,
    files_of (Some (Dir root)) pfv sfv log = (log ++ evs, r)
    /\ existsb is_version_error evs = false
    /\ forall e, r = Raise e -> caught e = false.
Proof.
  intros Hp Hs. unfold process_files, io_bind, io_lift.
  destruct (get_matching_files_spec root _ _ pfv sfv Hp Hs) as (ms & -> & _).
  destruct ms as [|m ms].
  - exists [no_matching_files], (Return tt). unfold emit.
    split; [reflexivity|]. split; [reflexivity|discriminate].
  - apply for_each_escapes. intros a _ log'. apply process_file_escapes.
Qed.

End BatchFacts.

Lemma adjacent_pairs_In {A : Type} (l : list A) (a b : A) :
  In (a, b) (adjacent_pairs l) -> In a l /\ In b l.
Proof.
  induction l as [|x l IH]; simpl; [tauto|].
  destruct l as [|y l]; [simpl; tauto|].
  intros [[= -> ->]|H]; [simpl; auto|].
  destruct (IH H). auto.
Qed.

(** The versions that are paired are directories. *)
Lemma consecutive_pairs_are_dirs (SUBMODULE : option node) (pairs : list (string * string))
  (subsequent_formatversion previous_formatversion : string) :
  determine_consecutive_formatversions SUBMODULE = Return pairs ->
  In (subsequent_formatversion, previous_formatversion) pairs ->
  is_dir (child SUBMODULE subsequent_formatversion) = true
  /\ is_dir (child SUBMODULE previous_formatversion) = true.
Proof.
  unfold determine_consecutive_formatversions. intros H I.
  destruct (get_available_formatversions SUBMODULE) as [l| |] eqn:E; try discriminate.
  cbn [bind] in H.
  destruct (get_available_formatversions_spec _ _ E) as [P _].
  assert (foldM (consecutive_step SUBMODULE l) (seq 0 (List.length l - 1)) []
          = Return ([] ++ filter (both_nonempty SUBMODULE) (adjacent_pairs l))) as Fc.
  { apply (foldM_consecutive SUBMODULE l [] []).
    intros name Hn. apply listed_names_is_dir. eapply Permutation_in; eauto. }
  rewrite Fc in H. inv H. cbn [app] in I. apply filter_In in I as [I _].
  apply adjacent_pairs_In in I as [Is Ip].
  split; apply listed_names_is_dir; eapply Permutation_in; eauto.
Qed.

(** The matching files of two versions, when nothing escapes. *)
Lemma process_files_returns
  (get_csv : path -> path -> outcome (DataFrame * DataFrame))
  (mkdir : path -> outcome unit)
  (to_csv export_to_excel : DataFrame -> path -> outcome unit)
  (fuel : nat) (SUBMODULE : option node) (pfv sfv : string)
  (matching_files : list (path * path * string * string)) (log : list event) :
  get_matching_files SUBMODULE pfv sfv = Return matching_files ->
  matching_files <> [] ->
  (forall old_file new_file nachrichtentyp pruefid,
      In (old_file, new_file, nachrichtentyp, pruefid) matching_files ->
      recoverable (get_csv old_file new_file)
      /\ forall dfs, get_csv old_file new_file = Return dfs ->
                     recoverable (align_columns fuel (fst dfs) (snd dfs) pfv sfv)) ->
  (forall d, recoverable (mkdir d)) ->
  (forall df p, recoverable (to_csv df p)) ->
  (forall df p, recoverable (export_to_excel df p)) ->
  exists evss,
    process_files get_csv mkdir to_csv export_to_excel fuel SUBMODULE pfv sfv log
    = (log ++ List.concat evss, Return tt)
    /\ Forall2 (file_events pfv sfv) matching_files evss.
Proof.
  intros E N H Hm Hc Hx. unfold process_files, io_bind, io_lift. rewrite E.
  destruct matching_files as [|m ms]; [contradiction|].
  apply for_each_all_return. intros [[[old_file new_file] nachrichtentyp] pruefid] I log'.
  destruct (H _ _ _ _ I) as [Hg Ha].
  now apply process_file_returns.
Qed.

(** X14: in [process_files], when reading, aligning and writing return
    or raise [ValueError] or [OSError] for every matching file, the call
    returns, and every matching file in turn has left behind its two
    files, or an error, or its first file and an error: an error of one
    file does not keep the later ones from being processed. *)
Theorem X14_caught_errors_do_not_stop_the_batch
  (get_csv : path -> path -> outcome (DataFrame * DataFrame))
  (mkdir : path -> outcome unit)
  (to_csv export_to_excel : DataFrame -> path -> outcome unit)
  (fuel : nat) (SUBMODULE : option node) (pfv sfv : string)
  (matching_files : list (path * path * string * string)) (log : list event) :
  get_matching_files SUBMODULE pfv sfv = Return matching_files ->
  matching_files <> [] ->
  (forall old_file new_file nachrichtentyp pruefid,
      In (old_file, new_file, nachrichtentyp, pruefid) matching_files ->
      recoverable (get_csv old_file new_file)
      /\ forall dfs, get_csv old_file new_file = Return dfs ->
                     recoverable (align_columns fuel (fst dfs) (snd dfs) pfv sfv)) ->
  (forall d, recoverable (mkdir d)) ->
  (forall df p, recoverable (to_csv df p)) ->
  (forall df p, recoverable (export_to_excel df p)) ->
  exists evss,
    process_files get_csv mkdir to_csv export_to_excel fuel SUBMODULE pfv sfv log
    = (log ++ List.concat evss, Return tt)
    /\ Forall2 (file_events pfv sfv) matching_files evss.
Proof. apply process_files_returns. Qed.

Lemma X14_caught_errors_do_not_stop_the_batch_witness :
  exists evss,
    process_files (read_always example_previous example_subsequent)
      write_path write_table write_table 7 matching_tree "FV2404" "FV2410" []
    = ([] ++ List.concat evss, Return tt)
    /\ Forall2 (file_events "FV2404" "FV2410")
         [(["FV2404"; "UTILMD"; "csv"; "55001.csv"],
           ["FV2410"; "UTILMD"; "csv"; "55001.csv"], "UTILMD", "55001");
          (["FV2404"; "UTILMD"; "csv"; "55002.csv"],
           ["FV2410"; "UTILMD"; "csv"; "55002.csv"], "UTILMD", "55002")]
         evss.
Proof.
  apply (X14_caught_errors_do_not_stop_the_batch
           (read_always example_previous example_subsequent)
           write_path write_table write_table 7 matching_tree "FV2404" "FV2410").
  - vm_compute. reflexivity.
  - discriminate.
  - intros old_file new_file nachrichtentyp pruefid _. split; [exact I|].
    intros dfs [= <-]. vm_compute. exact I.
  - intros d. exact I.
  - intros df p. exact I.
  - intros df p. exact I.
Defined.

(** X15: in [process_files], a matching file whose previous table has
    rows but no key column ends the call with [KeyError]: the files
    before it have been processed, nothing is written or logged for it,
    and the files after it are not processed.  The exception is none of
    those the [except] clauses catch. *)
Theorem X15_missing_key_column_stops_the_batch
  (get_csv : path -> path -> outcome (DataFrame * DataFrame))
  (mkdir : path -> outcome unit)
  (to_csv export_to_excel : DataFrame -> path -> outcome unit)
  (fuel : nat) (SUBMODULE : option node) (pfv sfv : string)
  (before after : list (path * path * string * string))
  (old_file new_file : path) (nachrichtentyp pruefid : string)
  (previous subsequent : DataFrame) (log : list event) :
  get_matching_files SUBMODULE pfv sfv
  = Return (before ++ (old_file, new_file, nachrichtentyp, pruefid) :: after) ->
  (forall old_file new_file nachrichtentyp pruefid,
      In (old_file, new_file, nachrichtentyp, pruefid) before ->
      recoverable (get_csv old_file new_file)
      /\ forall dfs, get_csv old_file new_file = Return dfs ->
                     recoverable (align_columns fuel (fst dfs) (snd dfs) pfv sfv)) ->
  (forall d, recoverable (mkdir d)) ->
  (forall df p, recoverable (to_csv df p)) ->
  (forall df p, recoverable (export_to_excel df p)) ->
  get_csv old_file new_file = Return (previous, subsequent) ->
  ~ In "Segmentname" (columns previous) ->
  ~ In (key_column pfv) (columns previous) ->
  empty previous = false ->
  exists evss,
    process_files get_csv mkdir to_csv export_to_excel fuel SUBMODULE pfv sfv log
    = (log ++ List.concat evss, Raise (KeyError (key_column pfv)))
    /\ Forall2 (file_events pfv sfv) before evss
    /\ caught (KeyError (key_column pfv)) = false.
Proof.
  intros E H Hm Hc Hx G A B Ep. unfold process_files, io_bind, io_lift. rewrite E.
  destruct (for_each_stops
              (process_file get_csv mkdir to_csv export_to_excel fuel pfv sfv)
              (file_events pfv sfv) before after
              (old_file, new_file, nachrichtentyp, pruefid)
              (KeyError (key_column pfv)) []) with (log := log) as (evss & R & F).
  - intros [[[o n] t] p] I log'. destruct (H _ _ _ _ I) as [Hg Ha].
    now apply process_file_returns.
  - intros log'. unfold process_file, try_except, process_pair, io_bind, io_lift.
    rewrite G. cbn [fst snd].
    rewrite (proj1 missing_key_column_raises previous subsequent pfv sfv fuel A B Ep).
    cbn [caught]. now rewrite app_nil_r.
  - exists evss. rewrite app_nil_r in R.
    destruct (before ++ (old_file, new_file, nachrichtentyp, pruefid) :: after) eqn:L.
    + destruct before; discriminate.
    + rewrite R. auto.
Qed.

Lemma X15_missing_key_column_stops_the_batch_witness :
  exists evss,
    process_files (read_always no_key_table example_subsequent)
      write_path write_table write_table 7 matching_tree "FV2404" "FV2410" []
    = ([] ++ List.concat evss, Raise (KeyError "Segmentname_FV2404"))
    /\ Forall2 (file_events "FV2404" "FV2410") [] evss
    /\ caught (KeyError "Segmentname_FV2404") = false.
Proof.
  apply (X15_missing_key_column_stops_the_batch
           (read_always no_key_table example_subsequent)
           write_path write_table write_table 7 matching_tree "FV2404" "FV2410"
           []
           [(["FV2404"; "UTILMD"; "csv"; "55002.csv"],
             ["FV2410"; "UTILMD"; "csv"; "55002.csv"], "UTILMD", "55002")]
           ["FV2404"; "UTILMD"; "csv"; "55001.csv"]
           ["FV2410"; "UTILMD"; "csv"; "55001.csv"] "UTILMD" "55001"
           no_key_table example_subsequent).
  - vm_compute. reflexivity.
  - intros old_file new_file nachrichtentyp pruefid [].
  - intros d. exact I.
  - intros df p. exact I.
  - intros df p. exact I.
  - reflexivity.
  - simpl. intuition discriminate.
  - simpl. intuition discriminate.
  - reflexivity.
Defined.

(** X16: in [process_submodule] no error of a pair of versions is ever
    logged, whatever reading and writing do: the versions that are
    paired are directories, so finding their matching files returns,
    and the errors of the files are handled file by file.  [ValueError]
    or [OSError] leaves the run only when the pairing of the versions
    raises it, before anything is processed. *)
Theorem X16_version_handler_never_fires
  (get_csv : path -> path -> outcome (DataFrame * DataFrame))
  (mkdir : path -> outcome unit)
  (to_csv export_to_excel : DataFrame -> path -> outcome unit)
  (fuel : nat) (SUBMODULE : option node) (log : list event) :
  exists evs r,
    process_submodule get_csv mkdir to_csv export_to_excel fuel SUBMODULE log
    = (log ++ evs, r)
    /\ existsb is_version_error evs = false
    /\ forall e, r = Raise e -> caught e = true ->
                 evs = [] /\ determine_consecutive_formatversions SUBMODULE = Raise e.
Proof.
  unfold process_submodule, io_bind, io_lift.
  destruct (determine_consecutive_formatversions SUBMODULE) as [pairs|e|] eqn:D.
  - destruct pairs as [|pair pairs].
    + exists [no_consecutive_formatversions], (Return tt). unfold emit.
      split; [reflexivity|]. split; [reflexivity|discriminate].
    + set (body := fun pair : string * string => _).
      destruct (for_each_escapes body (pair :: pairs)) with (log := log)
        as (evs & r & E & V & C).
      * intros [s p] I log'. unfold body, try_except.
        destruct (consecutive_pairs_are_dirs _ _ _ _ D I) as [Hs Hp].
        destruct SUBMODULE as [[|root]|]; try discriminate.
        cbn [child] in Hs, Hp.
        destruct (lookup root s) as [[|se]|] eqn:Es; try discriminate.
        destruct (lookup root p) as [[|pe]|] eqn:Ep; try discriminate.
        destruct (process_files_escapes get_csv mkdir to_csv export_to_excel fuel
                    root pe se p s log' Ep Es) as (evs & r & -> & V & C).
        exists evs, r. destruct r as [[]|e|]; auto.
        rewrite (C e eq_refl). auto.
      * exists evs, r. split; [exact E|]. split; [exact V|].
        intros e -> Ce. rewrite (C e eq_refl) in Ce. discriminate.
  - exists [], (Raise e). rewrite app_nil_r. split; [reflexivity|].
    split; [reflexivity|]. intros e' [= <-] _. auto.
  - exists [], OutOfFuel. rewrite app_nil_r. split; [reflexivity|].
    split; [reflexivity|]. discriminate.
Qed.

Lemma X16_version_handler_never_fires_witness :
  exists evs r,
    process_submodule (read_always example_previous example_subsequent)
      write_path write_table write_table 7 unparsable_tree []
    = ([] ++ evs, r)
    /\ existsb is_version_error evs = false
    /\ (r = Raise ValueError ->
        evs = [] /\ determine_consecutive_formatversions unparsable_tree = Raise ValueError).
Proof.
  destruct (X16_version_handler_never_fires
              (read_always example_previous example_subsequent)
              write_path write_table write_table 7 unparsable_tree [])
    as (evs & r & E & V & H).
  exists evs, r. split; [exact E|]. split; [exact V|].
  intros R. apply (H ValueError R). reflexivity.
Defined.

(** X17: a run in which reading, aligning and writing return or raise
    [ValueError] or [OSError] returns, and leaves behind, for each pair
    of versions in the order of the pairing, a warning when the pair has
    no matching file and otherwise what each of its matching files
    leaves behind: every pair of versions and every matching file is
    processed, in order, whatever fails on the way. *)
Theorem X17_run_processes_every_pair
  (get_csv : path -> path -> outcome (DataFrame * DataFrame))
  (mkdir : path -> outcome unit)
  (to_csv export_to_excel : DataFrame -> path -> outcome unit)
  (fuel : nat) (SUBMODULE : option node) (pairs : list (string * string))
  (log : list event) :
  determine_consecutive_formatversions SUBMODULE = Return pairs ->
  pairs <> [] ->
  (forall old_file new_file, recoverable (get_csv old_file new_file)) ->
  (forall old_file new_file dfs sfv pfv,
      In (sfv, pfv) pairs ->
      get_csv old_file new_file = Return dfs ->
      recoverable (align_columns fuel (fst dfs) (snd dfs) pfv sfv)) ->
  (forall d, recoverable (mkdir d)) ->
  (forall df p, recoverable (to_csv df p)) ->
  (forall df p, recoverable (export_to_excel df p)) ->
  exists logs,
    process_submodule get_csv mkdir to_csv export_to_excel fuel SUBMODULE log
    = (log ++ List.concat logs, Return tt)
    /\ Forall2 (version_events SUBMODULE) pairs logs.
Proof.
  intros D N Hg Ha Hm Hc Hx. unfold process_submodule, io_bind, io_lift. rewrite D.
  destruct pairs as [|pair pairs]; [contradiction|].
  apply for_each_all_return. intros [s p] I log'. unfold try_except, version_events.
  destruct (consecutive_pairs_are_dirs _ _ _ _ D I) as [Hs Hp].
  destruct SUBMODULE as [[|root]|]; try discriminate.
  cbn [child] in Hs, Hp.
  destruct (lookup root s) as [[|se]|] eqn:Es; try discriminate.
  destruct (lookup root p) as [[|pe]|] eqn:Ep; try discriminate.
  destruct (get_matching_files_spec root pe se p s Ep Es) as (ms & E & _).
  destruct ms as [|m ms].
  - exists [no_matching_files]. unfold process_files, io_bind, io_lift, emit. rewrite E.
    split; [reflexivity|]. exists []. split; [reflexivity|]. left. auto.
  - destruct (process_files_returns get_csv mkdir to_csv export_to_excel fuel
                (Some (Dir root)) p s (m :: ms) log' E) as (evss & R & F);
      [discriminate| |exact Hm|exact Hc|exact Hx|].
    + intros o nw t id _. split; [apply Hg|]. intros dfs G. eapply Ha; [exact I|exact G].
    + rewrite R. exists (List.concat evss). split; [reflexivity|].
      exists (m :: ms). split; [exact E|]. right. split; [discriminate|].
      exists evss. auto.
Qed.

Lemma X17_run_processes_every_pair_witness :
  exists logs,
    process_submodule (read_always example_previous example_subsequent)
      write_path write_table write_table 7 matching_tree []
    = ([] ++ List.concat logs, Return tt)
    /\ Forall2 (version_events matching_tree) [("FV2410"%string, "FV2404"%string)] logs.
Proof.
  apply (X17_run_processes_every_pair
           (read_always example_previous example_subsequent)
           write_path write_table write_table 7 matching_tree).
  - vm_compute. reflexivity.
  - discriminate.
  - intros old_file new_file. exact I.
  - intros old_file new_file dfs sfv pfv [[= <- <-]|[]] [= <-]. vm_compute. exact I.
  - intros d. exact I.
  - intros df p. exact I.
  - intros df p. exact I.
Defined.

(* ================================================================== *)
(** ** The sheet *)

Lemma prefix_nil (s : string) : String.prefix "" s = true.
Proof. now destruct s. Qed.

(** A prefix without underscore is a prefix of the column name or of
    none of the names made from it. *)
Lemma prefix_before_underscore (p : string) :
  forall c rest : string,
    has_char "_" p = false ->
    String.prefix p (c ++ String "_" rest) = String.prefix p c.
Proof.
  induction p as [|x p IH]; intros c rest H; [now destruct c|].
  cbn [has_char] in H. apply orb_false_iff in H as [Hx Hp].
  destruct c as [|y c]; cbn [append prefix].
  - destruct (ascii_dec x "_") as [->|N]; [|reflexivity].
    rewrite Ascii.eqb_refl in Hx. discriminate.
  - destruct (ascii_dec x y); [now apply IH|reflexivity].
Qed.

(** A prefix that ends in its only underscore is a prefix of a name
    made from a column exactly when the column is the part before the
    underscore or has the prefix itself. *)
Lemma prefix_with_underscore (q : string) :
  forall c rest : string,
    has_char "_" q = false ->
    String.prefix (q ++ "_") (c ++ String "_" rest)
    = String.eqb c q || String.prefix (q ++ "_") c.
Proof.
  induction q as [|x q IH]; intros c rest H.
  - destruct c as [|y c]; cbn [append prefix String.eqb].
    + destruct (ascii_dec "_" "_"); [now destruct rest|contradiction].
    + destruct (ascii_dec "_" y); [|reflexivity].
      rewrite !prefix_nil. reflexivity.
  - cbn [has_char] in H. apply orb_false_iff in H as [Hx Hq].
    destruct c as [|y c]; cbn [append prefix String.eqb].
    + destruct (ascii_dec x "_") as [->|N]; [|reflexivity].
      rewrite Ascii.eqb_refl in Hx. discriminate.
    + destruct (ascii_dec x y) as [->|N].
      * rewrite Ascii.eqb_refl. now apply IH.
      * assert (Ascii.eqb y x = false) as -> by (apply Ascii.eqb_neq; congruence).
        reflexivity.
Qed.

Lemma prefix_longer (sep : string) :
  forall t, String.length t < String.length sep -> String.prefix sep t = false.
Proof.
  induction sep as [|x sep IH]; intros t H; simpl in H; [lia|].
  destruct t as [|y t]; cbn [prefix]; [reflexivity|].
  destruct (ascii_dec x y); [|reflexivity]. apply IH. simpl in H. lia.
Qed.

Lemma append_one (cur : string) (c : ascii) (t : string) :
  ((cur ++ String c EmptyString) ++ t)%string = (cur ++ String c t)%string.
Proof. induction cur as [|x cur IH]; simpl; [reflexivity|]. now rewrite IH. Qed.

(** A string shorter than the separator is one piece. *)
Lemma split_go_short (sep : string) :
  forall t cur, String.length t < String.length sep ->
                split_go sep t 0 cur = [(cur ++ t)%string].
Proof.
  induction t as [|c t IH]; intros cur H; cbn [split_go].
  - f_equal. induction cur as [|x cur IHc]; simpl; [reflexivity|]. now rewrite <- IHc.
  - rewrite (prefix_longer sep (String c t) H).
    rewrite IH by (simpl in H; lia). now rewrite append_one.
Qed.

Lemma prefix_append (sep t : string) : String.prefix sep (sep ++ t) = true.
Proof.
  induction sep as [|x sep IH]; [apply prefix_nil|].
  cbn [append prefix]. destruct (ascii_dec x x); [exact IH|contradiction].
Qed.

Lemma split_go_skip (sep : string) (a : string) :
  forall t cur, split_go sep (a ++ t) (String.length a) cur = split_go sep t 0 cur.
Proof. induction a as [|x a IH]; intros t cur; [reflexivity|]. cbn [append String.length split_go]. apply IH. Qed.

(** A string that starts with the separator: an empty piece first. *)
Lemma split_go_separator (x : ascii) (sep t cur : string) :
  split_go (String x sep) (String x sep ++ t) 0 cur
  = cur :: split_go (String x sep) t 0 "".
Proof.
  change (String x sep ++ t)%string with (String x (sep ++ t)).
  change (split_go (String x sep) (String x (sep ++ t)) 0 cur)
    with (if String.prefix (String x sep) (String x (sep ++ t))
          then cur :: split_go (String x sep) (sep ++ t) (String.length (String x sep) - 1) ""
          else split_go (String x sep) (sep ++ t) 0 (cur ++ String x EmptyString)).
  change (String x (sep ++ t)) with (String x sep ++ t)%string.
  rewrite prefix_append. cbn [String.length Nat.sub]. rewrite Nat.sub_0_r.
  now rewrite split_go_skip.
Qed.

Lemma split_key_column (formatversion : string) :
  String.length formatversion < 12 ->
  split (key_column formatversion) "Segmentname_" = [""%string; formatversion].
Proof.
  intros H. unfold split, key_column.
  rewrite (split_go_separator "S" "egmentname_" formatversion "").
  now rewrite split_go_short.
Qed.

Lemma key_column_visible (formatversion : string) :
  startswith (key_column formatversion) "Unnamed:" = false.
Proof. reflexivity. Qed.

Lemma key_column_is_key (formatversion : string) :
  startswith (key_column formatversion) "Segmentname_" = true.
Proof. now destruct formatversion. Qed.

Lemma suffixed_visible (col formatversion : string) :
  startswith (suffixed col formatversion) "Unnamed:" = startswith col "Unnamed:".
Proof.
  unfold startswith, suffixed. cbn [append]. now apply prefix_before_underscore.
Qed.

Lemma suffixed_is_key (col formatversion : string) :
  startswith (suffixed col formatversion) "Segmentname_"
  = String.eqb col "Segmentname" || startswith col "Segmentname_".
Proof.
  unfold startswith, suffixed. cbn [append].
  now apply (prefix_with_underscore "Segmentname").
Qed.

Lemma kept_suffixed (cols : list string) (formatversion : string) :
  kept_names (map (fun col => suffixed col formatversion) cols)
  = map (fun col => suffixed col formatversion) (kept_names cols).
Proof.
  unfold kept_names. induction cols as [|c cols IH]; [reflexivity|].
  cbn [map filter]. rewrite suffixed_visible, IH.
  now destruct (startswith c "Unnamed:").
Qed.

(** The names kept of the columns of a merged table. *)
Lemma kept_column_order (previous subsequent : DataFrame) (pfv sfv : string) :
  kept_names (column_order previous subsequent pfv sfv)
  = [key_column pfv]
      ++ map (fun col => suffixed col pfv) (kept_names (data_columns previous))
      ++ ["diff"%string]
      ++ [key_column sfv]
      ++ map (fun col => suffixed col sfv) (kept_names (data_columns subsequent)).
Proof.
  unfold column_order. cbn [app].
  unfold kept_names at 1. cbn [filter]. rewrite key_column_visible. cbn [negb].
  f_equal. rewrite filter_app. fold (kept_names (map (fun col => suffixed col pfv)
                                                   (data_columns previous))).
  rewrite kept_suffixed. f_equal.
  cbn [filter]. change (startswith "diff" "Unnamed:") with false. cbn [negb]. f_equal.
  rewrite key_column_visible. cbn [negb]. f_equal.
  apply kept_suffixed.
Qed.

Lemma filter_none {A : Type} (p : A -> bool) (l : list A) :
  (forall x, In x l -> p x = false) -> filter p l = [].
Proof.
  induction l as [|x l IH]; intros H; [reflexivity|].
  cbn [filter]. rewrite (H x (or_introl eq_refl)). apply IH.
  intros y Hy. apply H. now right.
Qed.

(** A name that one column bears selects this column. *)
Lemma filter_name_NoDup (cols : list string) (name : string) :
  NoDup cols -> In name cols -> filter (fun col => String.eqb col name) cols = [name].
Proof.
  induction 1 as [|c cols N _ IH]; intros H; [destruct H|].
  cbn [filter]. destruct (String.eqb c name) eqn:E.
  - apply String.eqb_eq in E. subst c. f_equal.
    apply filter_none. intros col Hcol.
    apply String.eqb_neq. intros ->. contradiction.
  - apply String.eqb_neq in E. destruct H as [H|H]; [contradiction|]. now apply IH.
Qed.

Lemma getitem_columns_NoDup (cols names : list string) :
  NoDup cols -> (forall name, In name names -> In name cols) ->
  getitem_columns cols names = names.
Proof.
  intros N. unfold getitem_columns.
  induction names as [|name names IH]; intros H; [reflexivity|].
  cbn [flat_map]. rewrite (filter_name_NoDup cols name N) by (apply H; now left).
  cbn [app]. f_equal. apply IH. intros x Hx. apply H. now right.
Qed.

(** With distinct labels the sheet shows the columns that are kept. *)
Lemma visible_columns_NoDup (cols : list string) :
  NoDup cols -> visible_columns cols = kept_names cols.
Proof.
  intros N. unfold visible_columns. apply getitem_columns_NoDup; [exact N|].
  intros name H. unfold kept_names in H. now apply filter_In in H.
Qed.

(** A label that two columns bear: each of the two is shown twice. *)
Example visible_columns_repeated :
  visible_columns ["Segmentname_FV2404"; "diff"; "Segmentname_FV2404"; "Code_FV2404"]%string
  = ["Segmentname_FV2404"; "Segmentname_FV2404"; "diff";
     "Segmentname_FV2404"; "Segmentname_FV2404"; "Code_FV2404"]%string.
Proof. reflexivity. Qed.

(** The header of the sheet of a merged table with distinct labels. *)
Lemma visible_column_order (previous subsequent : DataFrame) (pfv sfv : string) :
  NoDup (column_order previous subsequent pfv sfv) ->
  visible_columns (column_order previous subsequent pfv sfv)
  = [key_column pfv]
      ++ map (fun col => suffixed col pfv) (kept_names (data_columns previous))
      ++ ["diff"%string]
      ++ [key_column sfv]
      ++ map (fun col => suffixed col sfv) (kept_names (data_columns subsequent)).
Proof.
  intros N. rewrite (visible_columns_NoDup _ N). apply kept_column_order.
Qed.

Lemma formatversions_of_skip (cols rest : list string) (found : option string) :
  Forall (fun c => startswith c "Segmentname_" = false) cols ->
  formatversions_of (cols ++ rest) found = formatversions_of rest found.
Proof.
  induction 1 as [|c cols H _ IH]; [reflexivity|].
  cbn [app formatversions_of]. now rewrite H.
Qed.

(** X18: the sheet finds the two version tags in the header of a merged
    table: when the labels of the merged table are distinct, both tags
    are shorter than twelve characters and no column of the previous
    table starts with [Segmentname_], the loop over the header returns
    the previous tag first and the subsequent tag second. *)
Theorem X18_sheet_reads_the_tags_off_the_header (previous subsequent : DataFrame)
  (pfv sfv : string) :
  NoDup (column_order previous subsequent pfv sfv) ->
  String.length pfv < 12 -> String.length sfv < 12 ->
  Forall (fun c => startswith c "Segmentname_" = false) (columns previous) ->
  formatversions_of (visible_columns (column_order previous subsequent pfv sfv)) None
  = Return (Some pfv, Some sfv).
Proof.
  intros N Lp Ls H. rewrite (visible_column_order _ _ _ _ N). cbn [app formatversions_of].
  rewrite key_column_is_key, (split_key_column pfv Lp). cbn [nth_error].
  rewrite formatversions_of_skip.
  - cbn [formatversions_of]. change (startswith "diff" "Segmentname_") with false.
    cbn iota. rewrite key_column_is_key, (split_key_column sfv Ls). reflexivity.
  - apply Forall_forall. intros c Hc. apply in_map_iff in Hc as (col & <- & Hcol).
    unfold kept_names in Hcol. apply filter_In in Hcol as [Hcol _].
    unfold data_columns in Hcol. apply filter_In in Hcol as [Hcol Hk].
    rewrite suffixed_is_key. apply negb_true_iff in Hk. rewrite Hk.
    rewrite Forall_forall in H. now rewrite (H _ Hcol).
Qed.

Lemma X18_sheet_reads_the_tags_off_the_header_witness :
  formatversions_of
    (visible_columns (column_order unnamed_previous example_subsequent "FV2404" "FV2410"))
    None
  = Return (Some "FV2404"%string, Some "FV2410"%string).
Proof.
  apply (X18_sheet_reads_the_tags_off_the_header unnamed_previous example_subsequent
           "FV2404" "FV2410").
  - nodup_strings.
  - simpl. lia.
  - simpl. lia.
  - repeat constructor.
Defined.

(** X19: when the labels of a merged table are distinct, the sheet
    hides the data columns whose name in the source table starts with
    [Unnamed:], on both sides, and no other column: the key columns and
    the tag column are shown, each column once, and the order of the
    columns is kept. *)
Theorem X19_sheet_hides_unnamed_columns (previous subsequent : DataFrame) (pfv sfv : string) :
  NoDup (column_order previous subsequent pfv sfv) ->
  visible_columns (column_order previous subsequent pfv sfv)
  = [key_column pfv]
      ++ map (fun col => suffixed col pfv) (kept_names (data_columns previous))
      ++ ["diff"%string]
      ++ [key_column sfv]
      ++ map (fun col => suffixed col sfv) (kept_names (data_columns subsequent)).
Proof. apply visible_column_order. Qed.

Lemma X19_sheet_hides_unnamed_columns_witness :
  visible_columns (column_order unnamed_previous example_subsequent "FV2404" "FV2410")
  = ["Segmentname_FV2404"; "Bedingung_FV2404"; "diff";
     "Segmentname_FV2410"; "Code_FV2410"]%string.
Proof.
  apply (X19_sheet_hides_unnamed_columns unnamed_previous example_subsequent
           "FV2404" "FV2410").
  nodup_strings.
Defined.








(* ================================================================== *)
(** ** Rows that are removed *)

Section Removed.

Variables segments_old segments_new : list cell.

Local Abbreviation n := (List.length segments_old).
Local Abbreviation m := (List.length segments_new).
Local Abbreviation body := (loop_body decide segments_old segments_new).
Local Abbreviation test := (loop_test segments_old segments_new).
Local Abbreviation loop := (align_loop decide segments_old segments_new).
Local Abbreviation sound := (removed_sound segments_old segments_new).
Local Abbreviation gone := (key_gone segments_old segments_new).

Lemma removed_sound_nil : sound [].
Proof. intros [|d before] i after H; discriminate. Qed.

Lemma removed_sound_cons (d : decision) (ds : list decision) :
  (forall i, d = removed_decision i -> gone i ds) -> sound ds -> sound (d :: ds).
Proof.
  intros Hd Hs [|d' before] i after H; simpl in H; inv H.
  - now apply Hd.
  - eapply Hs. reflexivity.
Qed.

Lemma removed_sound_skip (delta ds : list decision) :
  (forall i, ~ In (removed_decision i) delta) -> sound ds -> sound (delta ++ ds).
Proof.
  induction delta as [|d delta IH]; intros N Hs; [exact Hs|].
  cbn [app]. apply removed_sound_cons.
  - intros i ->. elim (N i). now left.
  - apply IH; [|exact Hs]. intros i Hi. apply (N i). now right.
Qed.

(** One turn of the loop removes a row only when its key is the key of
    no subsequent row from the cursor on. *)
Lemma loop_body_removed (st st' : loop_state decision) :
  test st = true ->
  body st = Return st' ->
  exists delta,
    result_rows st' = result_rows st ++ delta
    /\ ((forall i, ~ In (removed_decision i) delta)
        \/ (delta = [removed_decision (cur_i st)]
            /\ cur_j st' = cur_j st
            /\ forall j, cur_j st <= j ->
                         nth_error segments_new j <> nth_error segments_old (cur_i st))).
Proof.
  destruct st as [i j rows]. unfold loop_test, loop_body.
  cbn [cur_i cur_j result_rows]. intros T.
  destruct (n <=? i)%nat eqn:Ei.
  - cbn. intros H. inv H. cbn [cur_i cur_j result_rows].
    exists [new_decision j]. split; [reflexivity|]. left.
    intros q [C|[]]. discriminate.
  - apply Nat.leb_gt in Ei.
    destruct (nth_error segments_old i) as [old_i|] eqn:Eo.
    2:{ apply nth_error_None in Eo. lia. }
    destruct (m <=? j)%nat eqn:Ej.
    + apply Nat.leb_le in Ej. cbn. intros H. inv H. cbn [cur_i cur_j result_rows].
      exists [removed_decision i]. split; [reflexivity|]. right.
      split; [reflexivity|]. split; [reflexivity|].
      intros q Hq. assert (nth_error segments_new q = None) as ->
          by (apply nth_error_None; lia).
      discriminate.
    + destruct (nth_error segments_new j) as [new_j|] eqn:En; [|discriminate].
      destruct (py_eq old_i new_j) eqn:Eq.
      * cbn. intros H. inv H. cbn [cur_i cur_j result_rows].
        exists [unchanged_decision i j]. split; [reflexivity|]. left.
        intros q [C|[]]. discriminate.
      * destruct (list_index (skipn j segments_new) old_i) as [k|] eqn:Ek.
        -- rewrite (emit_new_spec decide new_decision) by reflexivity.
           intros H. inv H. cbn [cur_i cur_j result_rows].
           exists (map new_decision (seq j k)). split; [reflexivity|]. left.
           intros q C. apply in_map_iff in C as (x & C & _). discriminate.
        -- cbn. intros H. inv H. cbn [cur_i cur_j result_rows].
           exists [removed_decision i]. split; [reflexivity|]. right.
           split; [reflexivity|]. split; [reflexivity|].
           intros q Hq C.
           apply (list_index_None _ _ Ek (q - j)).
           rewrite nth_error_skipn. replace (j + (q - j)) with q by lia. exact C.
Qed.

Lemma align_loop_removed (fuel : nat) :
  forall (st : loop_state decision) (ds : list decision),
    cur_i st <= n -> cur_j st <= m ->
    loop fuel st = Return ds ->
    exists ds', ds = result_rows st ++ ds' /\ sound ds'.
Proof.
  induction fuel as [|fuel IH]; intros st ds Hi Hj H; [discriminate|].
  cbn [align_loop] in H.
  destruct (test st) eqn:T.
  - destruct (body st) as [st'| |] eqn:B; try discriminate. cbn [bind] in H.
    destruct (loop_body_delta _ _ _ _ T Hi Hj B) as (delta & Hr & Hi' & Hj' & _).
    destruct (loop_body_removed _ _ T B) as (delta' & Hr' & Hd).
    rewrite Hr in Hr'. apply app_inv_head in Hr'. subst delta'.
    destruct (align_loop_sound _ _ _ _ _ (proj2 Hi') (proj2 Hj') H)
      as (rest & E & _ & Hs & _).
    destruct (IH st' ds (proj2 Hi') (proj2 Hj') H) as (ds' & E' & S').
    rewrite E in E'. apply app_inv_head in E'. subst ds'.
    exists (delta ++ rest). split; [now rewrite E, Hr, app_assoc|].
    destruct Hd as [Hd|(-> & Ej & Hd)].
    + now apply removed_sound_skip.
    + cbn [app]. apply removed_sound_cons; [|exact S'].
      intros i [= <-] j Hin. rewrite Hs in Hin. apply in_seq in Hin.
      apply Hd. lia.
  - inv H. exists []. split; [now rewrite app_nil_r|apply removed_sound_nil].
Qed.

End Removed.

(** X21: a row of the previous table is decided [REMOVED] only when its
    key is the key of no subsequent row that is decided after it, two
    missing keys counting as the same key.  So a key that is removed
    does not come back further down in the merged table as unchanged or
    as new. *)
Theorem X21_removed_key_does_not_come_back (segments_old segments_new : list cell)
  (fuel : nat) (ds before after : list decision) (i : nat) :
  align_decisions fuel segments_old segments_new = Return ds ->
  ds = before ++ removed_decision i :: after ->
  forall j, In j (subsequent_rows after) ->
            nth_error segments_new j <> nth_error segments_old i.
Proof.
  unfold align_decisions. intros H E.
  destruct (align_loop_removed segments_old segments_new fuel (mkState 0 0 []) ds
              (Nat.le_0_l _) (Nat.le_0_l _) H) as (ds' & E' & S).
  cbn [result_rows app] in E'. subst ds'. exact (S before i after E).
Qed.

Lemma X21_removed_key_does_not_come_back_witness :
  nth_error [Some "UNH"; Some "DTM"; Some "UNT"] 1
  <> nth_error [Some "UNH"; Some "BGM"; Some "UNT"] 1.
Proof.
  apply (X21_removed_key_does_not_come_back
           [Some "UNH"; Some "BGM"; Some "UNT"] [Some "UNH"; Some "DTM"; Some "UNT"] 7
           [unchanged_decision 0 0; removed_decision 1; new_decision 1; unchanged_decision 2 2]
           [unchanged_decision 0 0] [new_decision 1; unchanged_decision 2 2] 1).
  - reflexivity.
  - reflexivity.
  - simpl. auto.
Defined.
